(** * advanced-vector: RawMemory<T> and Vector<T> (src/advanced-vector/vector.h)

    A shallow embedding of the two class templates of [vector.h] and the
    properties of their growth, relocation, insertion, removal and
    assignment operations.

    - The raw storage blocks obtained from [operator new] form a heap of
      blocks; a block is a list of slots, each one either uninitialized
      ([None]) or holding a live [T] ([Some v]).
    - [Vector] objects live in an object store and are named by their
      address (an index), so that [this != &rhs] can be written.
    - Every method is a computation in a small monad with three outcomes:
      normal return, a C++ exception in flight, undefined behaviour.
    - Which potentially-throwing call throws is decided by a failure plan
      carried in the state, and every construction, destruction, assignment,
      allocation and release is logged in a trace.
    - [size_t] is modelled by [nat]: the sizes of a vector are bounded by the
      address space, so [size_ * 2] and [n * sizeof(T)] do not wrap.

    The file gives the model first (machine, standard algorithms, the two
    classes, the abstraction function and the vocabulary of the properties),
    then the proofs, then the properties of the specification, C1 to C10,
    and runs on concrete element types, then further properties of the code,
    X1 to X27, with their runs. *)

From stdpp Require Import base list option numbers sets.

(** ** The element type [T]

    What the container needs to know about [T]: the value produced by value
    initialization [T()], the state a moved-from object is left in, and the
    three compile-time traits the templates test. *)
Class Element (T : Type) := {
  value_init : T;
  moved_from : T → T;
  is_nothrow_move_constructible : bool;
  is_copy_constructible : bool;
  is_nothrow_move_assignable : bool }.

(** ** Pointers, objects and events *)

(** A [T*]: the block it points into ([None] is [nullptr]) and the offset. *)
Record ptr := Ptr { base : option nat; off : nat }.

Definition ptr_add (p : ptr) (n : nat) : ptr := Ptr (base p) (off p + n).
Infix "+:" := ptr_add (at level 50, left associativity).

Definition ptr_eqb (p q : ptr) : bool :=
  match base p, base q with
  | Some b, Some c => (b =? c) && (off p =? off q)
  | None, None => off p =? off q
  | _, _ => false
  end.

(** [RawMemory<T>]: [T *buffer_ = nullptr; size_t capacity_ = 0;] *)
Record RawMemory := { buffer_ : option nat; capacity_ : nat }.

(** [Vector<T>]: [RawMemory<T> data_; size_t size_ = 0;] *)
Record Vector := { data_ : RawMemory; size_ : nat }.

(** Where an object of type [T] lives: a slot of a heap block, or the local
    [temp] of [EmplaceInCurrentAlloc]. *)
Inductive loc := Slot (b i : nat) | Temp.

Inductive ctor_kind := ByArgs | ByDefault | ByCopy | ByMove.
Inductive assign_kind := CopyAssign | MoveAssign.

Inductive event :=
| EvAlloc (b n : nat)
| EvFree (b : nat)
| EvCtor (k : ctor_kind) (l : loc)
| EvDtor (l : loc)
| EvAssign (k : assign_kind) (dst src : loc).

Inductive fault :=
| NullPointer
| OutOfBlock (b i : nat)
| NotLive (l : loc)
| NotRaw (l : loc)
| BadFree (b : nat)
| BadPointerArith
| AssertFailed
| NoObject (a : nat)
| Terminated.

(** ** The abstract machine *)

(** A block of raw storage: its slots, uninitialized or holding a live [T]. *)
Abbreviation block T := (list (option T)) (only parsing).

Section machine.
Context {T : Type} `{Elt : Element T}.

Record state := State {
  heap : list (option (block T));   (* [None]: a block that was released *)
  vecs : list Vector;           (* the Vector objects, by address *)
  trace : list event;
  plan : list bool }.           (* does the next potentially-throwing call throw? *)

Definition with_heap (h : list (option (block T))) (s : state) : state :=
  State h (vecs s) (trace s) (plan s).
Definition with_vecs (vs : list Vector) (s : state) : state :=
  State (heap s) vs (trace s) (plan s).
Definition with_plan (pl : list bool) (s : state) : state :=
  State (heap s) (vecs s) (trace s) pl.
Definition log (e : event) (s : state) : state :=
  State (heap s) (vecs s) (trace s ++ [e]) (plan s).

Inductive outcome (A : Type) :=
| Ok (a : A) (s : state)
| Throw (s : state)
| Undef (w : fault) (s : state).
Arguments Ok {A} a s.
Arguments Throw {A} s.
Arguments Undef {A} w s.

Definition final {A} (r : outcome A) : state :=
  match r with Ok _ s => s | Throw s => s | Undef _ s => s end.

Definition M (A : Type) : Type := state → outcome A.

Definition ret {A} (a : A) : M A := λ s, Ok a s.

Definition bind {A B} (m : M A) (f : A → M B) : M B :=
  λ s, match m s with
       | Ok a s' => f a s'
       | Throw s' => Throw s'
       | Undef w s' => Undef w s'
       end.

Definition undefined {A} (w : fault) : M A := λ s, Undef w s.

(** Stack unwinding: when [m] leaves by an exception, [cleanup] runs and the
    exception continues. This is both the destructor of a local that goes out
    of scope during unwinding and [catch (...) { cleanup; throw; }]. A
    cleanup that throws itself ends in [std::terminate]. *)
Definition on_unwind {A} (m : M A) (cleanup : M unit) : M A :=
  λ s, match m s with
       | Throw s' =>
           match cleanup s' with
           | Ok _ s'' => Throw s''
           | Throw s'' => Undef Terminated s''
           | Undef w s'' => Undef w s''
           end
       | r => r
       end.

(** The next potentially-throwing call consults the plan. *)
Definition tick : M unit :=
  λ s, match plan s with
       | [] => Ok tt s
       | fails :: rest =>
           if fails : bool then Throw (with_plan rest s) else Ok tt (with_plan rest s)
       end.

Definition may_throw (b : bool) : M unit := if b then tick else ret tt.

Definition emit (e : event) : M unit := λ s, Ok tt (log e s).

Definition assert (b : bool) : M unit := if b then ret tt else undefined AssertFailed.

(** *** Slots *)
Definition lookup_block (h : list (option (block T))) (b : nat) : option (block T) :=
  match h !! b with Some (Some c) => Some c | _ => None end.

Definition cell (h : list (option (block T))) (b i : nat) : option (option T) :=
  match lookup_block h b with Some c => c !! i | None => None end.

Definition set_cell (h : list (option (block T))) (b i : nat) (x : option T)
  : list (option (block T)) :=
  match lookup_block h b with
  | Some c => <[b := Some (<[i := x]> c)]> h
  | None => h
  end.

Definition read_cell (p : ptr) : M (option T) :=
  λ s, match base p with
       | None => Undef NullPointer s
       | Some b =>
           match cell (heap s) b (off p) with
           | Some c => Ok c s
           | None => Undef (OutOfBlock b (off p)) s
           end
       end.

Definition write_cell (p : ptr) (x : option T) : M unit :=
  λ s, match base p with
       | None => Undef NullPointer s
       | Some b => Ok tt (with_heap (set_cell (heap s) b (off p) x) s)
       end.

Definition loc_of (p : ptr) : loc :=
  match base p with Some b => Slot b (off p) | None => Slot 0 (off p) end.

(** Reading the live object [p] points to. *)
Definition load (p : ptr) : M T :=
  bind (read_cell p) (λ c,
    match c with
    | Some v => ret v
    | None => undefined (NotLive (loc_of p))
    end).

Definition ctor_may_throw (k : ctor_kind) : bool :=
  match k with
  | ByMove => negb is_nothrow_move_constructible
  | _ => true
  end.

Definition assign_may_throw (k : assign_kind) : bool :=
  match k with
  | MoveAssign => negb is_nothrow_move_assignable
  | CopyAssign => true
  end.

(** [new (p) T(...)] producing the value [v]: the slot must be
    uninitialized storage; a constructor that throws leaves it so. *)
Definition construct_at (k : ctor_kind) (p : ptr) (v : T) : M unit :=
  bind (read_cell p) (λ c,
    match c with
    | Some _ => undefined (NotRaw (loc_of p))
    | None =>
        bind (may_throw (ctor_may_throw k)) (λ _,
        bind (write_cell p (Some v)) (λ _,
        emit (EvCtor k (loc_of p))))
    end).

(** Placement-new at [dst] of a copy of the object at [src] ([ByCopy]), or
    of the object at [src] moved out of ([ByMove]). *)
Definition construct_from (k : ctor_kind) (dst src : ptr) : M unit :=
  bind (load src) (λ v,
  bind (construct_at k dst v) (λ _,
  match k with
  | ByMove => write_cell src (Some (moved_from v))
  | _ => ret tt
  end)).

(** Copy-assignment and move-assignment of the object at [src] to the live
    object at [dst]. *)
Definition assign (k : assign_kind) (dst src : ptr) : M unit :=
  bind (load src) (λ v,
  bind (load dst) (λ _,
  bind (may_throw (assign_may_throw k)) (λ _,
  bind (write_cell dst (Some v)) (λ _,
  bind (match k with
        | MoveAssign => write_cell src (Some (moved_from v))
        | CopyAssign => ret tt
        end) (λ _,
  emit (EvAssign k (loc_of dst) (loc_of src))))))).

(** The local [T temp(args...)] of [EmplaceInCurrentAlloc]. *)
Definition construct_temp : M unit :=
  bind tick (λ _, emit (EvCtor ByArgs Temp)).

Definition destroy_temp : M unit := emit (EvDtor Temp).

(** Move-assignment of [temp], which holds [v], to the live object at [dst]. *)
Definition assign_from_temp (dst : ptr) (v : T) : M unit :=
  bind (load dst) (λ _,
  bind (may_throw (assign_may_throw MoveAssign)) (λ _,
  bind (write_cell dst (Some v)) (λ _,
  emit (EvAssign MoveAssign (loc_of dst) Temp)))).

(** Pointer difference [p - q] as a [size_t]; both must point into the same
    block, with [q] not after [p]. *)
Definition ptr_diff (p q : ptr) : M nat :=
  if (match base p, base q with
      | Some b, Some c => b =? c
      | None, None => true
      | _, _ => false
      end) && (off q <=? off p)
  then ret (off p - off q)
  else undefined BadPointerArith.

(** [p - n]. *)
Definition ptr_sub (p : ptr) (n : nat) : M ptr :=
  if n <=? off p then ret (Ptr (base p) (off p - n)) else undefined BadPointerArith.

(** *** The object store *)
Definition get_vec (this : nat) : M Vector :=
  λ s, match vecs s !! this with
       | Some v => Ok v s
       | None => Undef (NoObject this) s
       end.

Definition put_vec (this : nat) (v : Vector) : M unit :=
  λ s, match vecs s !! this with
       | Some _ => Ok tt (with_vecs (<[this := v]> (vecs s)) s)
       | None => Undef (NoObject this) s
       end.

Definition new_object (v : Vector) : M nat :=
  λ s, Ok (length (vecs s)) (with_vecs (vecs s ++ [v]) s).

End machine.

Arguments state T : clear implicits.
Arguments outcome T A : clear implicits.
Arguments M T A : clear implicits.
Arguments Ok {T A} a s.
Arguments Throw {T A} s.
Arguments Undef {T A} w s.

Notation "'do' x <- m ; k" := (bind m (λ x, k))
  (at level 10, x binder, m at level 100, k at level 200,
   format "'[v' 'do'  x  <-  m ; '/' k ']'").
Notation "m >> k" := (bind m (λ _, k))
  (at level 100, k at level 200, right associativity).

(** ** Standard-library algorithms

    The algorithms of [<memory>] and [<algorithm>] the templates call, with the
    behaviour the C++ standard gives them: the [uninitialized_*] algorithms
    destroy the objects they constructed when a constructor throws, and let
    the exception continue. *)
Module std.
Section algorithms.
Context {T : Type} `{Elt : Element T}.

Definition destroy_at (p : ptr) : M T unit :=
  do c <- read_cell p;
  match c with
  | None => undefined (NotLive (loc_of p))
  | Some _ => write_cell p None >> emit (EvDtor (loc_of p))
  end.

Fixpoint destroy_n (first : ptr) (n : nat) : M T unit :=
  match n with
  | 0 => ret tt
  | S n' => destroy_at first >> destroy_n (first +: 1) n'
  end.

(** The common loop of [uninitialized_copy_n] and [uninitialized_move_n]:
    [done] elements are already constructed at [d_first]. *)
Fixpoint uninitialized_relocate_n (k : ctor_kind) (first : ptr) (n : nat)
    (d_first : ptr) (done : nat) : M T unit :=
  match n with
  | 0 => ret tt
  | S n' =>
      on_unwind (construct_from k (d_first +: done) (first +: done))
                (destroy_n d_first done) >>
      uninitialized_relocate_n k first n' d_first (S done)
  end.

Definition uninitialized_copy_n (first : ptr) (n : nat) (d_first : ptr) : M T unit :=
  uninitialized_relocate_n ByCopy first n d_first 0.

Definition uninitialized_move_n (first : ptr) (n : nat) (d_first : ptr) : M T unit :=
  uninitialized_relocate_n ByMove first n d_first 0.

Fixpoint uninitialized_value_construct_from (first : ptr) (n done : nat) : M T unit :=
  match n with
  | 0 => ret tt
  | S n' =>
      on_unwind (construct_at ByDefault (first +: done) value_init)
                (destroy_n first done) >>
      uninitialized_value_construct_from first n' (S done)
  end.

Definition uninitialized_value_construct_n (first : ptr) (n : nat) : M T unit :=
  uninitialized_value_construct_from first n 0.

(** Forward element-wise assignment, the loop of [std::copy] and [std::move]. *)
Fixpoint assign_forward (k : assign_kind) (first : ptr) (n : nat) (d_first : ptr)
  : M T unit :=
  match n with
  | 0 => ret tt
  | S n' => assign k d_first first >> assign_forward k (first +: 1) n' (d_first +: 1)
  end.

Definition copy (first last d_first : ptr) : M T unit :=
  do n <- ptr_diff last first;
  assign_forward CopyAssign first n d_first.

Definition move (first last d_first : ptr) : M T unit :=
  do n <- ptr_diff last first;
  assign_forward MoveAssign first n d_first.

(** Backward element-wise move-assignment: element [n - 1] first. *)
Fixpoint move_assign_backward (first : ptr) (n : nat) (d_first : ptr) : M T unit :=
  match n with
  | 0 => ret tt
  | S n' =>
      assign MoveAssign (d_first +: n') (first +: n') >>
      move_assign_backward first n' d_first
  end.

Definition move_backward (first last d_last : ptr) : M T unit :=
  do n <- ptr_diff last first;
  do d_first <- ptr_sub d_last n;
  move_assign_backward first n d_first.

End algorithms.
End std.

(** ** [RawMemory<T>] *)
Module RawMemory.
Section methods.
Context {T : Type} `{Elt : Element T}.

(** [n != 0 ? static_cast<T *>(operator new(n * sizeof(T))) : nullptr];
    [operator new] may throw [std::bad_alloc]. A fresh block is appended to
    the heap, all its slots uninitialized. *)
Definition Allocate (n : nat) : M T (option nat) :=
  if negb (n =? 0) then
    tick >>
    (λ s, let b := length (heap s) in
          Ok (Some b) (log (EvAlloc b n) (with_heap (heap s ++ [Some (replicate n None)]) s)))
  else ret None.

(** [operator delete(buf)]: nothing for [nullptr]; the block is released
    whatever its slots hold. *)
Definition Deallocate (buf : option nat) : M T unit :=
  match buf with
  | None => ret tt
  | Some b =>
      λ s, match lookup_block (heap s) b with
           | Some _ => Ok tt (log (EvFree b) (with_heap (<[b := None]> (heap s)) s))
           | None => Undef (BadFree b) s
           end
  end.

Definition default_ctor : RawMemory := {| buffer_ := None; capacity_ := 0 |}.

Definition ctor (capacity : nat) : M T RawMemory :=
  do buf <- Allocate capacity;
  ret {| buffer_ := buf; capacity_ := capacity |}.

(** [RawMemory(RawMemory &&other)]: the new object and what is left of [other]. *)
Definition move_ctor (other : RawMemory) : RawMemory * RawMemory :=
  ({| buffer_ := buffer_ other; capacity_ := capacity_ other |},
   {| buffer_ := None; capacity_ := 0 |}).

(** [operator=(RawMemory &&rhs) noexcept] (vector.h:107-117); [same] is
    [this == &rhs]. Returns the two objects after the call. *)
Definition move_assign (same : bool) (this rhs : RawMemory) : M T (RawMemory * RawMemory) :=
  if negb same then
    Deallocate (buffer_ this) >>
    ret ({| buffer_ := buffer_ rhs; capacity_ := capacity_ rhs |},
         {| buffer_ := None; capacity_ := 0 |})
  else ret (this, rhs).

Definition dtor (this : RawMemory) : M T unit := Deallocate (buffer_ this).

(** [operator+(size_t offset)] *)
Definition plus (this : RawMemory) (offset : nat) : M T ptr :=
  assert (offset <=? capacity_ this) >>
  ret (Ptr (buffer_ this) 0 +: offset).

(** [operator[](size_t index)]: the reference is modelled by its address. *)
Definition index (this : RawMemory) (index : nat) : M T ptr :=
  assert (index <? capacity_ this) >>
  ret (Ptr (buffer_ this) 0 +: index).

(** [Swap(RawMemory &other) noexcept] (vector.h:147-151): the two objects
    after the call. *)
Definition Swap (this other : RawMemory) : RawMemory * RawMemory :=
  ({| buffer_ := buffer_ other; capacity_ := capacity_ other |},
   {| buffer_ := buffer_ this; capacity_ := capacity_ this |}).

Definition GetAddress (this : RawMemory) : ptr := Ptr (buffer_ this) 0.

Definition Capacity (this : RawMemory) : nat := capacity_ this.

End methods.
End RawMemory.

(** ** [Vector<T>]

    [this], [rhs] and [other] are addresses of [Vector] objects in the store.
    Constructor arguments [args...] are represented by the value [v] the
    constructor produces from them. *)
Module Vector.
Section methods.
Context {T : Type} `{Elt : Element T}.

Definition begin (this : nat) : M T ptr :=
  do vec <- get_vec this;
  ret (RawMemory.GetAddress (data_ vec)).

Definition end_ (this : nat) : M T ptr :=
  do vec <- get_vec this;
  ret (RawMemory.GetAddress (data_ vec) +: size_ vec).

Definition cbegin (this : nat) : M T ptr :=
  do vec <- get_vec this;
  ret (RawMemory.GetAddress (data_ vec)).

Definition cend (this : nat) : M T ptr :=
  do vec <- get_vec this;
  ret (RawMemory.GetAddress (data_ vec) +: size_ vec).

Definition Size (this : nat) : M T nat :=
  do vec <- get_vec this;
  ret (size_ vec).

Definition Capacity (this : nat) : M T nat :=
  do vec <- get_vec this;
  ret (RawMemory.Capacity (data_ vec)).

(** [operator[](size_t index)] *)
Definition index (this : nat) (index : nat) : M T ptr :=
  do vec <- get_vec this;
  assert (index <? size_ vec) >>
  RawMemory.index (data_ vec) index.

(** [Vector() = default] *)
Definition default_ctor : M T nat :=
  new_object {| data_ := RawMemory.default_ctor; size_ := 0 |}.

(** [Vector(size_t size)]; when the body throws, the member [data_] is
    destroyed. *)
Definition sized_ctor (size : nat) : M T nat :=
  do data <- RawMemory.ctor size;
  on_unwind (std.uninitialized_value_construct_n (RawMemory.GetAddress data) size)
            (RawMemory.dtor data) >>
  new_object {| data_ := data; size_ := size |}.

(** [Vector(const Vector &other)] *)
Definition copy_ctor (other : nat) : M T nat :=
  do o <- get_vec other;
  do data <- RawMemory.ctor (size_ o);
  on_unwind (std.uninitialized_copy_n (RawMemory.GetAddress (data_ o)) (size_ o)
                                      (RawMemory.GetAddress data))
            (RawMemory.dtor data) >>
  new_object {| data_ := data; size_ := size_ o |}.

(** [Vector(Vector &&other) noexcept] *)
Definition move_ctor (other : nat) : M T nat :=
  do o <- get_vec other;
  let '(data, odata) := RawMemory.move_ctor (data_ o) in
  put_vec other {| data_ := odata; size_ := 0 |} >>
  new_object {| data_ := data; size_ := size_ o |}.

(** [~Vector()]: the body, then the destructor of the member [data_]. *)
Definition dtor (this : nat) : M T unit :=
  do vec <- get_vec this;
  std.destroy_n (RawMemory.GetAddress (data_ vec)) (size_ vec) >>
  RawMemory.dtor (data_ vec).

(** [Swap(Vector &other) noexcept] (vector.h:304-308) *)
Definition Swap (this other : nat) : M T unit :=
  do a <- get_vec this;
  do b <- get_vec other;
  let '(da, db) := RawMemory.Swap (data_ a) (data_ b) in
  put_vec this {| data_ := da; size_ := size_ b |} >>
  put_vec other {| data_ := db; size_ := size_ a |}.

(** [Reserve(size_t new_capacity)] (vector.h:357-370). The local [new_data]
    is destroyed when the relocation throws and, after the swap, at the end
    of the scope, where it holds the old block. *)
Definition Reserve (this : nat) (new_capacity : nat) : M T unit :=
  do vec <- get_vec this;
  if new_capacity <=? RawMemory.Capacity (data_ vec) then ret tt
  else
    do new_data <- RawMemory.ctor new_capacity;
    do new_data <-
      on_unwind
        ((if is_nothrow_move_constructible || negb is_copy_constructible then
            std.uninitialized_move_n (RawMemory.GetAddress (data_ vec)) (size_ vec)
                                     (RawMemory.GetAddress new_data)
          else
            std.uninitialized_copy_n (RawMemory.GetAddress (data_ vec)) (size_ vec)
                                     (RawMemory.GetAddress new_data)) >>
         std.destroy_n (RawMemory.GetAddress (data_ vec)) (size_ vec) >>
         let '(data, new_data) := RawMemory.Swap (data_ vec) new_data in
         put_vec this {| data_ := data; size_ := size_ vec |} >>
         ret new_data)
        (RawMemory.dtor new_data);
    RawMemory.dtor new_data.

(** [EmplaceInNewAlloc(size_t pos_index, Args &&...args)] (vector.h:393-407) *)
Definition EmplaceInNewAlloc (this : nat) (pos_index : nat) (v : T) : M T unit :=
  do vec <- get_vec this;
  do new_data <- RawMemory.ctor (if size_ vec =? 0 then 1 else size_ vec * 2);
  do new_data <-
    on_unwind
      (do slot <- RawMemory.plus new_data pos_index;
       construct_at ByArgs slot v >>
       do first <- begin this;
       (if is_nothrow_move_constructible || negb is_copy_constructible then
          std.uninitialized_move_n first pos_index (RawMemory.GetAddress new_data) >>
          std.uninitialized_move_n (first +: pos_index) (size_ vec - pos_index)
                                   (RawMemory.GetAddress new_data +: pos_index +: 1)
        else
          std.uninitialized_copy_n first pos_index (RawMemory.GetAddress new_data) >>
          std.uninitialized_copy_n (first +: pos_index) (size_ vec - pos_index)
                                   (RawMemory.GetAddress new_data +: pos_index +: 1)) >>
       std.destroy_n (RawMemory.GetAddress (data_ vec)) (size_ vec) >>
       let '(data, new_data) := RawMemory.Swap (data_ vec) new_data in
       put_vec this {| data_ := data; size_ := size_ vec |} >>
       ret new_data)
      (RawMemory.dtor new_data);
  RawMemory.dtor new_data.

(** [EmplaceInCurrentAlloc(size_t pos_index, Args &&...args)]
    (vector.h:409-424). The local [temp] is destroyed at the end of its scope,
    also when that scope is left by an exception. *)
Definition EmplaceInCurrentAlloc (this : nat) (pos_index : nat) (v : T) : M T unit :=
  do vec <- get_vec this;
  if pos_index <? size_ vec then
    construct_temp >>
    on_unwind
      (do past <- RawMemory.plus (data_ vec) (size_ vec);
       do last <- ptr_sub past 1;
       (if is_nothrow_move_constructible || negb is_copy_constructible then
          construct_from ByMove past last
        else
          construct_from ByCopy past last) >>
       do first <- begin this;
       do e <- end_ this;
       do e1 <- ptr_sub e 1;
       std.move_backward (first +: pos_index) e1 e >>
       do slot <- RawMemory.index (data_ vec) pos_index;
       assign_from_temp slot v)
      destroy_temp >>
    destroy_temp
  else
    do past <- RawMemory.plus (data_ vec) (size_ vec);
    construct_at ByArgs past v.

(** [Emplace(const_iterator pos, Args &&...args)] (vector.h:208-224) *)
Definition Emplace (this : nat) (pos : ptr) (v : T) : M T ptr :=
  do vec <- get_vec this;
  do past <- RawMemory.plus (data_ vec) (size_ vec);
  do pos_index <-
    (if ptr_eqb pos past then ret (size_ vec)
     else do first <- begin this; ptr_diff pos first);
  (if size_ vec =? RawMemory.Capacity (data_ vec) then
     EmplaceInNewAlloc this pos_index v
   else
     EmplaceInCurrentAlloc this pos_index v) >>
  do vec <- get_vec this;
  put_vec this {| data_ := data_ vec; size_ := size_ vec + 1 |} >>
  ret (RawMemory.GetAddress (data_ vec) +: pos_index).

(** [Erase(const_iterator pos)] (vector.h:226-239). [size_ - 1] is taken in
    [nat]: for an empty vector the call is undefined in C++ whatever the
    comparison gives, and here ends in [ptr_sub]. *)
Definition Erase (this : nat) (pos : ptr) : M T ptr :=
  do vec <- get_vec this;
  do cfirst <- cbegin this;
  do pos_index <- ptr_diff pos cfirst;
  do first <- begin this;
  let non_const_pos := first +: pos_index in
  (if pos_index <? size_ vec - 1 then
     do e <- end_ this;
     std.move (non_const_pos +: 1) e non_const_pos
   else ret tt) >>
  do past <- RawMemory.plus (data_ vec) (size_ vec);
  do last <- ptr_sub past 1;
  std.destroy_at last >>
  put_vec this {| data_ := data_ vec; size_ := size_ vec - 1 |} >>
  do first <- begin this;
  ret (first +: pos_index).

(** [Insert(const_iterator pos, const T &value)] *)
Definition Insert (this : nat) (pos : ptr) (value : T) : M T ptr :=
  Emplace this pos value.

(** [Insert(const_iterator pos, T &&value)] *)
Definition Insert_rvalue (this : nat) (pos : ptr) (value : T) : M T ptr :=
  Emplace this pos value.

(** [EmplaceBack(Args &&...args)] (vector.h:340-344); the reference returned
    is modelled by its address. *)
Definition EmplaceBack (this : nat) (v : T) : M T ptr :=
  do e <- end_ this;
  Emplace this e v.

(** [PushBack(const T &value)] *)
Definition PushBack (this : nat) (value : T) : M T unit :=
  EmplaceBack this value >> ret tt.

(** [PushBack(T &&value)] *)
Definition PushBack_rvalue (this : nat) (value : T) : M T unit :=
  EmplaceBack this value >> ret tt.

(** [PopBack() noexcept] (vector.h:346-350) *)
Definition PopBack (this : nat) : M T unit :=
  do vec <- get_vec this;
  do last <- ptr_sub (RawMemory.GetAddress (data_ vec) +: size_ vec) 1;
  std.destroy_n last 1 >>
  put_vec this {| data_ := data_ vec; size_ := size_ vec - 1 |}.

(** [Resize(size_t new_size)] (vector.h:310-328) *)
Definition Resize (this : nat) (new_size : nat) : M T unit :=
  do vec <- get_vec this;
  (if size_ vec <? new_size then
     Reserve this new_size >>
     do vec <- get_vec this;
     if is_nothrow_move_constructible || negb is_copy_constructible then
       std.uninitialized_value_construct_n
         (RawMemory.GetAddress (data_ vec) +: size_ vec) (new_size - size_ vec)
     else
       on_unwind
         (std.uninitialized_value_construct_n
            (RawMemory.GetAddress (data_ vec) +: size_ vec) (new_size - size_ vec))
         (std.destroy_n (RawMemory.GetAddress (data_ vec) +: size_ vec)
                        (new_size - size_ vec))
   else
     std.destroy_n (RawMemory.GetAddress (data_ vec) +: new_size) (size_ vec - new_size)) >>
  do vec <- get_vec this;
  put_vec this {| data_ := data_ vec; size_ := new_size |}.

(** The end of the lifetime of the most recent local [Vector]. *)
Definition end_of_scope : M T unit :=
  λ s, Ok tt (with_vecs (removelast (vecs s)) s).

(** [operator=(const Vector &rhs)] (vector.h:272-292); [tmp] is a local
    [Vector], destroyed at the end of its scope. *)
Definition copy_assign (this rhs : nat) : M T unit :=
  if negb (this =? rhs) then
    do vec <- get_vec this;
    do r <- get_vec rhs;
    if RawMemory.Capacity (data_ vec) <? size_ r then
      do tmp <- copy_ctor rhs;
      Swap this tmp >>
      dtor tmp >>
      end_of_scope
    else
      (if size_ r <? size_ vec then
         std.destroy_n (RawMemory.GetAddress (data_ vec) +: size_ r) (size_ vec - size_ r)
       else ret tt) >>
      std.copy (RawMemory.GetAddress (data_ r))
               (RawMemory.GetAddress (data_ r) +: Nat.min (size_ vec) (size_ r))
               (RawMemory.GetAddress (data_ vec)) >>
      (if size_ vec <? size_ r then
         std.uninitialized_copy_n (RawMemory.GetAddress (data_ r) +: size_ vec)
                                  (size_ r - size_ vec)
                                  (RawMemory.GetAddress (data_ vec) +: size_ vec)
       else ret tt) >>
      put_vec this {| data_ := data_ vec; size_ := size_ r |}
  else ret tt.

(** [operator=(Vector &&rhs) noexcept] (vector.h:294-302) *)
Definition move_assign (this rhs : nat) : M T unit :=
  if negb (this =? rhs) then
    do vec <- get_vec this;
    do r <- get_vec rhs;
    do both <- RawMemory.move_assign (this =? rhs) (data_ vec) (data_ r);
    put_vec this {| data_ := fst both; size_ := size_ r |} >>
    put_vec rhs {| data_ := snd both; size_ := 0 |}
  else ret tt.

End methods.
End Vector.

(** ** What a vector holds

    The invariant of §3 of the data model, as a function: the elements of the
    vector at [this], when slots [0, size_) of its block are live, slots
    [size_, capacity_) are uninitialized and the block has [capacity_] slots. *)
Section abstraction.
Context {T : Type}.

Definition cells_of (h : list (option (block T))) (m : RawMemory) : option (block T) :=
  match buffer_ m with
  | None => Some []
  | Some b => lookup_block h b
  end.

Definition is_raw (c : option T) : bool :=
  match c with None => true | Some _ => false end.

Definition contents (s : state T) (this : nat) : option (list T) :=
  match vecs s !! this with
  | None => None
  | Some vec =>
      match cells_of (heap s) (data_ vec) with
      | None => None
      | Some cells =>
          if (length cells =? capacity_ (data_ vec))
             && (size_ vec <=? capacity_ (data_ vec))
             && forallb is_raw (drop (size_ vec) cells)
          then mapM id (take (size_ vec) cells)
          else None
      end
  end.

(** The same, as a relation. *)
Definition represents (s : state T) (this : nat) (vec : Vector) (xs : list T) : Prop :=
  vecs s !! this = Some vec ∧
  size_ vec = length xs ∧
  length xs ≤ capacity_ (data_ vec) ∧
  cells_of (heap s) (data_ vec)
    = Some ((Some <$> xs) ++ replicate (capacity_ (data_ vec) - length xs) None).

End abstraction.

(** ** Vocabulary of the properties *)
Section vocabulary.
Context {T : Type} `{Elt : Element T}.
Implicit Types (s : state T) (R : relation (state T)).

(** The capacity [EmplaceInNewAlloc] asks for. *)
Definition grown (size : nat) : nat := if size =? 0 then 1 else size * 2.

(** The constructor the [if constexpr] of the relocation paths selects. *)
Definition relocation_kind : ctor_kind :=
  if is_nothrow_move_constructible || negb is_copy_constructible then ByMove else ByCopy.

(** The state a relocated-from object is left in. *)
Definition after (k : ctor_kind) (y : T) : T :=
  match k with ByMove => moved_from y | _ => y end.

(** What is left in the slot the last element was moved out of. *)
Fixpoint residue (d : T) (ys : list T) : T :=
  match ys with
  | [] => d
  | y :: ys' => residue (moved_from y) ys'
  end.

(** What is left in the first slot of a range shifted right by one. *)
Definition vacated (d : T) (zs : list T) : T :=
  match zs with
  | [] => d
  | z :: _ => moved_from z
  end.

(** The events of a growing [Reserve], in the order they happen. *)
Definition Reserve_events (vec : Vector) (nb n : nat) : list event :=
  [EvAlloc nb n] ++
  ((λ i, EvCtor relocation_kind (Slot nb i)) <$> seq 0 (size_ vec)) ++
  match buffer_ (data_ vec) with
  | Some ob => ((λ i, EvDtor (Slot ob i)) <$> seq 0 (size_ vec)) ++ [EvFree ob]
  | None => []
  end.

(** The events of [Erase] at index [pos] of a vector of [size] elements
    stored in block [b]. *)
Definition Erase_events (b pos size : nat) : list event :=
  ((λ i, EvAssign MoveAssign (Slot b i) (Slot b (i + 1))) <$> seq pos (size - 1 - pos))
  ++ [EvDtor (Slot b (size - 1))].

(** A call of the insertion family; a position is given by its index [i],
    as the iterator [begin() + i]. *)
Inductive call :=
| Call_Emplace (i : nat) (v : T)
| Call_Insert (i : nat) (v : T)
| Call_Insert_rvalue (i : nat) (v : T)
| Call_PushBack (v : T)
| Call_PushBack_rvalue (v : T)
| Call_EmplaceBack (v : T).

(** The call [c] on the vector at [this], its result dropped. *)
Definition run_call (this : nat) (c : call) : M T unit :=
  match c with
  | Call_Emplace i v =>
      do first <- Vector.begin this; Vector.Emplace this (first +: i) v >> ret tt
  | Call_Insert i v =>
      do first <- Vector.begin this; Vector.Insert this (first +: i) v >> ret tt
  | Call_Insert_rvalue i v =>
      do first <- Vector.begin this; Vector.Insert_rvalue this (first +: i) v >> ret tt
  | Call_PushBack v => Vector.PushBack this v
  | Call_PushBack_rvalue v => Vector.PushBack_rvalue this v
  | Call_EmplaceBack v => Vector.EmplaceBack this v >> ret tt
  end.

(** The calls [cs] one after the other, up to the first that does not return. *)
Fixpoint run_calls (this : nat) (cs : list call) : M T unit :=
  match cs with
  | [] => ret tt
  | c :: cs' => run_call this c >> run_calls this cs'
  end.

(** [only_blocks bs s s']: between [s] and [s'] the object store is the same,
    no block was added, and only the blocks in [bs] may differ. *)
Definition only_blocks (bs : list nat) s s' : Prop :=
  vecs s' = vecs s ∧ length (heap s') = length (heap s) ∧
  ∀ b, b ∉ bs → heap s' !! b = heap s !! b.

(** [p] is null or points into one of the blocks [bs]. *)
Definition points_into (bs : list nat) (p : ptr) : Prop :=
  match base p with Some b => b ∈ bs | None => True end.

(** [respects R m]: whatever way [m] ends (return, exception, undefined
    behaviour), the state it ends in is related by [R] to the one it started
    from. *)
Definition respects R {A} (m : M T A) : Prop := ∀ s, R s (final (m s)).

(** [quiet P]: the [Vector] objects are untouched and every logged event
    satisfies [P]. [logs P]: every logged event satisfies [P]. *)
Definition logs (P : event → Prop) : relation (state T) :=
  λ s s', ∃ l, trace s' = trace s ++ l ∧ Forall P l.

Definition quiet (P : event → Prop) : relation (state T) :=
  λ s s', vecs s' = vecs s ∧ logs P s s'.

(** [m] never leaves by an exception. *)
Definition no_throw {A} (m : M T A) : Prop := ∀ s s', m s ≠ Throw s'.

(** [throws_in R m]: when [m] leaves by an exception, the state is related by
    [R] to the initial one. *)
Definition throws_in R {A} (m : M T A) : Prop := ∀ s s', m s = Throw s' → R s s'.




End vocabulary.

(** ** Vocabulary of the further properties *)
Section further_vocabulary.
Context {T : Type} `{Elt : Element T}.

(** What a call of the insertion family does to the sequence of elements:
    whether its position is one of [begin() .. end()], and the sequence after
    it. *)
Definition call_in_range (c : call (T:=T)) (size : nat) : bool :=
  match c with
  | Call_Emplace i _ | Call_Insert i _ | Call_Insert_rvalue i _ => i <=? size
  | Call_PushBack _ | Call_PushBack_rvalue _ | Call_EmplaceBack _ => true
  end.

Definition list_call (c : call (T:=T)) (xs : list T) : list T :=
  match c with
  | Call_Emplace i v | Call_Insert i v | Call_Insert_rvalue i v =>
      take i xs ++ v :: drop i xs
  | Call_PushBack v | Call_PushBack_rvalue v | Call_EmplaceBack v => xs ++ [v]
  end.

Fixpoint list_calls (cs : list (call (T:=T))) (xs : list T) : option (list T) :=
  match cs with
  | [] => Some xs
  | c :: cs' =>
      if call_in_range c (length xs) then list_calls cs' (list_call c xs) else None
  end.

(** [end() - begin()] and [cend() - cbegin()]. *)
Definition distance (this : nat) : M T nat :=
  do first <- Vector.begin this;
  do last <- Vector.end_ this;
  ptr_diff last first.

Definition cdistance (this : nat) : M T nat :=
  do first <- Vector.cbegin this;
  do last <- Vector.cend this;
  ptr_diff last first.

(** The element-wise branch of [operator=(const Vector &rhs)]
    (vector.h:280-289), taken when the size of [r] fits into the capacity of
    [vec]. *)
Definition copy_assign_in_place (this : nat) (vec r : Vector) : M T unit :=
  (if size_ r <? size_ vec then
     std.destroy_n (RawMemory.GetAddress (data_ vec) +: size_ r) (size_ vec - size_ r)
   else ret tt) >>
  std.copy (RawMemory.GetAddress (data_ r))
           (RawMemory.GetAddress (data_ r) +: Nat.min (size_ vec) (size_ r))
           (RawMemory.GetAddress (data_ vec)) >>
  (if size_ vec <? size_ r then
     std.uninitialized_copy_n (RawMemory.GetAddress (data_ r) +: size_ vec)
                              (size_ r - size_ vec)
                              (RawMemory.GetAddress (data_ vec) +: size_ vec)
   else ret tt) >>
  put_vec this {| data_ := data_ vec; size_ := size_ r |}.

End further_vocabulary.

(** ** Concrete element types and states

    Three element types over [nat] values; a moved-from object holds [0].
    - [NothrowMovable]: [noexcept] move constructor, copyable.
    - [ThrowingMove]: copyable, the move constructor may throw: relocated by copy.
    - [MoveOnly]: not copyable, the move constructor may throw: relocated by move. *)
Definition NothrowMovable : Element nat :=
  {| value_init := 0; moved_from := λ _, 0;
     is_nothrow_move_constructible := true; is_copy_constructible := true;
     is_nothrow_move_assignable := true |}.

Definition ThrowingMove : Element nat :=
  {| value_init := 0; moved_from := λ _, 0;
     is_nothrow_move_constructible := false; is_copy_constructible := true;
     is_nothrow_move_assignable := false |}.

Definition MoveOnly : Element nat :=
  {| value_init := 0; moved_from := λ _, 0;
     is_nothrow_move_constructible := false; is_copy_constructible := false;
     is_nothrow_move_assignable := false |}.

Definition vector_at (b capacity size : nat) : Vector :=
  {| data_ := {| buffer_ := Some b; capacity_ := capacity |}; size_ := size |}.

Definition empty_vector : Vector :=
  {| data_ := RawMemory.default_ctor; size_ := 0 |}.

(** One default-constructed vector at address 0. *)
Definition fresh (pl : list bool) : state nat := State [] [empty_vector] [] pl.

(** The vector at address 0 holds [1; 2] in a block of two slots. *)
Definition full_of_two (pl : list bool) : state nat :=
  State [Some [Some 1; Some 2]] [vector_at 0 2 2] [] pl.

(** The vector at address 0 holds [1; 2] in a block of four slots. *)
Definition two_of_four (pl : list bool) : state nat :=
  State [Some [Some 1; Some 2; None; None]] [vector_at 0 4 2] [] pl.

(** Two vectors: [1] at address 0 and [5; 6] at address 1. *)
Definition two_vectors : state nat :=
  State [Some [Some 1]; Some [Some 5; Some 6; None]]
        [vector_at 0 1 1; vector_at 1 3 2] [] [].

(** * Proofs *)

(** ** The abstraction *)
Section abstraction_facts.
Context {T : Type}.

Lemma mapM_id_Some (cells : list (option T)) (xs : list T) :
  mapM id cells = Some xs ↔ cells = Some <$> xs.
Proof.
  rewrite mapM_Some. split.
  - induction 1 as [|c x cells xs Hc _ IH]; simpl in *; [done | by subst].
  - intros ->. induction xs; simpl; constructor; done.
Qed.

Lemma forallb_is_raw (cells : list (option T)) :
  forallb is_raw cells = true ↔ cells = replicate (length cells) None.
Proof.
  induction cells as [|[x|] cells IH]; simpl; [done | | ].
  - split; done.
  - rewrite IH. split; [by intros <- | by intros [= ?]].
Qed.

Lemma contents_represents (s : state T) (this : nat) (xs : list T) :
  contents s this = Some xs ↔ ∃ vec, represents s this vec xs.
Proof.
  unfold contents, represents. split.
  - destruct (vecs s !! this) as [vec|]; [|done].
    destruct (cells_of (heap s) (data_ vec)) as [cells|] eqn:Hcells; [|done].
    destruct (_ && _ && _) eqn:Hc; [|done].
    apply andb_true_iff in Hc as [Hc Hraw].
    apply andb_true_iff in Hc as [Hlen Hle].
    apply Nat.eqb_eq in Hlen. apply Nat.leb_le in Hle.
    apply forallb_is_raw in Hraw. rewrite length_drop in Hraw.
    intros Hm%mapM_id_Some. exists vec.
    assert (length xs = size_ vec) as Hxs.
    { rewrite <- (length_fmap Some xs), <- Hm, length_take. lia. }
    repeat split; [lia.. |].
    rewrite Hcells, <- (take_drop (size_ vec) cells), Hm, Hraw.
    do 3 f_equal. lia.
  - intros (vec & -> & Hsz & Hle & ->).
    rewrite length_app, length_fmap, length_replicate.
    replace (length xs + (capacity_ (data_ vec) - length xs) =? capacity_ (data_ vec))
      with true by (symmetry; apply Nat.eqb_eq; lia).
    replace (size_ vec <=? capacity_ (data_ vec))
      with true by (symmetry; apply Nat.leb_le; lia).
    rewrite Hsz. rewrite drop_app_length', take_app_length' by (by rewrite length_fmap).
    replace (forallb is_raw _) with true.
    + simpl. by apply mapM_id_Some.
    + symmetry. apply forallb_is_raw. by rewrite length_replicate.
Qed.

Lemma represents_functional (s : state T) this vec1 vec2 (xs1 xs2 : list T) :
  represents s this vec1 xs1 → represents s this vec2 xs2 → vec1 = vec2 ∧ xs1 = xs2.
Proof.
  intros H1 H2.
  assert (vec1 = vec2) as -> by (destruct H1 as [? _], H2 as [? _]; congruence).
  split; [done|].
  assert (contents s this = Some xs1) as E1 by (apply contents_represents; eauto).
  assert (contents s this = Some xs2) as E2 by (apply contents_represents; eauto).
  congruence.
Qed.

End abstraction_facts.

(** ** Reasoning about computations *)
Section reasoning.
Context {T : Type} `{Elt : Element T}.
Implicit Types (s : state T) (h : list (option (block T))).

Lemma bind_Ok {A B} (m : M T A) (f : A → M T B) s b s2 :
  bind m f s = Ok b s2 ↔ ∃ a s1, m s = Ok a s1 ∧ f a s1 = Ok b s2.
Proof.
  unfold bind. split.
  - destruct (m s) as [a s1| |]; [eauto | done..].
  - by intros (a & s1 & -> & ?).
Qed.

Lemma on_unwind_Ok {A} (m : M T A) (cleanup : M T unit) s a s' :
  on_unwind m cleanup s = Ok a s' ↔ m s = Ok a s'.
Proof.
  unfold on_unwind. destruct (m s) as [| s1 |]; [done | | done].
  destruct (cleanup s1); split; done.
Qed.

Lemma ret_Ok {A} (a b : A) s s' : ret a s = Ok b s' ↔ a = b ∧ s = s'.
Proof. unfold ret. split; [by intros [= -> ->] | by intros [-> ->]]. Qed.

(** *** Blocks of the heap *)
Lemma lookup_block_Some h b c : lookup_block h b = Some c ↔ h !! b = Some (Some c).
Proof.
  unfold lookup_block. destruct (h !! b) as [[c'|]|]; split; congruence.
Qed.

Lemma lookup_block_lt h b c : lookup_block h b = Some c → b < length h.
Proof. rewrite lookup_block_Some. apply lookup_lt_Some. Qed.

Lemma lookup_block_insert_eq h b c :
  b < length h → lookup_block (<[b := Some c]> h) b = Some c.
Proof. intros Hb. apply lookup_block_Some. by apply list_lookup_insert_eq. Qed.

Lemma lookup_block_insert_ne h b b' x :
  b ≠ b' → lookup_block (<[b := x]> h) b' = lookup_block h b'.
Proof. intros Hb. unfold lookup_block. by rewrite list_lookup_insert_ne. Qed.

Lemma lookup_block_agree h h' b :
  h' !! b = h !! b → lookup_block h' b = lookup_block h b.
Proof. unfold lookup_block. by intros ->. Qed.

Lemma set_cell_block h b i x c :
  lookup_block h b = Some c → set_cell h b i x = <[b := Some (<[i := x]> c)]> h.
Proof. unfold set_cell. by intros ->. Qed.

Lemma cell_block h b i c : lookup_block h b = Some c → cell h b i = c !! i.
Proof. unfold cell. by intros ->. Qed.

Lemma cell_Some h b i x :
  cell h b i = Some x → ∃ c, lookup_block h b = Some c ∧ c !! i = Some x.
Proof. unfold cell. destruct (lookup_block h b) as [c|]; [eauto | done]. Qed.

Lemma only_blocks_refl bs s : only_blocks bs s s.
Proof. by repeat split. Qed.

Lemma only_blocks_trans bs s1 s2 s3 :
  only_blocks bs s1 s2 → only_blocks bs s2 s3 → only_blocks bs s1 s3.
Proof.
  intros (Hv1 & Hl1 & Hf1) (Hv2 & Hl2 & Hf2). repeat split; [congruence.. |].
  intros b Hb. rewrite Hf2, Hf1; done.
Qed.

Lemma only_blocks_mono bs bs' s s' :
  bs ⊆ bs' → only_blocks bs s s' → only_blocks bs' s s'.
Proof.
  intros Hsub (Hv & Hl & Hf). repeat split; [done.. |].
  intros b Hb. apply Hf. intros Hin. apply Hb, Hsub, Hin.
Qed.

Lemma only_blocks_lookup bs s s' b :
  only_blocks bs s s' → b ∉ bs → lookup_block (heap s') b = lookup_block (heap s) b.
Proof. intros (_ & _ & Hf) Hb. apply lookup_block_agree, Hf, Hb. Qed.

(** *** The primitive steps, when they return *)
Lemma tick_Ok s u s' :
  tick s = Ok u s' → heap s' = heap s ∧ vecs s' = vecs s ∧ trace s' = trace s.
Proof.
  unfold tick. destruct (plan s) as [|[] rest]; [| done |]; by intros [= _ <-].
Qed.

Lemma may_throw_Ok b s u s' :
  may_throw b s = Ok u s' → heap s' = heap s ∧ vecs s' = vecs s ∧ trace s' = trace s.
Proof.
  destruct b; simpl; [apply tick_Ok |]. by intros [_ <-]%ret_Ok.
Qed.

Lemma read_cell_Ok b i s c s' :
  read_cell (Ptr (Some b) i) s = Ok c s' → s' = s ∧ cell (heap s) b i = Some c.
Proof.
  unfold read_cell; simpl. destruct (cell (heap s) b i); [|done].
  by intros [= -> ->].
Qed.

Lemma load_Ok b i s v s' :
  load (Ptr (Some b) i) s = Ok v s' → s' = s ∧ cell (heap s) b i = Some (Some v).
Proof.
  unfold load. intros (c & s1 & [-> Hc]%read_cell_Ok & Hr)%bind_Ok.
  destruct c as [v'|]; [|done]. apply ret_Ok in Hr as [-> ->]. done.
Qed.

Lemma write_cell_Ok b i x s u s' c :
  lookup_block (heap s) b = Some c →
  write_cell (Ptr (Some b) i) x s = Ok u s' →
  lookup_block (heap s') b = Some (<[i := x]> c) ∧
  only_blocks [b] s s' ∧ trace s' = trace s.
Proof.
  intros Hc. unfold write_cell; simpl. intros [= _ <-]; simpl.
  rewrite (set_cell_block _ _ _ _ _ Hc).
  split; [apply lookup_block_insert_eq; by eapply lookup_block_lt|].
  split; [|done]. repeat split; simpl; [by rewrite length_insert|].
  intros b' Hb'. apply list_lookup_insert_ne. set_solver.
Qed.

Lemma emit_Ok e s u s' :
  emit e s = Ok u s' → heap s' = heap s ∧ vecs s' = vecs s ∧ trace s' = trace s ++ [e].
Proof. by intros [= _ <-]. Qed.

Lemma construct_at_Ok k b i v s u s' :
  construct_at k (Ptr (Some b) i) v s = Ok u s' →
  ∃ c, lookup_block (heap s) b = Some c ∧ c !! i = Some None ∧
       lookup_block (heap s') b = Some (<[i := Some v]> c) ∧
       only_blocks [b] s s' ∧ trace s' = trace s ++ [EvCtor k (Slot b i)].
Proof.
  unfold construct_at.
  intros (c0 & s1 & [-> Hc]%read_cell_Ok & Hr)%bind_Ok.
  destruct c0; [done|].
  apply cell_Some in Hc as (c & Hc & Hi). exists c. split; [done|]. split; [done|].
  apply bind_Ok in Hr as (? & s2 & (Hh & Hv & Ht)%may_throw_Ok & Hr).
  apply bind_Ok in Hr as (? & s3 & Hw & He).
  rewrite <- Hh in Hc. apply (write_cell_Ok _ _ _ _ _ _ _ Hc) in Hw as (Hb & Hf & Ht3).
  apply emit_Ok in He as (Hh4 & Hv4 & Ht4). unfold loc_of in Ht4; simpl in Ht4.
  split; [by rewrite Hh4|]. split; [|congruence].
  destruct Hf as (Hfv & Hfl & Hf). repeat split; [congruence.. |].
  intros b' Hb'. rewrite Hh4, Hf, Hh; done.
Qed.

Lemma destroy_at_Ok b i s u s' :
  std.destroy_at (Ptr (Some b) i) s = Ok u s' →
  ∃ c v, lookup_block (heap s) b = Some c ∧ c !! i = Some (Some v) ∧
         lookup_block (heap s') b = Some (<[i := None]> c) ∧
         only_blocks [b] s s' ∧ trace s' = trace s ++ [EvDtor (Slot b i)].
Proof.
  unfold std.destroy_at.
  intros (c0 & s1 & [-> Hc]%read_cell_Ok & Hr)%bind_Ok.
  destruct c0 as [v|]; [|done].
  apply cell_Some in Hc as (c & Hc & Hi). exists c, v. split; [done|]. split; [done|].
  apply bind_Ok in Hr as (? & s3 & Hw & He).
  apply (write_cell_Ok _ _ _ _ _ _ _ Hc) in Hw as (Hb & Hf & Ht3).
  apply emit_Ok in He as (Hh4 & Hv4 & Ht4). unfold loc_of in Ht4; simpl in Ht4.
  split; [by rewrite Hh4|]. split; [|congruence].
  destruct Hf as (Hfv & Hfl & Hf). repeat split; [congruence.. |].
  intros b' Hb'. rewrite Hh4, Hf; done.
Qed.

End reasoning.

(** ** The loops, when they return *)
Section loops.
Context {T : Type} `{Elt : Element T}.
Implicit Types (s : state T) (h : list (option (block T))).

Lemma insert_middle {A} (l1 l2 : list A) (x y : A) (i : nat) :
  i = length l1 → <[i := y]> (l1 ++ x :: l2) = l1 ++ y :: l2.
Proof.
  intros ->. rewrite insert_app_r_alt by done. by rewrite Nat.sub_diag.
Qed.

Lemma only_blocks_other b b' s s' c :
  only_blocks [b] s s' → b ≠ b' → lookup_block (heap s) b' = Some c →
  lookup_block (heap s') b' = Some c.
Proof.
  intros Hf Hne <-. eapply only_blocks_lookup; [done|]. set_solver.
Qed.

Lemma construct_from_Ok k sb i db j s u s' cs :
  sb ≠ db → lookup_block (heap s) sb = Some cs →
  construct_from k (Ptr (Some db) j) (Ptr (Some sb) i) s = Ok u s' →
  ∃ y cd, cs !! i = Some (Some y) ∧ lookup_block (heap s) db = Some cd ∧
          cd !! j = Some None ∧
          lookup_block (heap s') db = Some (<[j := Some y]> cd) ∧
          lookup_block (heap s') sb = Some (<[i := Some (after k y)]> cs) ∧
          only_blocks [sb; db] s s' ∧
          trace s' = trace s ++ [EvCtor k (Slot db j)].
Proof.
  intros Hne Hcs. unfold construct_from.
  intros (y & s1 & [-> Hy]%load_Ok & Hr)%bind_Ok.
  rewrite (cell_block _ _ _ _ Hcs) in Hy.
  apply bind_Ok in Hr as (? & s2 & Hc & Hr).
  apply construct_at_Ok in Hc as (cd & Hcd & Hj & Hcd' & Hf & Ht).
  exists y, cd. do 3 (split; [done|]).
  pose proof (only_blocks_other _ _ _ _ _ Hf (not_eq_sym Hne) Hcs) as Hcs2.
  assert (k ≠ ByMove → ret () s2 = Ok u s' →
          lookup_block (heap s') db = Some (<[j:=Some y]> cd)
          ∧ lookup_block (heap s') sb = Some (<[i:=Some (after k y)]> cs)
          ∧ only_blocks [sb; db] s s' ∧ trace s' = trace s ++ [EvCtor k (Slot db j)])
    as Hcopy.
  { intros Hk [_ <-]%ret_Ok. split; [done|].
    replace (after k y) with y by (by destruct k).
    rewrite list_insert_id by done. split; [done|]. split; [|done].
    eapply only_blocks_mono; [|done]. set_solver. }
  destruct k; try (by apply Hcopy). clear Hcopy.
  apply (write_cell_Ok _ _ _ _ _ _ _ Hcs2) in Hr as (Hsb & Hf2 & Ht2).
  split; [eapply only_blocks_other; [done..|]; done|].
  split; [done|]. split; [|congruence].
  eapply only_blocks_trans; (eapply only_blocks_mono; [|done]); set_solver.
Qed.

Lemma destroy_n_Ok b ys : ∀ pre post s u s',
  lookup_block (heap s) b = Some (pre ++ (Some <$> ys) ++ post) →
  std.destroy_n (Ptr (Some b) (length pre)) (length ys) s = Ok u s' →
  lookup_block (heap s') b = Some (pre ++ replicate (length ys) None ++ post) ∧
  only_blocks [b] s s' ∧
  trace s' = trace s ++ ((λ i, EvDtor (Slot b i)) <$> seq (length pre) (length ys)).
Proof.
  induction ys as [|y ys IH]; intros pre post s u s' Hb; csimpl in Hb; csimpl.
  - intros [_ <-]%ret_Ok. split; [done|]. split; [apply only_blocks_refl|].
    by rewrite app_nil_r.
  - intros (? & s1 & Hd & Hr)%bind_Ok.
    apply destroy_at_Ok in Hd as (c & v & Hc & _ & Hc' & Hf & Ht).
    assert (c = pre ++ Some y :: (Some <$> ys) ++ post) as -> by congruence.
    rewrite insert_middle in Hc' by done.
    unfold ptr_add in Hr; simpl in Hr.
    specialize (IH (pre ++ [None]) post s1 u s').
    rewrite length_app in IH; simpl in IH.
    rewrite <- app_assoc in IH; simpl in IH.
    destruct (IH Hc' Hr) as (Hfin & Hf2 & Ht2).
    split; [by rewrite <- app_assoc in Hfin|].
    split; [by eapply only_blocks_trans|].
    rewrite Ht2, Ht, <- app_assoc, Nat.add_1_r. done.
Qed.

Lemma relocate_Ok k sb db so dn ys : ∀ cnt pre_s post_s pre_d post_d s u s',
  sb ≠ db →
  lookup_block (heap s) sb = Some (pre_s ++ (Some <$> ys) ++ post_s) →
  length pre_s = so + cnt →
  lookup_block (heap s) db = Some (pre_d ++ replicate (length ys) None ++ post_d) →
  length pre_d = dn + cnt →
  std.uninitialized_relocate_n k (Ptr (Some sb) so) (length ys) (Ptr (Some db) dn) cnt s
    = Ok u s' →
  lookup_block (heap s') db = Some (pre_d ++ (Some <$> ys) ++ post_d) ∧
  lookup_block (heap s') sb = Some (pre_s ++ (Some <$> (after k <$> ys)) ++ post_s) ∧
  only_blocks [sb; db] s s' ∧
  trace s' = trace s ++ ((λ i, EvCtor k (Slot db i)) <$> seq (dn + cnt) (length ys)).
Proof.
  induction ys as [|y ys IH]; intros cnt pre_s post_s pre_d post_d s u s' Hne Hs Hls Hd Hld;
    csimpl in Hs; csimpl in Hd; csimpl.
  - intros [_ <-]%ret_Ok. split; [done|]. split; [done|].
    split; [apply only_blocks_refl | by rewrite app_nil_r].
  - intros (? & s1 & Hc%on_unwind_Ok & Hr)%bind_Ok.
    unfold ptr_add in Hc; simpl in Hc.
    apply (construct_from_Ok _ _ _ _ _ _ _ _ _ Hne Hs) in Hc
      as (y' & cd & Hy & Hcd & _ & Hd1 & Hs1 & Hf & Ht).
    rewrite list_lookup_middle in Hy by done. injection Hy as <-.
    assert (cd = pre_d ++ None :: replicate (length ys) None ++ post_d) as ->
      by congruence.
    rewrite insert_middle in Hd1 by done. rewrite insert_middle in Hs1 by done.
    specialize (IH (S cnt) (pre_s ++ [Some (after k y)]) post_s
                   (pre_d ++ [Some y]) post_d s1 u s' Hne).
    rewrite <- !app_assoc, !length_app in IH. simpl in IH.
    destruct (IH Hs1 ltac:(lia) Hd1 ltac:(lia) Hr) as (Hd2 & Hs2 & Hf2 & Ht2).
    split; [done|]. split; [done|]. split; [by eapply only_blocks_trans|].
    rewrite Ht2, Ht, <- app_assoc. simpl. by rewrite Nat.add_succ_r.
Qed.

(** Same-block steps. *)
Lemma construct_from_same_Ok k b i j s u s' :
  i ≠ j →
  construct_from k (Ptr (Some b) j) (Ptr (Some b) i) s = Ok u s' →
  ∃ c y, lookup_block (heap s) b = Some c ∧ c !! i = Some (Some y) ∧
         c !! j = Some None ∧
         lookup_block (heap s') b
           = Some (<[i := Some (after k y)]> (<[j := Some y]> c)) ∧
         only_blocks [b] s s' ∧ trace s' = trace s ++ [EvCtor k (Slot b j)].
Proof.
  intros Hne. unfold construct_from.
  intros (y & s1 & [-> Hy]%load_Ok & Hr)%bind_Ok.
  apply bind_Ok in Hr as (? & s2 & Hc & Hr).
  apply construct_at_Ok in Hc as (c & Hc & Hj & Hc' & Hf & Ht).
  rewrite (cell_block _ _ _ _ Hc) in Hy.
  exists c, y. do 3 (split; [done|]).
  assert (<[j:=Some y]> c !! i = Some (Some y)) as Hy'
    by (by rewrite list_lookup_insert_ne).
  destruct k.
  4: { apply (write_cell_Ok _ _ _ _ _ _ _ Hc') in Hr as (Hb & Hf2 & Ht2).
       split; [done|]. split; [by eapply only_blocks_trans | congruence]. }
  all: apply ret_Ok in Hr as [_ <-]; simpl; by rewrite list_insert_id.
Qed.

Lemma move_assign_Ok b i j s u s' :
  i ≠ j →
  assign MoveAssign (Ptr (Some b) j) (Ptr (Some b) i) s = Ok u s' →
  ∃ c y z, lookup_block (heap s) b = Some c ∧ c !! i = Some (Some y) ∧
           c !! j = Some (Some z) ∧
           lookup_block (heap s') b
             = Some (<[i := Some (moved_from y)]> (<[j := Some y]> c)) ∧
           only_blocks [b] s s' ∧
           trace s' = trace s ++ [EvAssign MoveAssign (Slot b j) (Slot b i)].
Proof.
  intros Hne. unfold assign.
  intros (y & s1 & [-> Hy]%load_Ok & Hr)%bind_Ok.
  apply bind_Ok in Hr as (z & s2 & [-> Hz]%load_Ok & Hr).
  apply cell_Some in Hy as (c & Hc & Hy).
  rewrite (cell_block _ _ _ _ Hc) in Hz.
  apply bind_Ok in Hr as (? & s2 & (Hh & Hv & Ht)%may_throw_Ok & Hr).
  apply bind_Ok in Hr as (? & s3 & Hw & Hr).
  apply bind_Ok in Hr as (? & s4 & Hw2 & He).
  exists c, y, z. do 3 (split; [done|]).
  assert (lookup_block (heap s2) b = Some c) as Hc2 by (by rewrite Hh).
  apply (write_cell_Ok _ _ _ _ _ _ _ Hc2) in Hw as (Hb3 & Hf3 & Ht3).
  apply (write_cell_Ok _ _ _ _ _ _ _ Hb3) in Hw2 as (Hb4 & Hf4 & Ht4).
  apply emit_Ok in He as (Hh5 & Hv5 & Ht5). unfold loc_of in Ht5; simpl in Ht5.
  split; [by rewrite Hh5|]. split; [|congruence].
  pose proof (only_blocks_trans _ _ _ _ Hf3 Hf4) as (Hfv & Hfl & Hf).
  repeat split; [congruence.. |].
  intros b' Hb'. rewrite Hh5, Hf, Hh; done.
Qed.

Lemma assign_from_temp_Ok b j v s u s' :
  assign_from_temp (Ptr (Some b) j) v s = Ok u s' →
  ∃ c z, lookup_block (heap s) b = Some c ∧ c !! j = Some (Some z) ∧
         lookup_block (heap s') b = Some (<[j := Some v]> c) ∧
         only_blocks [b] s s' ∧
         trace s' = trace s ++ [EvAssign MoveAssign (Slot b j) Temp].
Proof.
  unfold assign_from_temp.
  intros (z & s1 & [-> Hz]%load_Ok & Hr)%bind_Ok.
  apply cell_Some in Hz as (c & Hc & Hz).
  apply bind_Ok in Hr as (? & s2 & (Hh & Hv & Ht)%may_throw_Ok & Hr).
  apply bind_Ok in Hr as (? & s3 & Hw & He).
  exists c, z. do 2 (split; [done|]).
  assert (lookup_block (heap s2) b = Some c) as Hc2 by (by rewrite Hh).
  apply (write_cell_Ok _ _ _ _ _ _ _ Hc2) in Hw as (Hb3 & Hf3 & Ht3).
  apply emit_Ok in He as (Hh5 & Hv5 & Ht5). unfold loc_of in Ht5; simpl in Ht5.
  split; [by rewrite Hh5|]. split; [|congruence].
  destruct Hf3 as (Hfv & Hfl & Hf).
  repeat split; [congruence.. |].
  intros b' Hb'. rewrite Hh5, Hf, Hh; done.
Qed.

Lemma assign_forward_Ok b ys : ∀ pre d post s u s',
  lookup_block (heap s) b = Some (pre ++ Some d :: (Some <$> ys) ++ post) →
  std.assign_forward MoveAssign (Ptr (Some b) (length pre + 1)) (length ys)
                     (Ptr (Some b) (length pre)) s = Ok u s' →
  lookup_block (heap s') b
    = Some (pre ++ (Some <$> ys) ++ Some (residue d ys) :: post) ∧
  only_blocks [b] s s' ∧
  trace s' = trace s ++
    ((λ i, EvAssign MoveAssign (Slot b i) (Slot b (i + 1))) <$> seq (length pre) (length ys)).
Proof.
  induction ys as [|y ys IH]; intros pre d post s u s' Hb; csimpl in Hb; csimpl.
  - intros [_ <-]%ret_Ok. split; [done|]. split; [apply only_blocks_refl|].
    by rewrite app_nil_r.
  - intros (? & s1 & Ha & Hr)%bind_Ok.
    apply move_assign_Ok in Ha as (c & y' & z & Hc & Hy & _ & Hc' & Hf & Ht); [|lia].
    assert (c = pre ++ Some d :: Some y :: (Some <$> ys) ++ post) as -> by congruence.
    rewrite (insert_middle pre) in Hc' by done.
    replace (pre ++ Some d :: Some y :: (Some <$> ys) ++ post)
      with ((pre ++ [Some d]) ++ Some y :: (Some <$> ys) ++ post) in Hy
      by (by rewrite <- app_assoc).
    rewrite list_lookup_middle in Hy by (rewrite length_app; simpl; lia).
    injection Hy as <-.
    replace (pre ++ Some y :: Some y :: (Some <$> ys) ++ post)
      with ((pre ++ [Some y]) ++ Some y :: (Some <$> ys) ++ post) in Hc'
      by (by rewrite <- app_assoc).
    rewrite insert_middle in Hc' by (rewrite length_app; simpl; lia).
    unfold ptr_add in Hr; simpl in Hr.
    specialize (IH (pre ++ [Some y]) (moved_from y) post s1 u s' Hc').
    rewrite length_app in IH; simpl in IH.
    destruct (IH Hr) as (Hfin & Hf2 & Ht2).
    split; [by rewrite <- app_assoc in Hfin|].
    split; [by eapply only_blocks_trans|].
    rewrite Ht2, Ht, <- app_assoc, Nat.add_1_r. done.
Qed.

Lemma vacated_snoc d zs z : vacated d (zs ++ [z]) = vacated (moved_from z) zs.
Proof. by destruct zs. Qed.

Lemma move_assign_backward_Ok b zs : ∀ pre d post s u s',
  lookup_block (heap s) b = Some (pre ++ (Some <$> zs) ++ Some d :: post) →
  std.move_assign_backward (Ptr (Some b) (length pre)) (length zs)
                           (Ptr (Some b) (length pre + 1)) s = Ok u s' →
  lookup_block (heap s') b
    = Some (pre ++ Some (vacated d zs) :: (Some <$> zs) ++ post) ∧
  only_blocks [b] s s' ∧
  trace s' = trace s ++
    ((λ i, EvAssign MoveAssign (Slot b (i + 1)) (Slot b i))
       <$> reverse (seq (length pre) (length zs))).
Proof.
  induction zs as [|z zs IH] using rev_ind; intros pre d post s u s' Hb.
  - simpl. intros [_ <-]%ret_Ok. split; [done|]. split; [apply only_blocks_refl|].
    by rewrite app_nil_r.
  - rewrite length_app, Nat.add_1_r. simpl.
    intros (? & s1 & Ha & Hr)%bind_Ok.
    unfold ptr_add in Ha; simpl in Ha.
    rewrite fmap_app in Hb. csimpl in Hb. rewrite <- app_assoc in Hb. simpl in Hb.
    apply move_assign_Ok in Ha as (c & y' & z' & Hc & Hy & _ & Hc' & Hf & Ht); [|lia].
    assert (c = pre ++ (Some <$> zs) ++ Some z :: Some d :: post) as -> by congruence.
    rewrite app_assoc in Hy, Hc'.
    rewrite list_lookup_middle in Hy by (rewrite length_app, length_fmap; lia).
    injection Hy as <-.
    replace ((pre ++ (Some <$> zs)) ++ Some z :: Some d :: post)
      with (((pre ++ (Some <$> zs)) ++ [Some z]) ++ Some d :: post) in Hc'
      by (by rewrite <- (app_assoc _ [Some z])).
    rewrite insert_middle in Hc' by (rewrite !length_app, length_fmap; simpl; lia).
    rewrite <- (app_assoc _ [Some z]) in Hc'. simpl in Hc'.
    rewrite insert_middle in Hc' by (rewrite !length_app, length_fmap; simpl; lia).
    rewrite <- app_assoc in Hc'.
    destruct (IH pre (moved_from z) (Some z :: post) s1 u s' Hc' Hr) as (Hfin & Hf2 & Ht2).
    split.
    { rewrite Hfin, vacated_snoc, fmap_app, <- app_assoc. done. }
    split; [by eapply only_blocks_trans|].
    rewrite Ht2, Ht, <- app_assoc.
    change (length pre :: seq (S (length pre)) (length zs))
      with (seq (length pre) (S (length zs))).
    rewrite seq_S, reverse_app, fmap_app. simpl.
    do 4 f_equal. lia.
Qed.

End loops.

(** ** The methods, when they return *)
Section methods_ok.
Context {T : Type} `{Elt : Element T}.
Implicit Types (s : state T) (h : list (option (block T))).

Lemma relocation_if (first : ptr) n (d_first : ptr) :
  (if is_nothrow_move_constructible || negb is_copy_constructible
   then std.uninitialized_move_n first n d_first
   else std.uninitialized_copy_n first n d_first)
  = std.uninitialized_relocate_n relocation_kind first n d_first 0.
Proof. unfold relocation_kind. by destruct (_ || _). Qed.

Lemma get_vec_Ok this s vec s' :
  get_vec this s = Ok vec s' → s' = s ∧ vecs s !! this = Some vec.
Proof. unfold get_vec. destruct (vecs s !! this); [|done]. by intros [= -> ->]. Qed.

Lemma put_vec_Ok this vec s u s' :
  put_vec this vec s = Ok u s' →
  heap s' = heap s ∧ vecs s' = <[this := vec]> (vecs s) ∧ trace s' = trace s ∧
  vecs s' !! this = Some vec.
Proof.
  unfold put_vec. destruct (vecs s !! this) eqn:Hv; [|done]. intros [= _ <-]; simpl.
  repeat split. apply list_lookup_insert_eq. by eapply lookup_lt_Some.
Qed.

Lemma RawMemory_ctor_Ok n s m s' :
  n ≠ 0 → RawMemory.ctor n s = Ok m s' →
  m = {| buffer_ := Some (length (heap s)); capacity_ := n |} ∧
  heap s' = heap s ++ [Some (replicate n None)] ∧ vecs s' = vecs s ∧
  trace s' = trace s ++ [EvAlloc (length (heap s)) n].
Proof.
  intros Hn. unfold RawMemory.ctor, RawMemory.Allocate.
  replace (n =? 0) with false by (symmetry; by apply Nat.eqb_neq). simpl.
  intros (buf & s1 & Ha & [<- <-]%ret_Ok)%bind_Ok.
  apply bind_Ok in Ha as (? & s0 & (Hh & Hv & Ht)%tick_Ok & Ha).
  injection Ha as <- <-. simpl. by rewrite Hh, Hv, Ht.
Qed.

Lemma Deallocate_Ok b s u s' :
  RawMemory.Deallocate (Some b) s = Ok u s' →
  heap s' = <[b := None]> (heap s) ∧ vecs s' = vecs s ∧ trace s' = trace s ++ [EvFree b].
Proof.
  simpl. destruct (lookup_block (heap s) b); [|done]. by intros [= _ <-].
Qed.

Lemma lookup_block_app_l h h' b :
  b < length h → lookup_block (h ++ h') b = lookup_block h b.
Proof. intros Hb. unfold lookup_block. by rewrite lookup_app_l. Qed.

Lemma lookup_block_app_new h c :
  lookup_block (h ++ [Some c]) (length h) = Some c.
Proof. apply lookup_block_Some. by apply list_lookup_middle. Qed.

(** The storage of a vector that holds [xs]: no block at all, or a block of
    [capacity_] slots of which the first [length xs] are live. *)
Lemma represents_storage s this vec (xs : list T) :
  represents s this vec xs →
  (buffer_ (data_ vec) = None ∧ xs = [] ∧ capacity_ (data_ vec) = 0) ∨
  (∃ b, buffer_ (data_ vec) = Some b ∧ b < length (heap s) ∧
        lookup_block (heap s) b
          = Some ((Some <$> xs) ++ replicate (capacity_ (data_ vec) - length xs) None)).
Proof.
  intros (Hv & Hsz & Hle & Hc). unfold cells_of in Hc.
  destruct (buffer_ (data_ vec)) as [b|] eqn:Hb.
  - right. exists b. split; [done|]. split; [by eapply lookup_block_lt | done].
  - left. injection Hc as Hc. symmetry in Hc.
    apply app_eq_nil in Hc as [Hx Hr]. apply fmap_nil_inv in Hx as ->.
    simpl in Hr. split; [done|]. split; [done|].
    apply (f_equal length) in Hr. rewrite length_replicate in Hr. simpl in Hr. lia.
Qed.

Lemma Reserve_grow_Ok this n s vec (xs : list T) u s' :
  represents s this vec xs →
  capacity_ (data_ vec) < n →
  Vector.Reserve this n s = Ok u s' →
  let vec' := {| data_ := {| buffer_ := Some (length (heap s)); capacity_ := n |};
                 size_ := size_ vec |} in
  represents s' this vec' xs ∧
  trace s' = trace s ++ Reserve_events vec (length (heap s)) n ∧
  vecs s' = <[this := vec']> (vecs s) ∧
  length (heap s') = S (length (heap s)).
Proof.
  intros Hrep Hcap. pose proof Hrep as (Hv & Hsz & Hle & Hc).
  unfold Vector.Reserve.
  intros (vec0 & s0 & [-> Hv0]%get_vec_Ok & Hr)%bind_Ok.
  assert (vec0 = vec) as -> by congruence.
  unfold RawMemory.Capacity in Hr.
  replace (n <=? capacity_ (data_ vec)) with false in Hr
    by (symmetry; apply Nat.leb_gt; lia).
  apply bind_Ok in Hr as (new_data & s1 & Hctor & Hr).
  apply RawMemory_ctor_Ok in Hctor as (-> & Hh1 & Hv1 & Ht1); [|lia].
  apply bind_Ok in Hr as (old_data & s5 & Hbody%on_unwind_Ok & Hdtor).
  rewrite relocation_if in Hbody.
  apply bind_Ok in Hbody as (? & s2 & Hreloc & Hbody).
  apply bind_Ok in Hbody as (? & s3 & Hdestroy & Hbody).
  simpl in Hbody.
  apply bind_Ok in Hbody as (? & s4 & Hput & [<- <-]%ret_Ok).
  apply put_vec_Ok in Hput as (Hh4 & Hv4 & Ht4 & Hthis).
  unfold RawMemory.GetAddress in *. simpl in Hreloc.
  set (nb := length (heap s)) in *.
  destruct (represents_storage _ _ _ _ Hrep) as [(Hbuf & -> & Hcap0)|(ob & Hbuf & Hob & Hblk)].
  - (* no storage yet: nothing to relocate, nothing to destroy or release *)
    simpl in Hsz. rewrite Hsz in *. simpl in Hreloc, Hdestroy.
    apply ret_Ok in Hreloc as [_ <-]. apply ret_Ok in Hdestroy as [_ <-].
    unfold RawMemory.dtor in Hdtor. rewrite Hbuf in Hdtor. simpl in Hdtor.
    apply ret_Ok in Hdtor as [_ <-].
    split; [|split; [|split]].
    + repeat split; simpl; [done | lia |].
      rewrite Hh4, Hh1. unfold cells_of; simpl.
      rewrite lookup_block_app_new. by rewrite Nat.sub_0_r.
    + rewrite Ht4, Ht1. unfold Reserve_events. rewrite Hbuf, ?Hsz. by rewrite app_nil_r.
    + by rewrite Hv4, Hv1, ?Hsz.
    + rewrite Hh4, Hh1, length_app. simpl. lia.
  - rewrite Hbuf in *.
    assert (ob ≠ nb) as Hne by lia.
    assert (lookup_block (heap s1) ob
            = Some ([] ++ (Some <$> xs) ++ replicate (capacity_ (data_ vec) - length xs) None))
      as Hs1 by (rewrite Hh1, lookup_block_app_l by done; done).
    assert (lookup_block (heap s1) nb
            = Some ([] ++ replicate (length xs) None ++ replicate (n - length xs) None))
      as Hd1.
    { rewrite Hh1. unfold nb. rewrite lookup_block_app_new. simpl.
      rewrite <- replicate_add. do 2 f_equal. lia. }
    rewrite Hsz in Hreloc, Hdestroy.
    apply (relocate_Ok _ _ _ 0 0 _ 0 _ _ _ _ _ _ _ Hne Hs1 eq_refl Hd1 eq_refl) in Hreloc
      as (Hd2 & Hs2 & Hf2 & Ht2).
    rewrite <- (length_fmap (after relocation_kind) xs) in Hdestroy.
    apply (destroy_n_Ok _ _ [] _ _ _ _ Hs2) in Hdestroy as (Hs3 & Hf3 & Ht3).
    unfold RawMemory.dtor in Hdtor. simpl in Hdtor.
    pose proof Hdtor as Hdtor'.
    apply Deallocate_Ok in Hdtor as (Hh5 & Hv5 & Ht5).
    assert (length (heap s4) = S nb) as Hlen4.
    { rewrite Hh4. destruct Hf3 as (_ & -> & _). destruct Hf2 as (_ & -> & _).
      rewrite Hh1, length_app. simpl. lia. }
    split; [|split; [|split]].
    + repeat split; simpl; [congruence | done | lia |].
      unfold cells_of; simpl. rewrite Hh5, lookup_block_insert_ne by done.
      rewrite Hh4. erewrite only_blocks_lookup; [|done|set_solver]. done.
    + rewrite Ht5, Ht4, Ht3, Ht2, Ht1. unfold Reserve_events. rewrite Hbuf, Hsz.
      rewrite length_fmap. simpl. rewrite <- !app_assoc. done.
    + rewrite Hv5, Hv4. destruct Hf3 as (-> & _). destruct Hf2 as (-> & _).
      by rewrite Hv1, Hsz.
    + by rewrite Hh5, length_insert.
Qed.

Lemma relocation_if2 (a : ptr) p (d : ptr) (a' : ptr) q (d' : ptr) :
  (if is_nothrow_move_constructible || negb is_copy_constructible
   then std.uninitialized_move_n a p d >> std.uninitialized_move_n a' q d'
   else std.uninitialized_copy_n a p d >> std.uninitialized_copy_n a' q d')
  = (std.uninitialized_relocate_n relocation_kind a p d 0 >>
     std.uninitialized_relocate_n relocation_kind a' q d' 0).
Proof. unfold relocation_kind. by destruct (_ || _). Qed.

Lemma assert_Ok (c : bool) s u s' : assert c s = Ok u s' → c = true ∧ s' = s.
Proof. destruct c; simpl; [by intros [_ <-]%ret_Ok | done]. Qed.

Lemma RawMemory_plus_Ok (m : RawMemory) n s p s' :
  RawMemory.plus m n s = Ok p s' → n ≤ capacity_ m ∧ p = Ptr (buffer_ m) n ∧ s' = s.
Proof.
  unfold RawMemory.plus.
  intros (? & s1 & [Hc ->]%assert_Ok & [<- <-]%ret_Ok)%bind_Ok.
  apply Nat.leb_le in Hc. done.
Qed.

Lemma begin_Ok this s p s' :
  Vector.begin this s = Ok p s' →
  ∃ vec, vecs s !! this = Some vec ∧ p = Ptr (buffer_ (data_ vec)) 0 ∧ s' = s.
Proof.
  unfold Vector.begin.
  intros (vec & s1 & [-> Hv]%get_vec_Ok & [<- <-]%ret_Ok)%bind_Ok. eauto.
Qed.

Lemma end_Ok this s p s' :
  Vector.end_ this s = Ok p s' →
  ∃ vec, vecs s !! this = Some vec ∧ p = Ptr (buffer_ (data_ vec)) (size_ vec) ∧ s' = s.
Proof.
  unfold Vector.end_.
  intros (vec & s1 & [-> Hv]%get_vec_Ok & [<- <-]%ret_Ok)%bind_Ok. eauto.
Qed.

Lemma grown_gt size : size < grown size.
Proof. unfold grown. destruct (Nat.eqb_spec size 0); lia. Qed.

Lemma EmplaceInNewAlloc_Ok this pos v s vec (xs : list T) u s' :
  represents s this vec xs →
  pos ≤ length xs →
  Vector.EmplaceInNewAlloc this pos v s = Ok u s' →
  let nb := length (heap s) in
  vecs s' = <[this := {| data_ := {| buffer_ := Some nb; capacity_ := grown (size_ vec) |};
                         size_ := size_ vec |}]> (vecs s) ∧
  lookup_block (heap s') nb
    = Some ((Some <$> (take pos xs ++ v :: drop pos xs))
            ++ replicate (grown (size_ vec) - length xs - 1) None) ∧
  length (heap s') = S (length (heap s)).
Proof.
  intros Hrep Hpos. pose proof Hrep as (Hv & Hsz & Hle & Hc).
  pose proof (grown_gt (size_ vec)) as Hgrown.
  unfold Vector.EmplaceInNewAlloc. fold (grown (size_ vec)).
  intros (vec0 & s0 & [-> Hv0]%get_vec_Ok & Hr)%bind_Ok.
  assert (vec0 = vec) as -> by congruence.
  fold (grown (size_ vec)) in Hr.
  apply bind_Ok in Hr as (new_data & s1 & Hctor & Hr).
  apply RawMemory_ctor_Ok in Hctor as (-> & Hh1 & Hv1 & Ht1); [|lia].
  apply bind_Ok in Hr as (old_data & s7 & Hbody%on_unwind_Ok & Hdtor).
  apply bind_Ok in Hbody as (slot & s2 & (_ & -> & ->)%RawMemory_plus_Ok & Hbody).
  simpl in Hbody.
  apply bind_Ok in Hbody as (? & s2 & Hnew & Hbody).
  apply bind_Ok in Hbody as (first & s3 & (vec1 & Hv3 & -> & ->)%begin_Ok & Hbody).
  apply construct_at_Ok in Hnew as (c & Hc1 & _ & Hc2 & Hf2 & Ht2).
  assert (vec1 = vec) as -> by (destruct Hf2 as (Hfv & _); congruence).
  rewrite relocation_if2 in Hbody.
  apply bind_Ok in Hbody as (? & s5 & Hreloc & Hbody).
  apply bind_Ok in Hreloc as (? & s4 & Hreloc1 & Hreloc2).
  apply bind_Ok in Hbody as (? & s6 & Hdestroy & Hbody).
  apply bind_Ok in Hbody as (? & s8 & Hput & [<- <-]%ret_Ok).
  apply put_vec_Ok in Hput as (Hh8 & Hv8 & Ht8 & Hthis).
  unfold RawMemory.GetAddress, ptr_add in *. simpl in Hreloc1, Hreloc2, Hdestroy, Hdtor.
  set (nb := length (heap s)) in *. set (cap := grown (size_ vec)) in *.
  assert (c = replicate cap None) as ->.
  { rewrite Hh1 in Hc1. unfold nb in Hc1. rewrite lookup_block_app_new in Hc1. congruence. }
  assert (length (take pos xs) = pos) as Hlt by (rewrite length_take; lia).
  assert (length (drop pos xs) = size_ vec - pos) as Hld by (rewrite length_drop; lia).
  assert (<[pos:=Some v]> (replicate cap None)
          = [] ++ replicate (length (take pos xs)) None
               ++ Some v :: replicate (length (drop pos xs)) None
               ++ replicate (cap - length xs - 1) None) as Hshape.
  { rewrite Hlt, Hld. simpl.
    replace cap with (pos + S ((size_ vec - pos) + (cap - length xs - 1))) at 1 by lia.
    rewrite replicate_add. simpl. rewrite insert_middle by (by rewrite length_replicate).
    by rewrite replicate_add. }
  rewrite Hshape in Hc2. clear Hshape.
  destruct (represents_storage _ _ _ _ Hrep) as [(Hbuf & -> & Hcap0)|(ob & Hbuf & Hob & Hblk)].
  - (* no storage yet *)
    simpl in Hpos, Hsz. assert (pos = 0) as -> by lia.
    rewrite Hsz in Hreloc2, Hdestroy. simpl in Hreloc1, Hreloc2, Hdestroy.
    apply ret_Ok in Hreloc1 as [_ <-]. apply ret_Ok in Hreloc2 as [_ <-].
    apply ret_Ok in Hdestroy as [_ <-].
    unfold RawMemory.dtor in Hdtor. rewrite Hbuf in Hdtor. simpl in Hdtor.
    apply ret_Ok in Hdtor as [_ <-].
    split; [|split].
    + rewrite Hv8. destruct Hf2 as (-> & _). by rewrite Hv1.
    + rewrite Hh8, Hc2. done.
    + rewrite Hh8. destruct Hf2 as (_ & -> & _). rewrite Hh1, length_app. simpl. lia.
  - rewrite Hbuf in *.
    assert (ob ≠ nb) as Hne by lia.
    assert (lookup_block (heap s2) ob
            = Some ([] ++ (Some <$> take pos xs)
                       ++ (Some <$> drop pos xs)
                       ++ replicate (capacity_ (data_ vec) - length xs) None)) as Hs2.
    { erewrite only_blocks_lookup; [|done|set_solver].
      rewrite Hh1, lookup_block_app_l by done. rewrite Hblk. simpl.
      by rewrite app_assoc, <- fmap_app, take_drop. }
    rewrite <- Hlt in Hreloc1 at 1.
    apply (relocate_Ok _ _ _ 0 0 _ 0 _ _ _ _ _ _ _ Hne Hs2 eq_refl Hc2 eq_refl) in Hreloc1
      as (Hd4 & Hs4 & Hf4 & _).
    rewrite <- Hld in Hreloc2. simpl in Hd4, Hs4.
    rewrite cons_middle, app_assoc in Hd4.
    assert (length (Some <$> (after relocation_kind <$> take pos xs)) = pos + 0) as Hl1
      by (rewrite !length_fmap; lia).
    assert (length ((Some <$> take pos xs) ++ [Some v]) = pos + 1 + 0) as Hl2
      by (rewrite length_app, length_fmap; simpl; lia).
    pose proof (relocate_Ok _ _ _ _ _ _ _ _ _ _ _ _ _ _ Hne Hs4 Hl1 Hd4 Hl2 Hreloc2)
      as (Hd5 & Hs5 & Hf5 & _).
    rewrite app_assoc, <- !fmap_app, take_drop in Hs5.
    rewrite Hsz, <- (length_fmap (after relocation_kind) xs) in Hdestroy.
    apply (destroy_n_Ok _ _ [] _ _ _ _ Hs5) in Hdestroy as (Hs6 & Hf6 & _).
    unfold RawMemory.dtor in Hdtor. simpl in Hdtor.
    apply Deallocate_Ok in Hdtor as (Hh9 & Hv9 & Ht9).
    assert (only_blocks [ob; nb] s1 s6) as Hf.
    { eapply only_blocks_trans; [eapply only_blocks_mono; [|exact Hf2]; set_solver|].
      eapply only_blocks_trans; [exact Hf4|].
      eapply only_blocks_trans; [exact Hf5|].
      eapply only_blocks_mono; [|exact Hf6]. set_solver. }
    destruct Hf as (Hfv & Hfl & _).
    split; [|split].
    + by rewrite Hv9, Hv8, Hfv, Hv1.
    + rewrite Hh9, lookup_block_insert_ne by done. rewrite Hh8.
      erewrite only_blocks_lookup; [|done|set_solver]. rewrite Hd5.
      f_equal. rewrite fmap_app, fmap_cons, <- !app_assoc. done.
    + rewrite Hh9, length_insert, Hh8, Hfl, Hh1, length_app. simpl. lia.
Qed.

Lemma construct_from_if (dst src : ptr) :
  (if is_nothrow_move_constructible || negb is_copy_constructible
   then construct_from ByMove dst src
   else construct_from ByCopy dst src)
  = construct_from relocation_kind dst src.
Proof. unfold relocation_kind. by destruct (_ || _). Qed.

Lemma ptr_sub_Ok (p : ptr) n s q s' :
  ptr_sub p n s = Ok q s' → n ≤ off p ∧ q = Ptr (base p) (off p - n) ∧ s' = s.
Proof.
  unfold ptr_sub. destruct (Nat.leb_spec n (off p)); [|done].
  by intros [<- <-]%ret_Ok.
Qed.

Lemma ptr_diff_Ok (p q : ptr) s n s' :
  ptr_diff p q s = Ok n s' → off q ≤ off p ∧ n = off p - off q ∧ s' = s.
Proof.
  unfold ptr_diff. destruct (_ && _) eqn:Hc; [|done].
  apply andb_true_iff in Hc as [_ Hle%Nat.leb_le].
  by intros [<- <-]%ret_Ok.
Qed.

Lemma RawMemory_index_Ok (m : RawMemory) i s p s' :
  RawMemory.index m i s = Ok p s' → i < capacity_ m ∧ p = Ptr (buffer_ m) i ∧ s' = s.
Proof.
  unfold RawMemory.index.
  intros (? & s1 & [Hc ->]%assert_Ok & [<- <-]%ret_Ok)%bind_Ok.
  apply Nat.ltb_lt in Hc. done.
Qed.

Lemma construct_temp_Ok s u s' :
  construct_temp s = Ok u s' → heap s' = heap s ∧ vecs s' = vecs s.
Proof.
  unfold construct_temp.
  intros (? & s1 & (Hh & Hv & _)%tick_Ok & (Hh2 & Hv2 & _)%emit_Ok)%bind_Ok.
  split; congruence.
Qed.

Lemma destroy_temp_Ok s u s' :
  destroy_temp s = Ok u s' → heap s' = heap s ∧ vecs s' = vecs s.
Proof. by intros (Hh2 & Hv2 & _)%emit_Ok. Qed.

Lemma snoc_exists {A} (l : list A) : l ≠ [] → ∃ l' x, l = l' ++ [x].
Proof. destruct l as [|x l _] using rev_ind; [done | eauto]. Qed.

Lemma EmplaceInCurrentAlloc_Ok this pos v s vec (xs : list T) u s' :
  represents s this vec xs →
  size_ vec < capacity_ (data_ vec) →
  pos ≤ length xs →
  Vector.EmplaceInCurrentAlloc this pos v s = Ok u s' →
  ∃ b, buffer_ (data_ vec) = Some b ∧
       vecs s' = vecs s ∧
       lookup_block (heap s') b
         = Some ((Some <$> (take pos xs ++ v :: drop pos xs))
                 ++ replicate (capacity_ (data_ vec) - length xs - 1) None) ∧
       length (heap s') = length (heap s).
Proof.
  intros Hrep Hcap Hpos Hr. pose proof Hrep as (Hv & Hsz & Hle & Hc).
  destruct (represents_storage _ _ _ _ Hrep) as [(_ & _ & Hcap0)|(b & Hbuf & Hb & Hblk)];
    [lia|].
  exists b. split; [done|].
  set (R := replicate (capacity_ (data_ vec) - length xs - 1) (@None T)).
  assert (replicate (capacity_ (data_ vec) - length xs) (@None T) = None :: R) as HR.
  { unfold R. destruct (capacity_ (data_ vec) - length xs) as [|n] eqn:E; [lia|].
    simpl. by rewrite Nat.sub_0_r. }
  rewrite HR in Hblk.
  unfold Vector.EmplaceInCurrentAlloc in Hr.
  apply bind_Ok in Hr as (vec0 & s0 & [-> Hv0]%get_vec_Ok & Hr).
  assert (vec0 = vec) as -> by congruence.
  destruct (Nat.ltb_spec pos (size_ vec)) as [Hlt|Hge].
  - (* the tail moves one slot to the right *)
    apply bind_Ok in Hr as (? & s1 & (Hh1 & Hv1)%construct_temp_Ok & Hr).
    apply bind_Ok in Hr as (? & s8 & Hbody%on_unwind_Ok & (Hh9 & Hv9)%destroy_temp_Ok).
    apply bind_Ok in Hbody as (past & ? & (_ & -> & ->)%RawMemory_plus_Ok & Hbody).
    apply bind_Ok in Hbody as (last & ? & (_ & -> & ->)%ptr_sub_Ok & Hbody).
    rewrite construct_from_if in Hbody. simpl in Hbody. rewrite Hbuf in Hbody.
    apply bind_Ok in Hbody as (? & s2 & Hlast & Hbody).
    apply bind_Ok in Hbody as (first & ? & (vec1 & Hv2 & -> & ->)%begin_Ok & Hbody).
    apply bind_Ok in Hbody as (e & ? & (vec2 & Hv2' & -> & ->)%end_Ok & Hbody).
    apply bind_Ok in Hbody as (e1 & ? & (_ & -> & ->)%ptr_sub_Ok & Hbody).
    apply bind_Ok in Hbody as (? & s3 & Hshift & Hbody).
    apply bind_Ok in Hbody as (slot & ? & (_ & -> & ->)%RawMemory_index_Ok & Hassign).
    apply construct_from_same_Ok in Hlast as (c & y & Hc1 & Hy & _ & Hc2 & Hf2 & _); [|lia].
    assert (vec1 = vec) as -> by (destruct Hf2 as (Hfv & _); congruence).
    assert (vec2 = vec) as -> by (destruct Hf2 as (Hfv & _); congruence).
    rewrite Hbuf in *. simpl in Hshift.
    destruct (snoc_exists (drop pos xs)) as (zs & l & Hdrop).
    { intros Hnil%(f_equal length). rewrite length_drop in Hnil. simpl in Hnil. lia. }
    assert (length (take pos xs) = pos) as Hltake by (rewrite length_take; lia).
    assert (length zs = size_ vec - 1 - pos) as Hlzs.
    { apply (f_equal length) in Hdrop. rewrite length_drop, length_app in Hdrop.
      simpl in Hdrop. lia. }
    set (P := Some <$> take pos xs) in *. set (Z := Some <$> zs) in *.
    assert (length P = pos) as HlP by (unfold P; by rewrite length_fmap).
    assert (length Z = size_ vec - 1 - pos) as HlZ by (unfold Z; by rewrite length_fmap).
    assert (c = (P ++ Z) ++ Some l :: None :: R) as ->.
    { rewrite Hh1 in Hc1. rewrite Hblk in Hc1. injection Hc1 as <-.
      rewrite <- (take_drop pos xs) at 1. rewrite Hdrop, !fmap_app.
      fold P. fold Z. by rewrite <- !app_assoc. }
    rewrite list_lookup_middle in Hy by (rewrite length_app; lia). injection Hy as <-.
    rewrite (cons_middle (Some l)), app_assoc in Hc2.
    rewrite insert_middle in Hc2 by (rewrite !length_app; simpl; lia).
    rewrite <- app_assoc in Hc2. simpl in Hc2.
    rewrite insert_middle in Hc2 by (rewrite length_app; lia).
    rewrite <- app_assoc in Hc2.
    unfold std.move_backward in Hshift.
    apply bind_Ok in Hshift as (n & ? & (_ & -> & ->)%ptr_diff_Ok & Hshift).
    apply bind_Ok in Hshift as (d_first & ? & (_ & -> & ->)%ptr_sub_Ok & Hshift).
    unfold ptr_add in Hshift; simpl in Hshift.
    replace (size_ vec - 1 - pos) with (length zs) in Hshift by lia.
    replace (size_ vec - length zs) with (length P + 1) in Hshift by lia.
    rewrite <- HlP in Hshift at 1.
    apply (move_assign_backward_Ok _ _ _ _ _ _ _ _ Hc2) in Hshift as (Hc3 & Hf3 & _).
    apply assign_from_temp_Ok in Hassign as (c' & z & Hc4 & _ & Hc5 & Hf5 & _).
    rewrite Hc3 in Hc4. injection Hc4 as <-.
    rewrite insert_middle in Hc5 by done.
    pose proof (only_blocks_trans _ _ _ _ Hf2 (only_blocks_trans _ _ _ _ Hf3 Hf5))
      as (Hfv & Hfl & _).
    split; [congruence|]. split; [|congruence].
    rewrite Hh9, Hc5. f_equal. rewrite Hdrop, !fmap_app, fmap_cons, fmap_app.
    fold P. fold Z. rewrite <- !app_assoc. simpl. by rewrite <- !app_assoc.
  - (* construction in the next free slot *)
    assert (pos = length xs) as -> by lia.
    apply bind_Ok in Hr as (past & ? & (_ & -> & ->)%RawMemory_plus_Ok & Hnew).
    rewrite Hbuf in Hnew.
    apply construct_at_Ok in Hnew as (c & Hc1 & _ & Hc2 & (Hfv & Hfl & _) & _).
    rewrite Hblk in Hc1. injection Hc1 as <-.
    rewrite Hsz in Hc2. rewrite insert_middle in Hc2 by (by rewrite length_fmap).
    split; [done|]. split; [|done].
    rewrite Hc2, firstn_all, drop_all, fmap_app, <- app_assoc. done.
Qed.

Lemma load_live b i s c v :
  lookup_block (heap s) b = Some c → c !! i = Some (Some v) →
  load (Ptr (Some b) i) s = Ok v s.
Proof.
  intros Hc Hi. unfold load, bind, read_cell; simpl.
  by rewrite (cell_block _ _ _ _ Hc), Hi.
Qed.

Lemma ptr_eqb_same_base (buf : option nat) i j :
  ptr_eqb (Ptr buf i) (Ptr buf j) = (i =? j).
Proof. unfold ptr_eqb; simpl. destruct buf; [|done]. by rewrite Nat.eqb_refl. Qed.

Lemma inserted_lookup (xs : list T) pos v (R : list (option T)) :
  pos ≤ length xs →
  ((Some <$> (take pos xs ++ v :: drop pos xs)) ++ R) !! pos = Some (Some v).
Proof.
  intros Hpos. rewrite fmap_app, fmap_cons, <- app_assoc.
  apply list_lookup_middle. rewrite length_fmap, length_take. lia.
Qed.

Lemma inserted_length (xs : list T) pos v :
  length (take pos xs ++ v :: drop pos xs) = length xs + 1.
Proof.
  rewrite length_app. simpl. rewrite length_take, length_drop. lia.
Qed.

Lemma Emplace_Ok this pos v s vec (xs : list T) p s' :
  represents s this vec xs →
  pos ≤ length xs →
  Vector.Emplace this (Ptr (buffer_ (data_ vec)) pos) v s = Ok p s' →
  ∃ vec', represents s' this vec' (take pos xs ++ v :: drop pos xs) ∧
          size_ vec' = size_ vec + 1 ∧
          p = Ptr (buffer_ (data_ vec')) pos ∧
          load p s' = Ok v s' ∧
          (size_ vec < capacity_ (data_ vec) → data_ vec' = data_ vec) ∧
          (size_ vec = capacity_ (data_ vec) →
           capacity_ (data_ vec') = grown (size_ vec)).
Proof.
  intros Hrep Hpos Hr. pose proof Hrep as (Hv & Hsz & Hle & Hc).
  unfold Vector.Emplace in Hr.
  apply bind_Ok in Hr as (vec0 & ? & [-> Hv0]%get_vec_Ok & Hr).
  assert (vec0 = vec) as -> by congruence.
  apply bind_Ok in Hr as (past & ? & (_ & -> & ->)%RawMemory_plus_Ok & Hr).
  apply bind_Ok in Hr as (pos_index & s0 & Hidx & Hr).
  assert (pos_index = pos ∧ s0 = s) as [-> ->].
  { rewrite ptr_eqb_same_base in Hidx. destruct (Nat.eqb_spec pos (size_ vec)) as [->|_].
    - by apply ret_Ok in Hidx as [<- <-].
    - apply bind_Ok in Hidx as (first & ? & (vec1 & Hv1 & -> & ->)%begin_Ok & Hidx).
      apply ptr_diff_Ok in Hidx as (_ & -> & ->). simpl. split; [lia | done]. }
  apply bind_Ok in Hr as (? & s1 & Hplace & Hr).
  apply bind_Ok in Hr as (vec1 & ? & [-> Hv1]%get_vec_Ok & Hr).
  apply bind_Ok in Hr as (? & s2 & (Hh2 & Hv2 & _ & Hthis)%put_vec_Ok & [<- <-]%ret_Ok).
  pose proof (inserted_length xs pos v) as Hlen.
  exists {| data_ := data_ vec1; size_ := size_ vec1 + 1 |}.
  unfold RawMemory.Capacity in Hplace.
  destruct (Nat.eqb_spec (size_ vec) (capacity_ (data_ vec))) as [Hfull|Hroom].
  - apply (EmplaceInNewAlloc_Ok _ _ _ _ _ _ _ _ Hrep Hpos) in Hplace as (Hvs & Hblk & Hl).
    assert (vec1 = {| data_ := {| buffer_ := Some (length (heap s));
                                  capacity_ := grown (size_ vec) |};
                      size_ := size_ vec |}) as ->.
    { rewrite Hvs in Hv1. rewrite list_lookup_insert_eq in Hv1 by (by eapply lookup_lt_Some).
      congruence. }
    pose proof (grown_gt (size_ vec)). simpl in *.
    split; [|split; [done|split; [done|split; [|split; [lia|done]]]]].
    + repeat split; simpl; [done | lia | lia |].
      unfold cells_of; simpl. rewrite Hh2, Hblk. do 3 f_equal. lia.
    + rewrite <- Hh2 in Hblk. eapply load_live; [done|]. by apply inserted_lookup.
  - apply (EmplaceInCurrentAlloc_Ok _ _ _ _ _ _ _ _ Hrep) in Hplace
      as (b & Hbuf & Hvs & Hblk & Hl); [|lia|done].
    assert (vec1 = vec) as -> by congruence.
    simpl. split; [|split; [done|split; [done|split; [|split; [done|lia]]]]].
    + repeat split; simpl; [done | lia | lia |].
      unfold cells_of. rewrite Hbuf, Hh2, Hblk. do 3 f_equal. lia.
    + unfold RawMemory.GetAddress, ptr_add; simpl. rewrite Hbuf.
      rewrite <- Hh2 in Hblk. eapply load_live; [done|].
      by apply inserted_lookup.
Qed.

Lemma cbegin_Ok this s p s' :
  Vector.cbegin this s = Ok p s' →
  ∃ vec, vecs s !! this = Some vec ∧ p = Ptr (buffer_ (data_ vec)) 0 ∧ s' = s.
Proof.
  unfold Vector.cbegin.
  intros (vec & s1 & [-> Hv]%get_vec_Ok & [<- <-]%ret_Ok)%bind_Ok. eauto.
Qed.

Lemma Erase_Ok this pos s vec (xs : list T) p s' :
  represents s this vec xs →
  pos < length xs →
  Vector.Erase this (Ptr (buffer_ (data_ vec)) pos) s = Ok p s' →
  ∃ b, buffer_ (data_ vec) = Some b ∧
       represents s' this {| data_ := data_ vec; size_ := size_ vec - 1 |}
                  (take pos xs ++ drop (S pos) xs) ∧
       p = Ptr (Some b) pos ∧
       trace s' = trace s ++ Erase_events b pos (size_ vec).
Proof.
  intros Hrep Hpos Hr. pose proof Hrep as (Hv & Hsz & Hle & Hc).
  destruct (represents_storage _ _ _ _ Hrep) as [(_ & -> & _)|(b & Hbuf & Hb & Hblk)];
    [simpl in Hpos; lia|].
  exists b. split; [done|].
  unfold Vector.Erase in Hr.
  apply bind_Ok in Hr as (vec0 & ? & [-> Hv0]%get_vec_Ok & Hr).
  assert (vec0 = vec) as -> by congruence.
  apply bind_Ok in Hr as (cfirst & ? & (vec1 & Hv1 & -> & ->)%cbegin_Ok & Hr).
  apply bind_Ok in Hr as (pos_index & ? & (_ & -> & ->)%ptr_diff_Ok & Hr).
  apply bind_Ok in Hr as (first & ? & (vec2 & Hv2 & -> & ->)%begin_Ok & Hr).
  assert (vec1 = vec) as -> by congruence. assert (vec2 = vec) as -> by congruence.
  simpl in Hr. rewrite Nat.sub_0_r, Hbuf in Hr. unfold ptr_add in Hr; simpl in Hr.
  apply bind_Ok in Hr as (? & s1 & Hshift & Hr).
  apply bind_Ok in Hr as (past & ? & (_ & -> & ->)%RawMemory_plus_Ok & Hr).
  apply bind_Ok in Hr as (last & ? & (_ & -> & ->)%ptr_sub_Ok & Hr).
  apply bind_Ok in Hr as (? & s2 & Hdestroy & Hr).
  apply bind_Ok in Hr as (? & s3 & (Hh3 & Hv3 & Ht3 & Hthis)%put_vec_Ok & Hr).
  apply bind_Ok in Hr as (first & ? & (vec3 & Hv4 & -> & ->)%begin_Ok & [<- <-]%ret_Ok).
  assert (vec3 = {| data_ := data_ vec; size_ := size_ vec - 1 |}) as -> by congruence.
  simpl in *. rewrite Hbuf in *. simpl in Hdestroy.
  destruct (lookup_lt_is_Some_2 xs pos Hpos) as [d Hd].
  pose proof (take_drop_middle _ _ _ Hd) as Hxs.
  set (ys := drop (S pos) xs) in *. set (P := Some <$> take pos xs).
  set (R := replicate (capacity_ (data_ vec) - length xs) (@None T)) in *.
  assert (length P = pos) as HlP by (unfold P; rewrite length_fmap, length_take; lia).
  assert (length ys = size_ vec - 1 - pos) as Hlys by (unfold ys; rewrite length_drop; lia).
  assert (lookup_block (heap s) b = Some (P ++ Some d :: (Some <$> ys) ++ R)) as Hblk0.
  { rewrite Hblk. f_equal. rewrite <- Hxs at 1. rewrite fmap_app, fmap_cons.
    fold P. by rewrite <- app_assoc. }
  assert (lookup_block (heap s1) b = Some (P ++ (Some <$> ys) ++ Some (residue d ys) :: R) ∧
          only_blocks [b] s s1 ∧
          trace s1 = trace s ++
            ((λ i, EvAssign MoveAssign (Slot b i) (Slot b (i + 1)))
               <$> seq pos (size_ vec - 1 - pos))) as (Hblk1 & Hf1 & Ht1).
  { destruct (Nat.ltb_spec pos (size_ vec - 1)) as [Hlt|Hge].
    - apply bind_Ok in Hshift as (e & ? & (vec4 & Hv5 & -> & ->)%end_Ok & Hshift).
      assert (vec4 = vec) as -> by congruence. rewrite Hbuf in Hshift.
      unfold std.move in Hshift.
      apply bind_Ok in Hshift as (n & ? & (_ & -> & ->)%ptr_diff_Ok & Hshift).
      simpl in Hshift.
      replace (size_ vec - (pos + 1)) with (length ys) in Hshift by lia.
      rewrite <- HlP in Hshift.
      apply (assign_forward_Ok _ _ _ _ _ _ _ _ Hblk0) in Hshift as (? & ? & Ht).
      rewrite HlP, Hlys in Ht. done.
    - apply ret_Ok in Hshift as [_ <-].
      assert (ys = []) as Hnil by (apply nil_length_inv; lia).
      replace (size_ vec - 1 - pos) with 0 by lia. rewrite Hnil in *. simpl.
      rewrite app_nil_r. split; [done|]. split; [apply only_blocks_refl | done]. }
  apply destroy_at_Ok in Hdestroy as (c & z & Hc1 & _ & Hc2 & Hf2 & Ht2).
  rewrite Hblk1 in Hc1. injection Hc1 as <-.
  rewrite app_assoc in Hc2.
  rewrite insert_middle in Hc2 by (rewrite length_app, length_fmap; lia).
  pose proof (only_blocks_trans _ _ _ _ Hf1 Hf2) as (Hfv & Hfl & _).
  split; [|split; [done|]].
  - repeat split; simpl.
    + done.
    + rewrite length_app, length_take. fold ys. lia.
    + rewrite length_app, length_take. fold ys. lia.
    + unfold cells_of; simpl. rewrite Hbuf, Hh3, Hc2. f_equal.
      fold ys. rewrite fmap_app. fold P. f_equal.
      rewrite length_app, length_take.
      replace (capacity_ (data_ vec) - (pos `min` length xs + length ys))
        with (S (capacity_ (data_ vec) - length xs)) by lia.
      done.
  - rewrite Ht3, Ht2, Ht1. unfold Erase_events. by rewrite <- app_assoc.
Qed.

End methods_ok.

(** ** Properties of every outcome *)
Section respects.
Context {T : Type} `{Elt : Element T}.
Implicit Types (s : state T) (R : relation (state T)).

Local Abbreviation respects := (respects (T:=T)).
Local Abbreviation logs := (logs (T:=T)).
Local Abbreviation quiet := (quiet (T:=T)).


Lemma respects_ret R `{!Reflexive R} {A} (a : A) : respects R (ret a).
Proof. intros s. simpl. reflexivity. Qed.

Lemma respects_undefined R `{!Reflexive R} {A} w : respects R (@undefined T A w).
Proof. intros s. simpl. reflexivity. Qed.

Lemma respects_bind R `{!Transitive R} {A B} (m : M T A) (f : A → M T B) :
  respects R m → (∀ a, respects R (f a)) → respects R (bind m f).
Proof.
  intros Hm Hf s. unfold bind. specialize (Hm s).
  destruct (m s) as [a s1| s1 | w s1]; simpl in *; [|done..].
  etransitivity; [exact Hm | apply Hf].
Qed.

Lemma respects_on_unwind R `{!Transitive R} {A} (m : M T A) (cleanup : M T unit) :
  respects R m → respects R cleanup → respects R (on_unwind m cleanup).
Proof.
  intros Hm Hc s. unfold on_unwind. specialize (Hm s).
  destruct (m s) as [a s1| s1 | w s1]; simpl in *; [done | | done].
  specialize (Hc s1). destruct (cleanup s1); simpl in *; by etransitivity.
Qed.


Global Instance logs_refl P : Reflexive (logs P).
Proof. intros s. exists []. by rewrite app_nil_r. Qed.

Global Instance logs_trans P : Transitive (logs P).
Proof.
  intros s1 s2 s3 (l1 & Ht1 & Hl1) (l2 & Ht2 & Hl2). exists (l1 ++ l2).
  split; [by rewrite Ht2, Ht1, app_assoc | by apply Forall_app].
Qed.

Global Instance quiet_refl P : Reflexive (quiet P).
Proof. intros s. split; [done | reflexivity]. Qed.

Global Instance quiet_trans P : Transitive (quiet P).
Proof.
  intros s1 s2 s3 (Hv1 & Hl1) (Hv2 & Hl2). split; [congruence | by etransitivity].
Qed.


Lemma quiet_silent P s s' :
  vecs s' = vecs s → trace s' = trace s → quiet P s s'.
Proof. intros Hv Ht. split; [done|]. exists []. by rewrite app_nil_r. Qed.

Section quiet_steps.
Variable P : event → Prop.

Lemma quiet_tick : respects (quiet P) tick.
Proof.
  intros s. unfold tick. destruct (plan s) as [|[] rest]; simpl; by apply quiet_silent.
Qed.

Lemma quiet_may_throw b : respects (quiet P) (may_throw b).
Proof. destruct b; [apply quiet_tick | apply respects_ret, _]. Qed.

Lemma quiet_emit e : P e → respects (quiet P) (emit e).
Proof. intros He s. simpl. split; [done|]. exists [e]. split; [done | by constructor]. Qed.


Lemma quiet_read_cell p : respects (quiet P) (read_cell p).
Proof.
  intros s. unfold read_cell. destruct (base p); [|reflexivity].
  destruct (cell _ _ _); reflexivity.
Qed.

Lemma quiet_write_cell p x : respects (quiet P) (write_cell p x).
Proof.
  intros s. unfold write_cell. destruct (base p); [|reflexivity].
  by apply quiet_silent.
Qed.

Lemma quiet_load p : respects (quiet P) (load p).
Proof.
  apply respects_bind; [apply _ | apply quiet_read_cell |].
  intros [v|]; [apply respects_ret, _ | apply respects_undefined, _].
Qed.

Lemma quiet_construct_at k p v :
  (∀ l, P (EvCtor k l)) → respects (quiet P) (construct_at k p v).
Proof.
  intros HP. apply respects_bind; [apply _ | apply quiet_read_cell |].
  intros [?|]; [apply respects_undefined, _|].
  apply respects_bind; [apply _ | apply quiet_may_throw |]. intros _.
  apply respects_bind; [apply _ | apply quiet_write_cell |]. intros _.
  by apply quiet_emit.
Qed.


Lemma quiet_assign k dst src :
  (∀ a b, P (EvAssign k a b)) → respects (quiet P) (assign k dst src).
Proof.
  intros HP. apply respects_bind; [apply _ | apply quiet_load |]. intros v.
  apply respects_bind; [apply _ | apply quiet_load |]. intros _.
  apply respects_bind; [apply _ | apply quiet_may_throw |]. intros _.
  apply respects_bind; [apply _ | apply quiet_write_cell |]. intros _.
  apply respects_bind; [apply _ | | intros _; by apply quiet_emit].
  destruct k; [apply respects_ret, _ | apply quiet_write_cell].
Qed.







Lemma quiet_destroy_at p : (∀ l, P (EvDtor l)) → respects (quiet P) (std.destroy_at p).
Proof.
  intros HP. apply respects_bind; [apply _ | apply quiet_read_cell |].
  intros [?|]; [|apply respects_undefined, _].
  apply respects_bind; [apply _ | apply quiet_write_cell |]. intros _.
  by apply quiet_emit.
Qed.

Lemma quiet_destroy_n n : ∀ p,
  (∀ l, P (EvDtor l)) → respects (quiet P) (std.destroy_n p n).
Proof.
  induction n as [|n IH]; intros p HP; simpl; [apply respects_ret, _|].
  apply respects_bind; [apply _ | by apply quiet_destroy_at |]. intros _. by apply IH.
Qed.


Lemma quiet_value_construct first n : ∀ cnt,
  (∀ l, P (EvCtor ByDefault l)) → (∀ l, P (EvDtor l)) →
  respects (quiet P) (std.uninitialized_value_construct_from first n cnt).
Proof.
  induction n as [|n IH]; intros cnt HP HD; simpl; [apply respects_ret, _|].
  apply respects_bind; [apply _ | | intros _; by apply IH].
  apply respects_on_unwind; [apply _ | by apply quiet_construct_at |].
  by apply quiet_destroy_n.
Qed.

Lemma quiet_assign_forward k n : ∀ first d_first,
  (∀ a b, P (EvAssign k a b)) →
  respects (quiet P) (std.assign_forward k first n d_first).
Proof.
  induction n as [|n IH]; intros first d_first HP; simpl; [apply respects_ret, _|].
  apply respects_bind; [apply _ | by apply quiet_assign |]. intros _. by apply IH.
Qed.









Lemma quiet_Deallocate buf : (∀ b, P (EvFree b)) → respects (quiet P) (RawMemory.Deallocate buf).
Proof.
  intros HP. destruct buf as [b|]; [|apply respects_ret, _]. intros s. simpl.
  destruct (lookup_block _ _); simpl; [|reflexivity].
  split; [done|]. eexists [_]. split; [done | by constructor].
Qed.

End quiet_steps.
End respects.

(** ** Relocation rule and insertion in place, for every outcome *)
Section every_outcome.
Context {T : Type} `{Elt : Element T}.
Implicit Types (s : state T).


Lemma relocation_kind_move :
  relocation_kind = ByMove ↔
  is_nothrow_move_constructible = true ∨ is_copy_constructible = false.
Proof.
  unfold relocation_kind.
  destruct is_nothrow_move_constructible, is_copy_constructible; simpl;
    split; try done; try (by intros [?|?]); try (by intros _; left); by intros _; right.
Qed.

Lemma relocation_kind_copy :
  relocation_kind = ByCopy ↔
  is_nothrow_move_constructible = false ∧ is_copy_constructible = true.
Proof.
  unfold relocation_kind.
  destruct is_nothrow_move_constructible, is_copy_constructible; simpl;
    split; try done; by intros [? ?].
Qed.










Lemma begin_eval this s vec :
  vecs s !! this = Some vec →
  Vector.begin this s = Ok (RawMemory.GetAddress (data_ vec)) s.
Proof. intros Hv. unfold Vector.begin, bind, get_vec. by rewrite Hv. Qed.

Lemma end_eval this s vec :
  vecs s !! this = Some vec →
  Vector.end_ this s = Ok (RawMemory.GetAddress (data_ vec) +: size_ vec) s.
Proof. intros Hv. unfold Vector.end_, bind, get_vec. by rewrite Hv. Qed.



Lemma respects_Ok R {A} (m : M T A) s a s' : respects R m → m s = Ok a s' → R s s'.
Proof. intros Hm Hr. specialize (Hm s). by rewrite Hr in Hm. Qed.

Lemma Reserve_capacity this k s u s' :
  Vector.Reserve this k s = Ok u s' →
  ∃ vec', vecs s' !! this = Some vec' ∧ k ≤ capacity_ (data_ vec').
Proof.
  unfold Vector.Reserve.
  intros (vec & ? & [-> Hv]%get_vec_Ok & Hr)%bind_Ok.
  unfold RawMemory.Capacity in Hr.
  destruct (Nat.leb_spec k (capacity_ (data_ vec))) as [Hle|Hgt].
  - apply ret_Ok in Hr as [_ <-]. eauto.
  - apply bind_Ok in Hr as (new_data & s1 & Hctor & Hr).
    apply RawMemory_ctor_Ok in Hctor as (-> & _); [|lia].
    apply bind_Ok in Hr as (old_data & s5 & Hbody%on_unwind_Ok & Hdtor).
    apply bind_Ok in Hbody as (? & s2 & _ & Hbody).
    apply bind_Ok in Hbody as (? & s3 & _ & Hbody).
    simpl in Hbody.
    apply bind_Ok in Hbody as (? & s4 & (_ & _ & _ & Hthis)%put_vec_Ok & [<- <-]%ret_Ok).
    assert (quiet (λ _, True) s4 s') as [Hvs _].
    { eapply respects_Ok; [|exact Hdtor]. by apply quiet_Deallocate. }
    eexists. rewrite Hvs. split; [done|]. simpl. lia.
Qed.

End every_outcome.

(** ** When a call leaves by an exception *)
Section failure.
Context {T : Type} `{Elt : Element T}.
Implicit Types (s : state T) (R : relation (state T)).

Local Abbreviation no_throw := (no_throw (T:=T)).
Local Abbreviation throws_in := (throws_in (T:=T)).
Local Abbreviation respects := (respects (T:=T)).

Lemma bind_Throw {A B} (m : M T A) (f : A → M T B) s s' :
  bind m f s = Throw s' ↔
  m s = Throw s' ∨ ∃ a s1, m s = Ok a s1 ∧ f a s1 = Throw s'.
Proof.
  unfold bind. destruct (m s) as [a s1|s1|w s1]; split.
  - intros ?. right. by exists a, s1.
  - by intros [?|(? & ? & [= <- <-] & ?)].
  - intros [= ->]. by left.
  - by intros [[= ->]|(? & ? & ? & ?)].
  - done.
  - by intros [?|(? & ? & ? & ?)].
Qed.

Lemma on_unwind_Throw {A} (m : M T A) (cleanup : M T unit) s s' :
  on_unwind m cleanup s = Throw s' →
  ∃ s1 u, m s = Throw s1 ∧ cleanup s1 = Ok u s'.
Proof.
  unfold on_unwind. destruct (m s) as [a s1|s1|w s1]; [done| |done].
  destruct (cleanup s1) as [u s2|s2|w s2] eqn:Hc; [|done..].
  intros [= <-]. eauto.
Qed.

Lemma no_throw_ret {A} (a : A) : no_throw (ret a : M T A).
Proof. done. Qed.

Lemma no_throw_undefined {A} w : no_throw (undefined w : M T A).
Proof. done. Qed.

Lemma no_throw_bind {A B} (m : M T A) (f : A → M T B) :
  no_throw m → (∀ a, no_throw (f a)) → no_throw (bind m f).
Proof.
  intros Hm Hf s s' [?|(a & s1 & _ & ?)]%bind_Throw; [by eapply Hm | by eapply Hf].
Qed.

Lemma no_throw_on_unwind {A} (m : M T A) cleanup : no_throw m → no_throw (on_unwind m cleanup).
Proof. intros Hm s s' (s1 & u & ? & _)%on_unwind_Throw. by eapply Hm. Qed.

Lemma no_throw_if {A} (c : bool) (m1 m2 : M T A) :
  no_throw m1 → no_throw m2 → no_throw (if c then m1 else m2).
Proof. by destruct c. Qed.

Lemma no_throw_assert c : no_throw (assert c : M T unit).
Proof. destruct c; [apply no_throw_ret | apply no_throw_undefined]. Qed.

Lemma no_throw_emit e : no_throw (emit e : M T unit).
Proof. done. Qed.

Lemma no_throw_read_cell p : no_throw (read_cell p : M T (option T)).
Proof.
  intros s s'. unfold read_cell. destruct (base p); [|done]. by destruct (cell _ _ _).
Qed.

Lemma no_throw_write_cell p x : no_throw (write_cell p x).
Proof. intros s s'. unfold write_cell. by destruct (base p). Qed.

Lemma no_throw_load p : no_throw (load p : M T T).
Proof.
  apply no_throw_bind; [apply no_throw_read_cell|].
  intros [?|]; [apply no_throw_ret | apply no_throw_undefined].
Qed.

Lemma no_throw_get_vec this : no_throw (get_vec this : M T Vector).
Proof. intros s s'. unfold get_vec. by destruct (vecs s !! this). Qed.

Lemma no_throw_put_vec this vec : no_throw (put_vec this vec : M T unit).
Proof. intros s s'. unfold put_vec. by destruct (vecs s !! this). Qed.

Lemma no_throw_ptr_diff p q : no_throw (ptr_diff p q : M T nat).
Proof.
  unfold ptr_diff. destruct (_ && _); [apply no_throw_ret | apply no_throw_undefined].
Qed.

Lemma no_throw_plus m n : no_throw (RawMemory.plus m n : M T ptr).
Proof. apply no_throw_bind; [apply no_throw_assert|]. intros _. apply no_throw_ret. Qed.

Lemma no_throw_begin this : no_throw (Vector.begin this : M T ptr).
Proof. apply no_throw_bind; [apply no_throw_get_vec|]. intros vec. apply no_throw_ret. Qed.

Lemma no_throw_destroy_at p : no_throw (std.destroy_at p : M T unit).
Proof.
  apply no_throw_bind; [apply no_throw_read_cell|].
  intros [?|]; [|apply no_throw_undefined].
  apply no_throw_bind; [apply no_throw_write_cell|]. intros _. apply no_throw_emit.
Qed.

Lemma no_throw_destroy_n n : ∀ p, no_throw (std.destroy_n p n : M T unit).
Proof.
  induction n as [|n IH]; intros p; simpl; [apply no_throw_ret|].
  apply no_throw_bind; [apply no_throw_destroy_at|]. intros _. apply IH.
Qed.

Lemma no_throw_Deallocate buf : no_throw (RawMemory.Deallocate buf : M T unit).
Proof.
  destruct buf as [b|]; [|apply no_throw_ret]. intros s s'. simpl.
  by destruct (lookup_block _ _).
Qed.

(** A [noexcept] move constructor. *)
Lemma no_throw_move_construct (dst src : ptr) :
  is_nothrow_move_constructible = true → no_throw (construct_from ByMove dst src).
Proof.
  intros Hn. apply no_throw_bind; [apply no_throw_load|]. intros v.
  apply no_throw_bind; [|intros _; apply no_throw_write_cell].
  apply no_throw_bind; [apply no_throw_read_cell|].
  intros [?|]; [apply no_throw_undefined|].
  apply no_throw_bind.
  { unfold ctor_may_throw. rewrite Hn. simpl. apply no_throw_ret. }
  intros _. apply no_throw_bind; [apply no_throw_write_cell|]. intros _.
  apply no_throw_emit.
Qed.

Lemma no_throw_move_n first n d_first : ∀ cnt,
  is_nothrow_move_constructible = true →
  no_throw (std.uninitialized_relocate_n ByMove first n d_first cnt).
Proof.
  induction n as [|n IH]; intros cnt Hn; simpl; [apply no_throw_ret|].
  apply no_throw_bind; [|intros _; by apply IH].
  by apply no_throw_on_unwind, no_throw_move_construct.
Qed.

Lemma throws_in_no_throw R {A} (m : M T A) : no_throw m → throws_in R m.
Proof. intros Hm s s' Hr. by destruct (Hm s s'). Qed.

Lemma throws_in_respects R {A} (m : M T A) : respects R m → throws_in R m.
Proof. intros Hm s s' Hr. specialize (Hm s). by rewrite Hr in Hm. Qed.

Lemma throws_in_bind R `{!Transitive R} {A B} (m : M T A) (f : A → M T B) :
  respects R m → (∀ a, throws_in R (f a)) → throws_in R (bind m f).
Proof.
  intros Hm Hf s s' [Hr|(a & s1 & Hr & Hr')]%bind_Throw.
  - by eapply throws_in_respects.
  - etransitivity; [by eapply respects_Ok | by eapply Hf].
Qed.

(** *** Steps that stay inside given blocks *)
Global Instance only_blocks_reflexive bs : Reflexive (only_blocks (T:=T) bs).
Proof. intros s. apply only_blocks_refl. Qed.

Global Instance only_blocks_transitive bs : Transitive (only_blocks (T:=T) bs).
Proof. intros s1 s2 s3. apply only_blocks_trans. Qed.

Lemma only_blocks_same bs s s' : heap s' = heap s → vecs s' = vecs s → only_blocks bs s s'.
Proof. intros Hh Hv. repeat split; [done | by rewrite Hh | by rewrite Hh]. Qed.

Section inside.
Variable bs : list nat.

Lemma inside_tick : respects (only_blocks (T:=T) bs) tick.
Proof.
  intros s. unfold tick. destruct (plan s) as [|[] rest]; simpl; by apply only_blocks_same.
Qed.

Lemma inside_may_throw b : respects (only_blocks (T:=T) bs) (may_throw b).
Proof. destruct b; [apply inside_tick | apply respects_ret, _]. Qed.

Lemma inside_emit e : respects (only_blocks (T:=T) bs) (emit e).
Proof. intros s. by apply only_blocks_same. Qed.

Lemma inside_read_cell p : respects (only_blocks (T:=T) bs) (read_cell p).
Proof.
  intros s. unfold read_cell. destruct (base p); [|reflexivity].
  destruct (cell _ _ _); reflexivity.
Qed.

Lemma inside_load p : respects (only_blocks (T:=T) bs) (load p).
Proof.
  apply respects_bind; [apply _ | apply inside_read_cell |].
  intros [v|]; [apply respects_ret, _ | apply respects_undefined, _].
Qed.

Lemma inside_write_cell p x : points_into bs p → respects (only_blocks (T:=T) bs) (write_cell p x).
Proof.
  unfold points_into. intros Hp s. unfold write_cell.
  destruct (base p) as [b|]; [|reflexivity]. simpl.
  unfold set_cell. destruct (lookup_block (heap s) b); [|by apply only_blocks_same].
  repeat split; simpl; [by rewrite length_insert|].
  intros b' Hb'. apply list_lookup_insert_ne. by intros ->.
Qed.

Lemma inside_construct_at k p v :
  points_into bs p → respects (only_blocks (T:=T) bs) (construct_at k p v).
Proof.
  intros Hp. apply respects_bind; [apply _ | apply inside_read_cell |].
  intros [?|]; [apply respects_undefined, _|].
  apply respects_bind; [apply _ | apply inside_may_throw |]. intros _.
  apply respects_bind; [apply _ | by apply inside_write_cell |]. intros _.
  apply inside_emit.
Qed.

Lemma inside_copy_construct dst src :
  points_into bs dst → respects (only_blocks (T:=T) bs) (construct_from ByCopy dst src).
Proof.
  intros Hp. apply respects_bind; [apply _ | apply inside_load |]. intros v.
  apply respects_bind; [apply _ | by apply inside_construct_at |]. intros _.
  apply respects_ret, _.
Qed.

Lemma inside_destroy_at p : points_into bs p → respects (only_blocks (T:=T) bs) (std.destroy_at p).
Proof.
  intros Hp. apply respects_bind; [apply _ | apply inside_read_cell |].
  intros [?|]; [|apply respects_undefined, _].
  apply respects_bind; [apply _ | by apply inside_write_cell |]. intros _.
  apply inside_emit.
Qed.

Lemma inside_destroy_n n : ∀ p,
  points_into bs p → respects (only_blocks (T:=T) bs) (std.destroy_n p n).
Proof.
  induction n as [|n IH]; intros p Hp; simpl; [apply respects_ret, _|].
  apply respects_bind; [apply _ | by apply inside_destroy_at |]. intros _. by apply IH.
Qed.

Lemma inside_copy_n first n d_first : ∀ cnt,
  points_into bs d_first →
  respects (only_blocks (T:=T) bs) (std.uninitialized_relocate_n ByCopy first n d_first cnt).
Proof.
  induction n as [|n IH]; intros cnt Hp; simpl; [apply respects_ret, _|].
  apply respects_bind; [apply _ | | intros _; by apply IH].
  apply respects_on_unwind; [apply _ | by apply inside_copy_construct |].
  by apply inside_destroy_n.
Qed.

Lemma inside_plus m n : respects (only_blocks (T:=T) bs) (RawMemory.plus m n).
Proof.
  apply respects_bind; [apply _ | |intros _; apply respects_ret, _].
  unfold assert. destruct (_ <=? _); [apply respects_ret, _ | apply respects_undefined, _].
Qed.

Lemma inside_begin this : respects (only_blocks (T:=T) bs) (Vector.begin this).
Proof.
  apply respects_bind; [apply _ | | intros vec; apply respects_ret, _].
  intros s. unfold get_vec. destruct (vecs s !! this); reflexivity.
Qed.

End inside.

Lemma RawMemory_ctor_Throw n s s' :
  RawMemory.ctor n s = Throw s' → heap s' = heap s ∧ vecs s' = vecs s.
Proof.
  unfold RawMemory.ctor, RawMemory.Allocate.
  intros [Hr|(? & ? & _ & Hr)]%bind_Throw; [|done].
  destruct (negb _); [|done].
  apply bind_Throw in Hr as [Hr|(? & ? & _ & Hr)]; [|done].
  unfold tick in Hr. destruct (plan s) as [|[] rest]; [done| |done].
  by injection Hr as <-.
Qed.

Lemma EmplaceInNewAlloc_Throw this pos v s s' :
  is_nothrow_move_constructible = true ∨ is_copy_constructible = true →
  Vector.EmplaceInNewAlloc this pos v s = Throw s' →
  vecs s' = vecs s ∧ (heap s' = heap s ∨ heap s' = heap s ++ [None]).
Proof.
  intros Htraits. unfold Vector.EmplaceInNewAlloc.
  intros [Hr|(vec & ? & [-> Hv]%get_vec_Ok & Hr)]%bind_Throw;
    [by apply no_throw_get_vec in Hr|].
  apply bind_Throw in Hr as [(Hh & Hvs)%RawMemory_ctor_Throw|(nd & s1 & Hctor & Hr)];
    [by eauto|].
  fold (grown (size_ vec)) in Hctor.
  apply RawMemory_ctor_Ok in Hctor as (-> & Hh1 & Hv1 & _);
    [|pose proof (grown_gt (size_ vec)); lia].
  set (nb := length (heap s)) in *.
  apply bind_Throw in Hr as [Hr|(? & ? & _ & Hr)]; [|by apply no_throw_Deallocate in Hr].
  apply on_unwind_Throw in Hr as (s2 & u & Hbody & Hfree).
  apply bind_Throw in Hbody as [Hr|(slot & ? & (_ & -> & ->)%RawMemory_plus_Ok & Hbody)];
    [by apply no_throw_plus in Hr|].
  simpl in Hbody.
  assert (points_into [nb] (Ptr (Some nb) pos)) as Hnb by (unfold points_into; set_solver).
  assert (only_blocks [nb] s1 s2) as (Hv2 & Hl2 & Hf2).
  { revert Hbody. apply throws_in_bind; [apply _ | by apply inside_construct_at |].
    intros _. apply throws_in_bind; [apply _ | apply inside_begin |]. intros first.
    rewrite relocation_if2.
    match goal with
    | |- throws_in _ (bind _ (λ _, ?tail)) => assert (no_throw tail) as Htail
    end.
    { apply no_throw_bind; [apply no_throw_destroy_n | intros _].
      simpl. apply no_throw_bind; [apply no_throw_put_vec | intros _; apply no_throw_ret]. }
    destruct Htraits as [Hn|Hc].
    - (* moves cannot throw *)
      apply throws_in_no_throw.
      assert (relocation_kind = ByMove) as -> by (apply relocation_kind_move; by left).
      apply no_throw_bind; [|intros _; apply Htail].
      apply no_throw_bind; [|intros _]; by apply no_throw_move_n.
    - destruct (is_nothrow_move_constructible) eqn:Hn.
      + apply throws_in_no_throw.
        assert (relocation_kind = ByMove) as -> by (apply relocation_kind_move; by left).
        apply no_throw_bind; [|intros _; apply Htail].
        apply no_throw_bind; [|intros _]; by apply no_throw_move_n.
      + (* copies write to the new block only *)
        assert (relocation_kind = ByCopy) as -> by (by apply relocation_kind_copy).
        apply throws_in_bind; [apply _ | | intros _].
        { apply respects_bind; [apply _ | | intros _]; by apply inside_copy_n. }
        apply throws_in_no_throw, Htail. }
  unfold RawMemory.dtor in Hfree; simpl in Hfree.
  apply Deallocate_Ok in Hfree as (Hh3 & Hv3 & _).
  split; [congruence|]. right.
  apply list_eq. intros i. rewrite Hh3.
  destruct (decide (i = nb)) as [->|Hne].
  - rewrite list_lookup_insert_eq by (rewrite Hl2, Hh1, length_app; simpl; lia).
    by rewrite list_lookup_middle.
  - rewrite list_lookup_insert_ne by done. rewrite Hf2 by set_solver. rewrite Hh1.
    destruct (decide (i < nb)) as [Hlt|Hge].
    + by rewrite !lookup_app_l by done.
    + rewrite !lookup_ge_None_2; [done | rewrite length_app; simpl; lia..].
Qed.

Lemma bind_ret_Throw {A B} (m : M T A) (b : B) s s' :
  bind m (λ _, ret b) s = Throw s' → m s = Throw s'.
Proof. by intros [?|(? & ? & _ & ?)]%bind_Throw. Qed.

Lemma Emplace_Throw this pos v s s' vec :
  vecs s !! this = Some vec →
  size_ vec = capacity_ (data_ vec) →
  is_nothrow_move_constructible = true ∨ is_copy_constructible = true →
  Vector.Emplace this pos v s = Throw s' →
  vecs s' = vecs s ∧ (heap s' = heap s ∨ heap s' = heap s ++ [None]).
Proof.
  intros Hv Hfull Htraits. unfold Vector.Emplace.
  intros [Hr|(vec0 & ? & [-> Hv0]%get_vec_Ok & Hr)]%bind_Throw;
    [by apply no_throw_get_vec in Hr|].
  assert (vec0 = vec) as -> by congruence.
  apply bind_Throw in Hr as [Hr|(past & ? & (_ & -> & ->)%RawMemory_plus_Ok & Hr)];
    [by apply no_throw_plus in Hr|].
  apply bind_Throw in Hr as [Hr|(pos_index & s0 & Hidx & Hr)].
  { exfalso. revert Hr. apply no_throw_if; [apply no_throw_ret|].
    apply no_throw_bind; [apply no_throw_begin | intros ?; apply no_throw_ptr_diff]. }
  assert (s0 = s) as ->.
  { destruct (ptr_eqb _ _); [by apply ret_Ok in Hidx as [_ <-]|].
    apply bind_Ok in Hidx as (? & ? & (? & _ & _ & ->)%begin_Ok & Hidx).
    by apply ptr_diff_Ok in Hidx as (_ & _ & ->). }
  unfold RawMemory.Capacity in Hr.
  replace (size_ vec =? capacity_ (data_ vec)) with true in Hr
    by (symmetry; by apply Nat.eqb_eq).
  apply bind_Throw in Hr as [Hr|(? & ? & _ & Hr)];
    [by eapply EmplaceInNewAlloc_Throw|].
  exfalso. revert Hr. apply no_throw_bind; [apply no_throw_get_vec | intros ?].
  apply no_throw_bind; [apply no_throw_put_vec | intros ?; apply no_throw_ret].
Qed.

Lemma run_call_Throw this c s s' vec :
  vecs s !! this = Some vec →
  size_ vec = capacity_ (data_ vec) →
  is_nothrow_move_constructible = true ∨ is_copy_constructible = true →
  run_call this c s = Throw s' →
  vecs s' = vecs s ∧ (heap s' = heap s ∨ heap s' = heap s ++ [None]).
Proof.
  intros Hv Hfull Htraits.
  destruct c as [i v|i v|i v|v|v|v]; simpl;
    unfold Vector.PushBack, Vector.PushBack_rvalue, Vector.EmplaceBack,
      Vector.Insert, Vector.Insert_rvalue;
    try (unfold bind at 1; rewrite (begin_eval _ _ _ Hv));
    intros Hr%bind_ret_Throw; revert Hr;
    try (unfold bind at 1; rewrite (end_eval _ _ _ Hv));
    by eapply Emplace_Throw.
Qed.

Lemma contents_frame s s' this (xs : list T) :
  vecs s' = vecs s →
  (∀ b c, lookup_block (heap s) b = Some c → lookup_block (heap s') b = Some c) →
  contents s this = Some xs → contents s' this = Some xs.
Proof.
  intros Hv Hh (vec & Hvec & Hsz & Hle & Hc)%contents_represents.
  apply contents_represents. exists vec. repeat split; [congruence | done..|].
  unfold cells_of in *. destruct (buffer_ (data_ vec)); [by apply Hh | done].
Qed.

End failure.

(** * The claims *)
Section claims.
Context {T : Type} `{Elt : Element T}.
Implicit Types (s : state T).

Lemma represents_load s this vec (xs : list T) b i x :
  represents s this vec xs → buffer_ (data_ vec) = Some b → xs !! i = Some x →
  load (Ptr (Some b) i) s = Ok x s.
Proof.
  intros (_ & _ & _ & Hc) Hb Hx. unfold cells_of in Hc. rewrite Hb in Hc.
  eapply load_live; [done|].
  rewrite lookup_app_l by (rewrite length_fmap; by eapply lookup_lt_Some).
  by rewrite list_lookup_fmap, Hx.
Qed.

Lemma erased_lookup (xs : list T) pos :
  pos < length xs → (take pos xs ++ drop (S pos) xs) !! pos = xs !! S pos.
Proof.
  intros Hpos. rewrite lookup_app_r by (rewrite length_take; lia).
  rewrite length_take, lookup_drop. f_equal. lia.
Qed.

(** C1 (as amended). When a growing insertion call ([size == capacity])
    leaves by an exception and relocation cannot be a throwing move ([T] is
    nothrow-move-constructible or copy-constructible), the vector object is
    untouched, so its size and storage are those before the call, its
    elements are the same, and the new storage is gone: either it was never
    obtained (the allocation threw) or its block has been released. *)
Theorem growth_failure_leaves_vector_unchanged this c s s' vec (xs : list T) :
  contents s this = Some xs →
  vecs s !! this = Some vec →
  size_ vec = capacity_ (data_ vec) →
  is_nothrow_move_constructible = true ∨ is_copy_constructible = true →
  run_call this c s = Throw s' →
  vecs s' = vecs s ∧
  contents s' this = Some xs ∧
  (heap s' = heap s ∨ heap s' = heap s ++ [None]).
Proof.
  intros Hc Hv Hfull Htraits Hr.
  destruct (run_call_Throw _ _ _ _ _ Hv Hfull Htraits Hr) as (Hvs & Hh).
  split; [done|]. split; [|done].
  eapply contents_frame; [done | | done].
  intros b cells Hb. destruct Hh as [->| ->]; [done|].
  rewrite lookup_block_app_l; [done | by eapply lookup_block_lt].
Qed.

(** C4. A successful [Emplace] at a valid position [begin() + pos_index],
    [pos_index <= size] (so [end()] is index [size]), adds exactly one
    element: the size grows by one, the new element is at index [pos_index],
    the elements before and after it keep their values and order, and the
    iterator returned is [begin() + pos_index] in the storage the vector has
    afterwards, where the new element is. *)
Theorem Emplace_places_element this pos_index v s vec (xs : list T) p s' :
  contents s this = Some xs →
  vecs s !! this = Some vec →
  pos_index ≤ length xs →
  Vector.Emplace this (RawMemory.GetAddress (data_ vec) +: pos_index) v s = Ok p s' →
  ∃ vec',
    vecs s' !! this = Some vec' ∧
    size_ vec' = size_ vec + 1 ∧
    contents s' this = Some (take pos_index xs ++ v :: drop pos_index xs) ∧
    p = RawMemory.GetAddress (data_ vec') +: pos_index ∧
    load p s' = Ok v s'.
Proof.
  intros (vec0 & Hrep)%contents_represents Hv Hpos Hr.
  assert (vec0 = vec) as -> by (destruct Hrep as [? _]; congruence).
  apply (Emplace_Ok _ _ _ _ _ _ _ _ Hrep Hpos) in Hr as (vec' & Hrep' & Hsz & -> & Hload & _).
  exists vec'. split; [by destruct Hrep'|]. split; [done|].
  split; [apply contents_represents; eauto | by split].
Qed.

(** C5. [Erase] at index [pos_index < size] of a non-empty vector removes
    exactly that element: the later elements are move-assigned one slot to
    the left, in increasing index order, the last slot is destroyed, the
    size drops by one, and the iterator returned is [begin() + pos_index],
    which holds the element that followed the erased one, or is [end()] when
    the last element was erased; then no element is moved. *)
Theorem Erase_removes_element this pos_index s vec (xs : list T) p s' :
  contents s this = Some xs →
  vecs s !! this = Some vec →
  pos_index < length xs →
  Vector.Erase this (RawMemory.GetAddress (data_ vec) +: pos_index) s = Ok p s' →
  ∃ b vec',
    buffer_ (data_ vec) = Some b ∧
    vecs s' !! this = Some vec' ∧
    data_ vec' = data_ vec ∧
    size_ vec' = size_ vec - 1 ∧
    contents s' this = Some (take pos_index xs ++ drop (S pos_index) xs) ∧
    p = RawMemory.GetAddress (data_ vec') +: pos_index ∧
    trace s' = trace s ++
      ((λ i, EvAssign MoveAssign (Slot b i) (Slot b (i + 1)))
         <$> seq pos_index (size_ vec - 1 - pos_index))
      ++ [EvDtor (Slot b (size_ vec - 1))] ∧
    (∀ x, xs !! S pos_index = Some x → load p s' = Ok x s') ∧
    (pos_index = size_ vec - 1 →
     p = RawMemory.GetAddress (data_ vec') +: size_ vec' ∧
     trace s' = trace s ++ [EvDtor (Slot b pos_index)]).
Proof.
  intros (vec0 & Hrep)%contents_represents Hv Hpos Hr.
  assert (vec0 = vec) as -> by (destruct Hrep as [? _]; congruence).
  apply (Erase_Ok _ _ _ _ _ _ _ Hrep Hpos) in Hr as (b & Hbuf & Hrep' & -> & Ht).
  exists b, {| data_ := data_ vec; size_ := size_ vec - 1 |}.
  split; [done|]. split; [by destruct Hrep'|]. split; [done|]. split; [done|].
  split; [apply contents_represents; eauto|].
  split; [unfold RawMemory.GetAddress, ptr_add; simpl; by rewrite Hbuf|].
  split; [done|]. split.
  - intros x Hx. eapply represents_load; [done.. |]. by rewrite erased_lookup.
  - intros ->. unfold RawMemory.GetAddress, ptr_add; simpl. rewrite Hbuf.
    split; [done|]. rewrite Ht. unfold Erase_events.
    by rewrite Nat.sub_diag.
Qed.




(** C9. Copy-assigning and move-assigning a vector to itself are detected
    and change nothing: the state afterwards is the state before. *)
Theorem self_assignment_changes_nothing this s :
  Vector.copy_assign this this s = Ok tt s ∧
  Vector.move_assign this this s = Ok tt s.
Proof.
  unfold Vector.copy_assign, Vector.move_assign. by rewrite Nat.eqb_refl.
Qed.

Lemma Vector_eta (vec : Vector) :
  {| data_ := {| buffer_ := buffer_ (data_ vec); capacity_ := capacity_ (data_ vec) |};
     size_ := size_ vec |} = vec.
Proof. by destruct vec as [[??]?]. Qed.

Lemma contents_same_object s s' a b :
  heap s' = heap s → vecs s' !! a = vecs s !! b → contents s' a = contents s b.
Proof. intros Hh Hv. unfold contents. by rewrite Hh, Hv. Qed.

Lemma Swap_eval a b s va vb :
  vecs s !! a = Some va →
  vecs s !! b = Some vb →
  Vector.Swap a b s = Ok tt (with_vecs (<[b:=va]> (<[a:=vb]> (vecs s))) s).
Proof.
  intros Ha Hb.
  assert (a < length (vecs s)) as Hla by (by eapply lookup_lt_Some).
  unfold Vector.Swap, bind, get_vec, put_vec. rewrite Ha, Hb. simpl. rewrite Ha. simpl.
  rewrite !Vector_eta.
  destruct (decide (a = b)) as [->|Hne].
  - by rewrite list_lookup_insert_eq by done.
  - by rewrite list_lookup_insert_ne, Hb by done.
Qed.

(** C10. [Swap] exchanges the two vectors' storage and sizes, hence their
    capacities and element sequences; it always returns, touches no
    element (the heap and the trace are the same) and makes no
    potentially-throwing call; a second [Swap] restores the initial state. *)
Theorem Swap_exchanges a b s va vb :
  vecs s !! a = Some va →
  vecs s !! b = Some vb →
  ∃ s',
    Vector.Swap a b s = Ok tt s' ∧
    heap s' = heap s ∧ trace s' = trace s ∧ plan s' = plan s ∧
    vecs s' !! a = Some vb ∧ vecs s' !! b = Some va ∧
    contents s' a = contents s b ∧ contents s' b = contents s a ∧
    Vector.Swap a b s' = Ok tt s.
Proof.
  intros Ha Hb.
  assert (a < length (vecs s)) as Hla by (by eapply lookup_lt_Some).
  assert (b < length (vecs s)) as Hlb by (by eapply lookup_lt_Some).
  exists (with_vecs (<[b:=va]> (<[a:=vb]> (vecs s))) s).
  split; [by apply Swap_eval|].
  simpl. split; [done|]. split; [done|]. split; [done|].
  assert (<[b:=va]> (<[a:=vb]> (vecs s)) !! a = Some vb) as Ha'.
  { destruct (decide (a = b)) as [->|Hne].
    - rewrite list_lookup_insert_eq by (by rewrite length_insert). congruence.
    - rewrite list_lookup_insert_ne by done. by rewrite list_lookup_insert_eq. }
  assert (<[b:=va]> (<[a:=vb]> (vecs s)) !! b = Some va) as Hb'
    by (by rewrite list_lookup_insert_eq by (by rewrite length_insert)).
  split; [done|]. split; [done|].
  split; [apply contents_same_object; simpl; congruence|].
  split; [apply contents_same_object; simpl; congruence|].
  rewrite (Swap_eval a b _ vb va) by done.
  destruct s as [h vs t pl]; unfold with_vecs; simpl in *. do 2 f_equal.
  apply list_eq. intros i.
  destruct (decide (i = b)) as [->|Hib].
  { rewrite list_lookup_insert_eq by (by rewrite !length_insert). done. }
  rewrite list_lookup_insert_ne by done.
  destruct (decide (i = a)) as [->|Hia].
  { rewrite list_lookup_insert_eq by (by rewrite !length_insert). done. }
  by rewrite !list_lookup_insert_ne by done.
Qed.

End claims.

(** The scenario of the specification: [emplace_back(1)], [emplace_back(2)],
    [insert(begin, 0)] give [0; 1; 2]; [erase(begin + 1)] gives [0; 2];
    [resize(4)] gives [0; 2; T(); T()]. *)
Example scenario_of_the_specification :
  let s1 := final ((Vector.EmplaceBack (Elt:=NothrowMovable) 0 1 >>
                    Vector.EmplaceBack (Elt:=NothrowMovable) 0 2 >>
                    do first <- Vector.begin 0;
                    Vector.Insert (Elt:=NothrowMovable) 0 first 0) (fresh [])) in
  let s2 := final ((do first <- Vector.begin 0;
                    Vector.Erase (Elt:=NothrowMovable) 0 (first +: 1)) s1) in
  let s3 := final (Vector.Resize (Elt:=NothrowMovable) 0 4 s2) in
  contents s1 0 = Some [0; 1; 2] ∧
  contents s2 0 = Some [0; 2] ∧
  contents s3 0 = Some [0; 2; 0; 0].
Proof. repeat split; vm_compute; reflexivity. Qed.

(** C1, counterexample. [T] is not copyable and its move constructor may
    throw. The vector holds [1; 2] with no spare capacity; [Emplace] at
    [end()] allocates, constructs the new element, moves the first element
    and fails moving the second. The call leaves by the exception and the
    vector now holds a moved-from first element: its contents are not those
    before the call. *)
Lemma growth_failure_changes_move_only_elements :
  let s := full_of_two [false; false; false; true] in
  contents s 0 = Some [1; 2] ∧
  Vector.Size (T:=nat) 0 s = Ok 2 s ∧
  Vector.Capacity (T:=nat) 0 s = Ok 2 s ∧
  ∃ s', Vector.Emplace (Elt:=MoveOnly) 0 (Ptr (Some 0) 2) 3 s = Throw s' ∧
        contents s' 0 = Some [0; 2].
Proof.
  simpl. split; [reflexivity|]. split; [reflexivity|]. split; [reflexivity|].
  eexists. split; [vm_compute; reflexivity | reflexivity].
Qed.

Lemma growth_failure_leaves_vector_unchanged_witness :
  let s := full_of_two [false; false; false; true] in
  let s' := final (run_call (Elt:=ThrowingMove) 0 (Call_PushBack 3) s) in
  run_call (Elt:=ThrowingMove) 0 (Call_PushBack 3) s = Throw s' ∧
  vecs s' = vecs s ∧ contents s' 0 = Some [1; 2] ∧
  (heap s' = heap s ∨ heap s' = heap s ++ [None]).
Proof.
  intros s s'.
  assert (run_call (Elt:=ThrowingMove) 0 (Call_PushBack 3) s = Throw s') as Hr
    by (vm_compute; reflexivity).
  split; [exact Hr|].
  apply (growth_failure_leaves_vector_unchanged (Elt:=ThrowingMove)
           0 (Call_PushBack 3) s s' (vector_at 0 2 2) [1; 2]);
    [reflexivity | reflexivity | reflexivity | right; reflexivity | exact Hr].
Defined.

(** The same failure for a copyable [T]: the new element was constructed in
    slot 2 of the new block, the copy of the first element was destroyed by
    the failing [uninitialized_copy_n], and the block is released with the
    new element never destroyed. *)
Example growth_failure_abandons_new_element :
  trace (final (Vector.Emplace (Elt:=ThrowingMove) 0 (Ptr (Some 0) 2) 3
                  (full_of_two [false; false; false; true])))
  = [EvAlloc 1 4; EvCtor ByArgs (Slot 1 2); EvCtor ByCopy (Slot 1 0);
     EvDtor (Slot 1 0); EvFree 1].
Proof. vm_compute. reflexivity. Qed.

(** C2. Move assignment to a vector that holds [1]: its block is released
    and no destructor ran for the element in it; the destructor of the same
    vector destroys the element first. *)
Theorem move_assign_releases_live_elements :
  Vector.move_assign (T:=nat) 0 1 two_vectors
  = Ok tt (State [None; Some [Some 5; Some 6; None]]
                 [vector_at 1 3 2; empty_vector] [EvFree 0] []) ∧
  trace (final (Vector.dtor (T:=nat) 0 two_vectors))
  = [EvDtor (Slot 0 0); EvFree 0].
Proof. split; vm_compute; reflexivity. Qed.

(** C3. [Resize] of an empty vector of a copyable [T] whose move constructor
    may throw, when a default construction throws. [Resize(2)], second
    construction throwing: [uninitialized_value_construct_n] destroys the
    element it constructed in slot 0, and the handler then destroys the whole
    range, slot 0 a second time. [Resize(1)], first construction throwing:
    nothing was constructed and the handler destroys the uninitialized slot 0.
    For a nothrow-movable [T] the first failure destroys slot 0 once and the
    exception leaves with the size unchanged. *)
Theorem Resize_failure_destroys_twice :
  Vector.Resize (Elt:=ThrowingMove) 0 2 (fresh [false; false; true])
  = Undef (NotLive (Slot 0 0))
          (State [Some [None; None]] [vector_at 0 2 0]
                 [EvAlloc 0 2; EvCtor ByDefault (Slot 0 0); EvDtor (Slot 0 0)] []) ∧
  Vector.Resize (Elt:=ThrowingMove) 0 1 (fresh [false; true])
  = Undef (NotLive (Slot 0 0))
          (State [Some [None]] [vector_at 0 1 0] [EvAlloc 0 1] []) ∧
  Vector.Resize (Elt:=NothrowMovable) 0 2 (fresh [false; false; true])
  = Throw (State [Some [None; None]] [vector_at 0 2 0]
                 [EvAlloc 0 2; EvCtor ByDefault (Slot 0 0); EvDtor (Slot 0 0)] []).
Proof. repeat split; vm_compute; reflexivity. Qed.

Lemma Emplace_places_element_witness :
  let s := two_of_four [] in
  let p := Ptr (Some 0) 1 in
  let s' := final (Vector.Emplace (Elt:=NothrowMovable) 0 p 9 s) in
  Vector.Emplace (Elt:=NothrowMovable) 0 p 9 s = Ok p s' ∧
  contents s' 0 = Some [1; 9; 2].
Proof.
  intros s p s'.
  assert (Vector.Emplace (Elt:=NothrowMovable) 0 p 9 s = Ok p s') as Hr
    by (vm_compute; reflexivity).
  split; [exact Hr|].
  destruct (Emplace_places_element (Elt:=NothrowMovable) 0 1 9 s (vector_at 0 4 2) [1; 2] p s')
    as (vec' & _ & _ & Hc & _);
    [reflexivity | reflexivity | simpl; lia | exact Hr | exact Hc].
Defined.

Lemma Erase_removes_element_witness :
  let s := two_of_four [] in
  let p := Ptr (Some 0) 0 in
  let s' := final (Vector.Erase (Elt:=NothrowMovable) 0 p s) in
  Vector.Erase (Elt:=NothrowMovable) 0 p s = Ok p s' ∧
  contents s' 0 = Some [2].
Proof.
  intros s p s'.
  assert (Vector.Erase (Elt:=NothrowMovable) 0 p s = Ok p s') as Hr
    by (vm_compute; reflexivity).
  split; [exact Hr|].
  destruct (Erase_removes_element (Elt:=NothrowMovable) 0 0 s (vector_at 0 4 2) [1; 2] p s')
    as (b & vec' & _ & _ & _ & _ & Hc & _);
    [reflexivity | reflexivity | simpl; lia | exact Hr | exact Hc].
Defined.



Lemma Swap_exchanges_witness :
  ∃ s', Vector.Swap (T:=nat) 0 1 two_vectors = Ok tt s' ∧
        contents s' 0 = Some [5; 6] ∧ contents s' 1 = Some [1].
Proof.
  destruct (Swap_exchanges 0 1 two_vectors (vector_at 0 1 1) (vector_at 1 3 2))
    as (s' & Hr & _ & _ & _ & _ & _ & H0 & H1 & _); [reflexivity | reflexivity |].
  exists s'. split; [exact Hr|]. split; [exact H0 | exact H1].
Defined.

(** * Further properties of the two classes *)

(** ** Appending and removing at the end *)
Section back.
Context {T : Type} `{Elt : Element T}.
Implicit Types (s : state T).

Lemma EmplaceBack_Ok this v s vec (xs : list T) p s' :
  represents s this vec xs →
  Vector.EmplaceBack this v s = Ok p s' →
  ∃ vec', represents s' this vec' (xs ++ [v]) ∧
          size_ vec' = size_ vec + 1 ∧
          p = Ptr (buffer_ (data_ vec')) (length xs) ∧
          load p s' = Ok v s' ∧
          (size_ vec < capacity_ (data_ vec) → data_ vec' = data_ vec) ∧
          (size_ vec = capacity_ (data_ vec) →
           capacity_ (data_ vec') = grown (size_ vec)).
Proof.
  intros Hrep Hr. pose proof Hrep as (Hv & Hsz & _).
  unfold Vector.EmplaceBack in Hr.
  apply bind_Ok in Hr as (e & ? & (vec0 & Hv0 & -> & ->)%end_Ok & Hr).
  assert (vec0 = vec) as -> by congruence. rewrite Hsz in Hr.
  apply (Emplace_Ok _ _ _ _ _ _ _ _ Hrep (Nat.le_refl _)) in Hr.
  by rewrite firstn_all, drop_all in Hr.
Qed.

Lemma PushBack_Ok this v s vec (xs : list T) u s' :
  represents s this vec xs →
  Vector.PushBack this v s = Ok u s' →
  ∃ vec', represents s' this vec' (xs ++ [v]) ∧
          size_ vec' = size_ vec + 1 ∧
          (size_ vec < capacity_ (data_ vec) → data_ vec' = data_ vec) ∧
          (size_ vec = capacity_ (data_ vec) →
           capacity_ (data_ vec') = grown (size_ vec)).
Proof.
  intros Hrep Hr. unfold Vector.PushBack in Hr.
  apply bind_Ok in Hr as (p & s1 & Hr & [_ <-]%ret_Ok).
  apply (EmplaceBack_Ok _ _ _ _ _ _ _ Hrep) in Hr as (vec' & ? & ? & _ & _ & ? & ?).
  by exists vec'.
Qed.

(** Destroying a live object, forwards. *)
Lemma destroy_at_eval b i s c (v : T) :
  lookup_block (heap s) b = Some c → c !! i = Some (Some v) →
  std.destroy_at (Ptr (Some b) i) s
  = Ok tt (log (EvDtor (Slot b i)) (with_heap (<[b := Some (<[i := None]> c)]> (heap s)) s)).
Proof.
  intros Hc Hi. unfold std.destroy_at, bind, read_cell, write_cell, emit; simpl.
  rewrite (cell_block _ _ _ _ Hc), Hi. simpl.
  by rewrite (set_cell_block _ _ _ _ _ Hc).
Qed.

Lemma destroy_n_returns b (ys : list T) : ∀ pre post s,
  lookup_block (heap s) b = Some (pre ++ (Some <$> ys) ++ post) →
  ∃ s', std.destroy_n (Ptr (Some b) (length pre)) (length ys) s = Ok tt s' ∧
        plan s' = plan s.
Proof.
  induction ys as [|y ys IH]; intros pre post s Hb; csimpl in Hb; csimpl.
  - by exists s.
  - unfold bind.
    erewrite destroy_at_eval; [|done | by apply list_lookup_middle].
    rewrite insert_middle by done.
    unfold ptr_add; simpl.
    match goal with
    | |- context [std.destroy_n _ _ ?s1] =>
        destruct (IH (pre ++ [None]) post s1) as (s' & Hr & Hp)
    end.
    { simpl. rewrite lookup_block_insert_eq by (by eapply lookup_block_lt).
      by rewrite <- app_assoc. }
    rewrite length_app in Hr; simpl in Hr.
    exists s'. split; [exact Hr | by rewrite Hp].
Qed.

Lemma PopBack_eval this s vec (xs : list T) x :
  represents s this vec (xs ++ [x]) →
  ∃ b s',
    buffer_ (data_ vec) = Some b ∧
    Vector.PopBack this s = Ok tt s' ∧
    represents s' this {| data_ := data_ vec; size_ := size_ vec - 1 |} xs ∧
    trace s' = trace s ++ [EvDtor (Slot b (length xs))] ∧
    plan s' = plan s.
Proof.
  intros Hrep. pose proof Hrep as (Hv & Hsz & Hle & Hc).
  rewrite length_app in Hsz, Hle; simpl in Hsz, Hle.
  destruct (represents_storage _ _ _ _ Hrep) as [(_ & Hnil & _)|(b & Hbuf & Hb & Hblk)];
    [by destruct xs|].
  exists b.
  rewrite fmap_app, <- app_assoc in Hblk. csimpl in Hblk.
  assert (size_ vec = S (length xs)) as Hsz' by lia.
  unfold Vector.PopBack, bind, get_vec. rewrite Hv.
  unfold ptr_sub, RawMemory.GetAddress, ptr_add; simpl.
  rewrite Hsz'. simpl. rewrite Nat.sub_0_r, Hbuf. unfold bind.
  erewrite destroy_at_eval;
    [|done | apply list_lookup_middle; by rewrite length_fmap].
  simpl. unfold put_vec; simpl. rewrite Hv.
  eexists. split; [done|]. split; [reflexivity|]. simpl.
  split; [|done].
  repeat split; simpl.
  - apply list_lookup_insert_eq. by eapply lookup_lt_Some.
  - lia.
  - unfold cells_of; simpl. rewrite Hbuf.
    rewrite lookup_block_insert_eq by done. f_equal.
    rewrite insert_middle by (by rewrite length_fmap).
    f_equal. rewrite length_app; simpl.
    replace (capacity_ (data_ vec) - length xs)
      with (S (capacity_ (data_ vec) - (length xs + 1))) by lia. done.
Qed.

Lemma PopBack_empty this s vec :
  represents s this vec [] →
  Vector.PopBack this s = Undef BadPointerArith s.
Proof.
  intros (Hv & Hsz & _). simpl in Hsz.
  unfold Vector.PopBack, bind, get_vec. rewrite Hv.
  unfold ptr_sub, RawMemory.GetAddress, ptr_add; simpl. by rewrite Hsz.
Qed.

End back.

(** ** Resizing *)
Section resize.
Context {T : Type} `{Elt : Element T}.
Implicit Types (s : state T).

Lemma value_construct_Ok b off n : ∀ cnt pre post s u s',
  lookup_block (heap s) b = Some (pre ++ replicate n None ++ post) →
  length pre = off + cnt →
  std.uninitialized_value_construct_from (Ptr (Some b) off) n cnt s = Ok u s' →
  lookup_block (heap s') b = Some (pre ++ replicate n (Some value_init) ++ post) ∧
  only_blocks [b] s s' ∧
  trace s' = trace s ++ ((λ i, EvCtor ByDefault (Slot b i)) <$> seq (off + cnt) n).
Proof.
  induction n as [|n IH]; intros cnt pre post s u s' Hb Hl; csimpl in Hb; csimpl.
  - intros [_ <-]%ret_Ok. split; [done|]. split; [apply only_blocks_refl|].
    by rewrite app_nil_r.
  - intros (? & s1 & Hc%on_unwind_Ok & Hr)%bind_Ok.
    unfold ptr_add in Hc; simpl in Hc.
    apply construct_at_Ok in Hc as (c & Hc & _ & Hc' & Hf & Ht).
    assert (c = pre ++ None :: replicate n None ++ post) as -> by congruence.
    rewrite insert_middle in Hc' by done.
    specialize (IH (S cnt) (pre ++ [Some value_init]) post s1 u s').
    rewrite <- app_assoc, length_app in IH. simpl in IH.
    destruct (IH Hc' ltac:(lia) Hr) as (Hfin & Hf2 & Ht2).
    rewrite <- app_assoc in Hfin.
    split; [done|]. split; [by eapply only_blocks_trans|].
    rewrite Ht2, Ht, <- app_assoc. simpl. by rewrite Nat.add_succ_r.
Qed.

Lemma Reserve_noop this n s vec :
  vecs s !! this = Some vec → n ≤ capacity_ (data_ vec) →
  Vector.Reserve this n s = Ok tt s.
Proof.
  intros Hv Hle. unfold Vector.Reserve, bind, get_vec, RawMemory.Capacity. rewrite Hv.
  by replace (n <=? capacity_ (data_ vec)) with true by (symmetry; by apply Nat.leb_le).
Qed.

Lemma Resize_grow_Ok this n s vec (xs : list T) u s' :
  represents s this vec xs →
  length xs < n →
  Vector.Resize this n s = Ok u s' →
  ∃ vec', represents s' this vec' (xs ++ replicate (n - length xs) value_init) ∧
          size_ vec' = n ∧
          capacity_ (data_ vec') = capacity_ (data_ vec) `max` n ∧
          (n ≤ capacity_ (data_ vec) → data_ vec' = data_ vec).
Proof.
  intros Hrep Hn Hr. pose proof Hrep as (Hv & Hsz & Hle & Hc).
  unfold Vector.Resize in Hr.
  apply bind_Ok in Hr as (vec0 & ? & [-> Hv0]%get_vec_Ok & Hr).
  assert (vec0 = vec) as -> by congruence.
  replace (size_ vec <? n) with true in Hr by (symmetry; apply Nat.ltb_lt; lia).
  apply bind_Ok in Hr as (ufill & s3 & Hgrow & Hr).
  apply bind_Ok in Hgrow as (? & s1 & Hres & Hgrow).
  apply bind_Ok in Hgrow as (vec1 & ? & [-> Hv1]%get_vec_Ok & Hfill).
  apply bind_Ok in Hr as (vec3 & ? & [-> Hv3]%get_vec_Ok & Hr).
  apply put_vec_Ok in Hr as (Hh4 & Hv4 & _ & Hthis).
  assert (represents s1 this vec1 xs ∧ n ≤ capacity_ (data_ vec1) ∧
          capacity_ (data_ vec1) = capacity_ (data_ vec) `max` n ∧
          (n ≤ capacity_ (data_ vec) → data_ vec1 = data_ vec)) as (Hrep1 & Hcap1 & Hmax & Hsame).
  { destruct (Nat.le_gt_cases n (capacity_ (data_ vec))) as [Hfit|Hgt].
    - rewrite (Reserve_noop _ _ _ _ Hv Hfit) in Hres.
      assert (s1 = s) as -> by congruence.
      assert (vec1 = vec) as -> by congruence.
      split; [done|]. split; [done|]. split; [lia | done].
    - apply (Reserve_grow_Ok _ _ _ _ _ _ _ Hrep Hgt) in Hres as (Hrep1 & _ & _ & _).
      assert (vec1 = {| data_ := {| buffer_ := Some (length (heap s)); capacity_ := n |};
                        size_ := size_ vec |}) as ->
        by (destruct Hrep1 as [? _]; congruence).
      split; [done|]. simpl. split; [done|]. split; lia. }
  pose proof Hrep1 as (_ & Hsz1 & Hle1 & _).
  destruct (represents_storage _ _ _ _ Hrep1) as [(_ & _ & Hcap0)|(b & Hbuf & Hb & Hblk)];
    [lia|].
  assert (std.uninitialized_value_construct_from
            (Ptr (Some b) (length xs)) (n - length xs) 0 s1 = Ok ufill s3) as Hfill'.
  { unfold std.uninitialized_value_construct_n, RawMemory.GetAddress, ptr_add in Hfill.
    simpl in Hfill. rewrite Hbuf, Hsz1 in Hfill.
    destruct (_ || _); [|apply on_unwind_Ok in Hfill]; exact Hfill. }
  replace (capacity_ (data_ vec1) - length xs)
    with ((n - length xs) + (capacity_ (data_ vec1) - n)) in Hblk by lia.
  rewrite replicate_add in Hblk.
  apply (value_construct_Ok _ _ _ _ _ _ _ _ _ Hblk) in Hfill'
    as (Hblk3 & (Hfv & _) & _); [|rewrite length_fmap; lia].
  assert (vec3 = vec1) as -> by congruence.
  exists {| data_ := data_ vec1; size_ := n |}. simpl.
  split; [|done].
  repeat split; simpl.
  - done.
  - rewrite length_app, length_replicate. lia.
  - rewrite length_app, length_replicate. lia.
  - unfold cells_of. rewrite Hbuf, Hh4, Hblk3.
    rewrite fmap_app, fmap_replicate, <- app_assoc. do 3 f_equal.
    rewrite length_app, length_replicate. f_equal. lia.
Qed.

Lemma Resize_shrink_eval this n s vec (xs : list T) :
  represents s this vec xs →
  n ≤ length xs →
  ∃ s',
    Vector.Resize this n s = Ok tt s' ∧
    represents s' this {| data_ := data_ vec; size_ := n |} (take n xs) ∧
    trace s' = trace s ++
      match buffer_ (data_ vec) with
      | Some b => (λ i, EvDtor (Slot b i)) <$> seq n (length xs - n)
      | None => []
      end ∧
    plan s' = plan s.
Proof.
  intros Hrep Hn. pose proof Hrep as (Hv & Hsz & Hle & Hc).
  unfold Vector.Resize, bind at 1, get_vec at 1. rewrite Hv.
  replace (size_ vec <? n) with false by (symmetry; apply Nat.ltb_ge; lia).
  unfold RawMemory.GetAddress, ptr_add; simpl. rewrite Hsz.
  destruct (represents_storage _ _ _ _ Hrep) as [(Hbuf & -> & Hcap0)|(b & Hbuf & Hb & Hblk)].
  - simpl in Hn. assert (n = 0) as -> by lia. rewrite Hbuf. simpl.
    unfold bind, get_vec, put_vec. simpl. rewrite Hv. simpl. rewrite Hv.
    eexists. split; [reflexivity|]. simpl. rewrite app_nil_r.
    split; [|done].
    repeat split; simpl; [apply list_lookup_insert_eq; by eapply lookup_lt_Some | lia |].
    unfold cells_of. by rewrite Hbuf, Hcap0.
  - rewrite Hbuf.
    assert (length (Some <$> take n xs) = n) as Hlp by (rewrite length_fmap, length_take; lia).
    assert (length (drop n xs) = length xs - n) as Hld by (by rewrite length_drop).
    assert (lookup_block (heap s) b
            = Some ((Some <$> take n xs) ++ (Some <$> drop n xs)
                    ++ replicate (capacity_ (data_ vec) - length xs) None)) as Hblk0
      by (by rewrite Hblk, app_assoc, <- fmap_app, take_drop).
    destruct (destroy_n_returns _ _ _ _ _ Hblk0) as (s1 & Hd & Hp).
    pose proof Hd as Hd'.
    rewrite Hlp, Hld in Hd.
    unfold bind at 1. rewrite Hd.
    apply (destroy_n_Ok _ _ _ _ _ _ _ Hblk0) in Hd' as (Hblk1 & (Hfv & Hfl & _) & Ht).
    unfold bind, get_vec, put_vec. rewrite Hfv, Hv. simpl. rewrite Hfv, Hv.
    eexists. split; [reflexivity|]. simpl.
    split; [|split; [by rewrite Ht, Hlp, Hld | done]].
    repeat split; simpl.
    + apply list_lookup_insert_eq. by eapply lookup_lt_Some.
    + rewrite length_take. lia.
    + rewrite length_take. lia.
    + unfold cells_of; simpl. rewrite Hbuf, Hblk1. do 2 f_equal.
      rewrite <- replicate_add, Hld, length_take. f_equal. lia.
Qed.

End resize.

(** ** Construction, destruction, transfer of ownership *)
Section lifetime.
Context {T : Type} `{Elt : Element T}.
Implicit Types (s : state T).

(** The heap once the storage [m] is released. *)
Lemma dtor_eval this s vec (xs : list T) :
  represents s this vec xs →
  ∃ s',
    Vector.dtor this s = Ok tt s' ∧
    vecs s' = vecs s ∧ plan s' = plan s ∧
    match buffer_ (data_ vec) with
    | Some b =>
        heap s' = <[b := None]> (heap s) ∧
        trace s' = trace s ++ ((λ i, EvDtor (Slot b i)) <$> seq 0 (length xs))
                           ++ [EvFree b]
    | None => heap s' = heap s ∧ trace s' = trace s
    end.
Proof.
  intros Hrep. pose proof Hrep as (Hv & Hsz & Hle & Hc).
  unfold Vector.dtor, bind at 1, get_vec. rewrite Hv.
  unfold RawMemory.GetAddress, RawMemory.dtor. rewrite Hsz.
  destruct (represents_storage _ _ _ _ Hrep) as [(Hbuf & -> & Hcap0)|(b & Hbuf & Hb & Hblk)].
  - rewrite Hbuf. simpl. by exists s.
  - rewrite Hbuf.
    assert (lookup_block (heap s) b
            = Some ([] ++ (Some <$> xs)
                    ++ replicate (capacity_ (data_ vec) - length xs) None)) as Hblk0 by done.
    destruct (destroy_n_returns _ _ _ _ _ Hblk0) as (s1 & Hd & Hp).
    unfold bind. simpl in Hd. rewrite Hd.
    apply (destroy_n_Ok _ _ _ _ _ _ _ Hblk0) in Hd as (Hblk1 & (Hfv & Hfl & Hf) & Ht).
    simpl. rewrite Hblk1.
    eexists. split; [reflexivity|]. simpl. split; [done|]. split; [done|].
    split; [|by rewrite Ht, <- app_assoc].
    apply list_eq. intros i. destruct (decide (i = b)) as [->|Hne].
    + rewrite !list_lookup_insert_eq by lia. done.
    + rewrite !list_lookup_insert_ne by done. apply Hf. set_solver.
Qed.

Lemma move_ctor_eval other s vec :
  vecs s !! other = Some vec →
  Vector.move_ctor other s
  = Ok (length (vecs s))
       (with_vecs (<[other := {| data_ := RawMemory.default_ctor; size_ := 0 |}]> (vecs s)
                   ++ [vec]) s).
Proof.
  intros Hv. unfold Vector.move_ctor, bind, get_vec, put_vec, new_object. rewrite Hv.
  simpl. rewrite Hv. simpl. rewrite length_insert, Vector_eta. done.
Qed.

Lemma represents_empty s this :
  vecs s !! this = Some {| data_ := RawMemory.default_ctor; size_ := 0 |} →
  represents s this {| data_ := RawMemory.default_ctor; size_ := 0 |} ([] : list T).
Proof. intros Hv. by repeat split. Qed.

Lemma move_assign_eval this rhs s vec r :
  this ≠ rhs →
  vecs s !! this = Some vec →
  vecs s !! rhs = Some r →
  is_Some (cells_of (heap s) (data_ vec)) →
  ∃ s',
    Vector.move_assign this rhs s = Ok tt s' ∧
    vecs s' = <[rhs := {| data_ := RawMemory.default_ctor; size_ := 0 |}]>
                (<[this := r]> (vecs s)) ∧
    plan s' = plan s ∧
    match buffer_ (data_ vec) with
    | Some b => heap s' = <[b := None]> (heap s) ∧ trace s' = trace s ++ [EvFree b]
    | None => heap s' = heap s ∧ trace s' = trace s
    end.
Proof.
  intros Hne Hv Hr [c Hc].
  assert (this < length (vecs s)) by (by eapply lookup_lt_Some).
  unfold Vector.move_assign.
  replace (this =? rhs) with false by (symmetry; by apply Nat.eqb_neq). simpl.
  unfold bind, get_vec. rewrite Hv, Hr. unfold cells_of in Hc.
  unfold RawMemory.move_assign, bind. simpl.
  destruct (buffer_ (data_ vec)) as [b|] eqn:Hbuf; simpl.
  - rewrite Hc. unfold put_vec; simpl. rewrite Hv. simpl.
    rewrite list_lookup_insert_ne, Hr by done.
    eexists. split; [reflexivity|]. simpl. by rewrite Vector_eta.
  - unfold put_vec; simpl. rewrite Hv. simpl.
    rewrite list_lookup_insert_ne, Hr by done.
    eexists. split; [reflexivity|]. simpl. by rewrite Vector_eta.
Qed.

Lemma index_eval this i s vec (xs : list T) x :
  represents s this vec xs → xs !! i = Some x →
  ∃ b, buffer_ (data_ vec) = Some b ∧
       Vector.index this i s = Ok (Ptr (Some b) i) s ∧
       load (Ptr (Some b) i) s = Ok x s.
Proof.
  intros Hrep Hx. pose proof Hrep as (Hv & Hsz & Hle & Hc).
  pose proof (lookup_lt_Some _ _ _ Hx) as Hi.
  destruct (represents_storage _ _ _ _ Hrep) as [(_ & -> & _)|(b & Hbuf & Hb & Hblk)];
    [done|].
  exists b. split; [done|]. split; [|by eapply represents_load].
  unfold Vector.index, RawMemory.index, bind, get_vec. rewrite Hv.
  replace (i <? size_ vec) with true by (symmetry; apply Nat.ltb_lt; lia). simpl.
  replace (i <? capacity_ (data_ vec)) with true by (symmetry; apply Nat.ltb_lt; lia).
  simpl. unfold ptr_add; simpl. by rewrite Hbuf.
Qed.

Lemma index_out_of_range this i s vec :
  vecs s !! this = Some vec → size_ vec ≤ i →
  Vector.index this i s = Undef AssertFailed s.
Proof.
  intros Hv Hi. unfold Vector.index, bind, get_vec. rewrite Hv.
  by replace (i <? size_ vec) with false by (symmetry; apply Nat.ltb_ge; lia).
Qed.

End lifetime.

(** ** The constructors that fill fresh storage *)
Section constructors.
Context {T : Type} `{Elt : Element T}.
Implicit Types (s : state T).

Local Abbreviation respects := (respects (T:=T)).
Local Abbreviation throws_in := (throws_in (T:=T)).
Local Abbreviation no_throw := (no_throw (T:=T)).

Lemma RawMemory_ctor_zero s :
  RawMemory.ctor 0 s = Ok RawMemory.default_ctor s.
Proof. done. Qed.

Lemma after_copy (xs : list T) : after ByCopy <$> xs = xs.
Proof. induction xs; csimpl; by f_equal. Qed.

(** A fresh block that was written to and then released. *)
Lemma fresh_block_released s s1 s2 s' (c : list (option T)) :
  heap s1 = heap s ++ [Some c] →
  only_blocks [length (heap s)] s1 s2 →
  heap s' = <[length (heap s) := None]> (heap s2) →
  heap s' = heap s ++ [None].
Proof.
  intros Hh1 (_ & Hl2 & Hf2) Hh3.
  apply list_eq. intros i. rewrite Hh3.
  destruct (decide (i = length (heap s))) as [->|Hne].
  - rewrite list_lookup_insert_eq by (rewrite Hl2, Hh1, length_app; simpl; lia).
    by rewrite list_lookup_middle.
  - rewrite list_lookup_insert_ne by done. rewrite Hf2 by set_solver. rewrite Hh1.
    destruct (decide (i < length (heap s))) as [Hlt|Hge].
    + by rewrite !lookup_app_l by done.
    + rewrite !lookup_ge_None_2; [done | rewrite length_app; simpl; lia..].
Qed.

Lemma represents_frame s s' this vec (xs : list T) :
  vecs s' !! this = vecs s !! this →
  (∀ b, buffer_ (data_ vec) = Some b → lookup_block (heap s') b = lookup_block (heap s) b) →
  represents s this vec xs → represents s' this vec xs.
Proof.
  intros Hv Hh (Hvec & Hsz & Hle & Hc). repeat split; [congruence | done..|].
  unfold cells_of in *. destruct (buffer_ (data_ vec)) as [b|]; [|done].
  by rewrite Hh.
Qed.

(** The vector a constructor makes out of the storage [data] it filled. *)
Lemma copy_ctor_Ok other s o (xs : list T) id s' :
  represents s other o xs →
  Vector.copy_ctor other s = Ok id s' →
  ∃ data,
    let vec' := {| data_ := data; size_ := size_ o |} in
    id = length (vecs s) ∧
    vecs s' = vecs s ++ [vec'] ∧
    capacity_ data = length xs ∧
    (∀ b, buffer_ data = Some b → b = length (heap s)) ∧
    represents s' id vec' xs ∧
    (∀ b, b < length (heap s) → heap s' !! b = heap s !! b) ∧
    length (heap s) ≤ length (heap s').
Proof.
  intros Hrep Hr. pose proof Hrep as (Hv & Hsz & Hle & Hc).
  unfold Vector.copy_ctor in Hr.
  apply bind_Ok in Hr as (o0 & ? & [-> Hv0]%get_vec_Ok & Hr).
  assert (o0 = o) as -> by congruence.
  apply bind_Ok in Hr as (data & s1 & Hctor & Hr).
  apply bind_Ok in Hr as (? & s2 & Hcopy%on_unwind_Ok & Hnew).
  injection Hnew as <- <-.
  exists data. simpl.
  unfold std.uninitialized_copy_n, RawMemory.GetAddress in Hcopy.
  destruct xs as [|x0 xs].
  - simpl in Hsz. rewrite Hsz in *. rewrite RawMemory_ctor_zero in Hctor.
    injection Hctor as <- <-. simpl in Hcopy. apply ret_Ok in Hcopy as [_ <-].
    split; [done|]. split; [done|]. split; [done|]. split; [done|].
    split; [|done].
    repeat split; simpl; [by apply list_lookup_middle | done].
  - destruct (represents_storage _ _ _ _ Hrep) as [(_ & ? & _)|(ob & Hbuf & Hob & Hblk)];
      [done|].
    apply RawMemory_ctor_Ok in Hctor as (-> & Hh1 & Hv1 & _); [|simpl in Hsz; lia].
    set (nb := length (heap s)) in *. simpl in Hcopy. rewrite Hbuf, Hsz in Hcopy.
    assert (ob ≠ nb) as Hne by lia.
    assert (lookup_block (heap s1) ob
            = Some ([] ++ (Some <$> x0 :: xs)
                    ++ replicate (capacity_ (data_ o) - length (x0 :: xs)) None)) as Hs1
      by (rewrite Hh1, lookup_block_app_l by done; done).
    assert (lookup_block (heap s1) nb
            = Some ([] ++ replicate (length (x0 :: xs)) None ++ [])) as Hd1.
    { rewrite Hh1. unfold nb. rewrite lookup_block_app_new, app_nil_r. by rewrite Hsz. }
    apply (relocate_Ok _ _ _ 0 0 _ 0 _ _ _ _ _ _ _ Hne Hs1 eq_refl Hd1 eq_refl) in Hcopy
      as (Hd2 & Hs2 & (Hfv & Hfl & Hf) & _).
    rewrite after_copy in Hs2. rewrite app_nil_r in Hd2. simpl in Hd2.
    split; [by rewrite Hfv, Hv1|]. split; [by rewrite Hfv, Hv1|].
    split; [exact Hsz|]. split; [by intros b [= <-]|].
    split; [|split].
    + repeat split; simpl.
      * rewrite Hfv, Hv1. by apply list_lookup_middle.
      * done.
      * by rewrite Hsz.
      * unfold cells_of; simpl. rewrite Hd2. rewrite Hsz, Nat.sub_diag. simpl.
        by rewrite app_nil_r.
    + intros b Hb. destruct (decide (b = ob)) as [->|Hbo].
      * apply lookup_block_Some in Hs2. rewrite Hs2. symmetry.
        by apply lookup_block_Some.
      * assert (b ≠ nb) by (unfold nb; lia).
        rewrite Hf by set_solver. rewrite Hh1. by apply lookup_app_l.
    + rewrite Hfl, Hh1, length_app. lia.
Qed.

Lemma copy_ctor_Throw other s s' :
  Vector.copy_ctor other s = Throw s' →
  vecs s' = vecs s ∧ (heap s' = heap s ∨ heap s' = heap s ++ [None]).
Proof.
  unfold Vector.copy_ctor.
  intros [Hr|(o & ? & [-> Hv]%get_vec_Ok & Hr)]%bind_Throw;
    [by apply no_throw_get_vec in Hr|].
  apply bind_Throw in Hr as [(Hh & Hvs)%RawMemory_ctor_Throw|(data & s1 & Hctor & Hr)];
    [by eauto|].
  apply bind_Throw in Hr as [Hr|(? & ? & _ & Hr)]; [|done].
  apply on_unwind_Throw in Hr as (s2 & u & Hbody & Hfree).
  unfold std.uninitialized_copy_n in Hbody.
  destruct (size_ o) as [|n] eqn:Hsz; [done|].
  apply RawMemory_ctor_Ok in Hctor as (-> & Hh1 & Hv1 & _); [|done].
  assert (only_blocks [length (heap s)] s1 s2) as Hf.
  { revert Hbody. apply throws_in_respects, inside_copy_n.
    unfold points_into; simpl. set_solver. }
  unfold RawMemory.dtor in Hfree; simpl in Hfree.
  apply Deallocate_Ok in Hfree as (Hh3 & Hv3 & _).
  split; [destruct Hf as (? & _); congruence|]. right.
  by eapply fresh_block_released.
Qed.

Lemma inside_value_construct bs first n : ∀ cnt,
  points_into bs first →
  respects (only_blocks bs) (std.uninitialized_value_construct_from first n cnt).
Proof.
  induction n as [|n IH]; intros cnt Hp; simpl; [apply respects_ret, _|].
  apply respects_bind; [apply _ | | intros _; by apply IH].
  apply respects_on_unwind; [apply _ | by apply inside_construct_at |].
  by apply inside_destroy_n.
Qed.

Lemma sized_ctor_Ok size s id s' :
  Vector.sized_ctor size s = Ok id s' →
  ∃ data,
    let vec' := {| data_ := data; size_ := size |} in
    id = length (vecs s) ∧
    vecs s' = vecs s ++ [vec'] ∧
    capacity_ data = size ∧
    represents s' id vec' (replicate size value_init) ∧
    (∀ b, b < length (heap s) → heap s' !! b = heap s !! b).
Proof.
  unfold Vector.sized_ctor. intros Hr.
  apply bind_Ok in Hr as (data & s1 & Hctor & Hr).
  apply bind_Ok in Hr as (x & s2 & Hfill%on_unwind_Ok & Hnew).
  injection Hnew as <- <-. exists data. simpl.
  unfold std.uninitialized_value_construct_n, RawMemory.GetAddress in Hfill.
  destruct size as [|n].
  - rewrite RawMemory_ctor_zero in Hctor. injection Hctor as <- <-.
    apply ret_Ok in Hfill as [_ <-].
    split; [done|]. split; [done|]. split; [done|]. split; [|done].
    repeat split; simpl; [by apply list_lookup_middle | done].
  - apply RawMemory_ctor_Ok in Hctor as (-> & Hh1 & Hv1 & _); [|done].
    set (nb := length (heap s)) in *.
    change (std.uninitialized_value_construct_from (Ptr (Some nb) 0) (S n) 0 s1 = Ok x s2)
      in Hfill.
    assert (lookup_block (heap s1) nb = Some ([] ++ replicate (S n) None ++ [])) as Hd1.
    { rewrite Hh1. unfold nb. by rewrite lookup_block_app_new, app_nil_r. }
    apply (value_construct_Ok _ 0 _ 0 _ _ _ _ _ Hd1 eq_refl) in Hfill
      as (Hd2 & (Hfv & Hfl & Hf) & _).
    rewrite app_nil_r in Hd2. simpl in Hd2.
    split; [by rewrite Hfv, Hv1|]. split; [by rewrite Hfv, Hv1|]. split; [done|].
    split.
    + repeat split; simpl.
      * rewrite Hfv, Hv1. by apply list_lookup_middle.
      * by rewrite length_replicate.
      * rewrite length_replicate. lia.
      * unfold cells_of; simpl. rewrite Hd2, length_replicate, Nat.sub_diag.
        simpl. by rewrite app_nil_r, fmap_replicate.
    + intros b Hb. assert (b ≠ nb) by (unfold nb; lia).
      rewrite Hf by set_solver. rewrite Hh1. by apply lookup_app_l.
Qed.

Lemma sized_ctor_Throw size s s' :
  Vector.sized_ctor size s = Throw s' →
  vecs s' = vecs s ∧ (heap s' = heap s ∨ heap s' = heap s ++ [None]).
Proof.
  unfold Vector.sized_ctor.
  intros [(Hh & Hvs)%RawMemory_ctor_Throw|(data & s1 & Hctor & Hr)]%bind_Throw;
    [by eauto|].
  apply bind_Throw in Hr as [Hr|(? & ? & _ & Hr)]; [|done].
  apply on_unwind_Throw in Hr as (s2 & u & Hbody & Hfree).
  unfold std.uninitialized_value_construct_n in Hbody.
  destruct size as [|n]; [done|].
  apply RawMemory_ctor_Ok in Hctor as (-> & Hh1 & Hv1 & _); [|done].
  assert (only_blocks [length (heap s)] s1 s2) as Hf.
  { revert Hbody. apply throws_in_respects, inside_value_construct.
    unfold points_into; simpl. set_solver. }
  unfold RawMemory.dtor in Hfree; simpl in Hfree.
  apply Deallocate_Ok in Hfree as (Hh3 & Hv3 & _).
  split; [destruct Hf as (? & _); congruence|]. right.
  by eapply fresh_block_released.
Qed.

End constructors.

(** ** Copy assignment *)
Section copy_assignment.
Context {T : Type} `{Elt : Element T}.
Implicit Types (s : state T).

Lemma copy_assign_step_Ok sb i db j s u s' cs :
  sb ≠ db → lookup_block (heap s) sb = Some cs →
  assign CopyAssign (Ptr (Some db) j) (Ptr (Some sb) i) s = Ok u s' →
  ∃ y z cd, cs !! i = Some (Some y) ∧ lookup_block (heap s) db = Some cd ∧
            cd !! j = Some (Some z) ∧
            lookup_block (heap s') db = Some (<[j := Some y]> cd) ∧
            only_blocks [db] s s' ∧
            trace s' = trace s ++ [EvAssign CopyAssign (Slot db j) (Slot sb i)].
Proof.
  intros Hne Hcs. unfold assign.
  intros (y & ? & [-> Hy]%load_Ok & Hr)%bind_Ok.
  rewrite (cell_block _ _ _ _ Hcs) in Hy.
  apply bind_Ok in Hr as (z & ? & [-> Hz]%load_Ok & Hr).
  apply cell_Some in Hz as (cd & Hcd & Hz).
  apply bind_Ok in Hr as (? & s2 & (Hh & Hv & Ht)%may_throw_Ok & Hr).
  apply bind_Ok in Hr as (? & s3 & Hw & Hr).
  apply bind_Ok in Hr as (? & s4 & [_ <-]%ret_Ok & He).
  exists y, z, cd. do 3 (split; [done|]).
  assert (lookup_block (heap s2) db = Some cd) as Hcd2 by (by rewrite Hh).
  apply (write_cell_Ok _ _ _ _ _ _ _ Hcd2) in Hw as (Hb3 & (Hfv & Hfl & Hf) & Ht3).
  apply emit_Ok in He as (Hh5 & Hv5 & Ht5). unfold loc_of in Ht5; simpl in Ht5.
  split; [by rewrite Hh5|]. split; [|congruence].
  repeat split; [congruence.. |].
  intros b' Hb'. rewrite Hh5, Hf, Hh; done.
Qed.

Lemma copy_forward_Ok sb db (ys : list T) : ∀ zs pre_s post_s pre_d post_d s u s',
  sb ≠ db → length zs = length ys →
  lookup_block (heap s) sb = Some (pre_s ++ (Some <$> ys) ++ post_s) →
  lookup_block (heap s) db = Some (pre_d ++ (Some <$> zs) ++ post_d) →
  std.assign_forward CopyAssign (Ptr (Some sb) (length pre_s)) (length ys)
                     (Ptr (Some db) (length pre_d)) s = Ok u s' →
  lookup_block (heap s') db = Some (pre_d ++ (Some <$> ys) ++ post_d) ∧
  only_blocks [db] s s'.
Proof.
  induction ys as [|y ys IH]; intros zs pre_s post_s pre_d post_d s u s' Hne Hl Hs Hd.
  - destruct zs; [|done]. simpl. intros [_ <-]%ret_Ok. split; [done | apply only_blocks_refl].
  - destruct zs as [|z zs]; [done|]. csimpl in Hs; csimpl in Hd; csimpl.
    intros (? & s1 & Ha & Hr)%bind_Ok.
    apply (copy_assign_step_Ok _ _ _ _ _ _ _ _ Hne Hs) in Ha
      as (y' & z' & cd & Hy & Hcd & _ & Hcd' & Hf & _).
    rewrite list_lookup_middle in Hy by done. injection Hy as <-.
    assert (cd = pre_d ++ Some z :: (Some <$> zs) ++ post_d) as -> by congruence.
    rewrite insert_middle in Hcd' by done.
    unfold ptr_add in Hr; simpl in Hr.
    specialize (IH zs (pre_s ++ [Some y]) post_s (pre_d ++ [Some y]) post_d s1 u s' Hne).
    rewrite <- !app_assoc, !length_app in IH. simpl in IH.
    destruct IH as (Hfin & Hf2); [by injection Hl | | done | done |].
    { erewrite only_blocks_lookup; [done | done | set_solver]. }
    split; [done | by eapply only_blocks_trans].
Qed.

Lemma end_of_scope_Ok s u s' :
  Vector.end_of_scope s = Ok u s' →
  heap s' = heap s ∧ vecs s' = removelast (vecs s) ∧ trace s' = trace s.
Proof. by intros [= _ <-]. Qed.

Lemma copy_assign_in_place_Ok this rhs s vec r (xs ys : list T) u s' :
  this ≠ rhs →
  represents s this vec xs →
  represents s rhs r ys →
  (∀ b, buffer_ (data_ vec) = Some b → buffer_ (data_ r) ≠ Some b) →
  size_ r ≤ capacity_ (data_ vec) →
  copy_assign_in_place this vec r s = Ok u s' →
  represents s' this {| data_ := data_ vec; size_ := size_ r |} ys ∧
  represents s' rhs r ys.
Proof.
  intros Hne Hrep Hrepr Hown Hfit Hr.
  pose proof Hrep as (Hv & Hsz & Hle & Hc). pose proof Hrepr as (Hvr & Hszr & Hler & Hcr).
  unfold copy_assign_in_place in Hr. rewrite Hsz, Hszr in Hr. rewrite Hszr in Hfit.
  rewrite Hszr.
  set (n := length xs) in *. set (m := length ys) in *.
  set (cap := capacity_ (data_ vec)) in *.
  apply bind_Ok in Hr as (? & s1 & H1 & Hr).
  apply bind_Ok in Hr as (? & s2 & H2 & Hr).
  apply bind_Ok in Hr as (? & s3 & H3 & Hr).
  apply put_vec_Ok in Hr as (Hh4 & Hv4 & _ & Hv4').
  unfold std.copy in H2.
  apply bind_Ok in H2 as (cnt & ? & (_ & Hcnt & ->)%ptr_diff_Ok & H2).
  unfold RawMemory.GetAddress, ptr_add in *; simpl in *.
  replace cnt with (n `min` m) in H2 by lia. clear Hcnt cnt.
  destruct (represents_storage _ _ _ _ Hrep) as [(Hbuf & -> & Hcap0)|(bt & Hbuf & Hbt & Hblk)].
  { (* the target owns no storage: both vectors are empty *)
    assert (m = 0) as Hm by (fold cap in Hcap0; lia).
    assert (ys = []) as -> by (by apply length_zero_iff_nil).
    subst n m; simpl in *.
    apply ret_Ok in H1 as [_ <-]. apply ret_Ok in H2 as [_ <-]. apply ret_Ok in H3 as [_ <-].
    split.
    - split; [done|]. split; [done|]. split; [simpl; lia|].
      unfold cells_of; simpl. subst cap. by rewrite Hbuf, Hcap0.
    - repeat split; [|done..|].
      + rewrite Hv4. by rewrite list_lookup_insert_ne.
      + by rewrite Hh4. }
  rewrite Hbuf in *.
  set (k := n `min` m) in *.
  (* the surplus of the target is destroyed *)
  assert (lookup_block (heap s1) bt
            = Some ((Some <$> take k xs) ++ replicate (cap - k) None) ∧
          only_blocks [bt] s s1) as [Hb1 Hf1].
  { destruct (Nat.ltb_spec m n) as [Hlt|Hge].
    - assert (k = m) as -> by lia.
      pose proof (destroy_n_Ok bt (drop m xs) (Some <$> take m xs)
                    (replicate (cap - n) None) s x s1) as Hd.
      rewrite length_fmap, length_take, length_drop in Hd.
      fold n in Hd. replace (m `min` n) with m in Hd by lia.
      destruct Hd as (Hd & Hf & _); [| done |].
      { rewrite Hblk. f_equal. rewrite app_assoc, <- fmap_app, take_drop. done. }
      split; [|done]. rewrite Hd. do 2 f_equal.
      rewrite <- replicate_add. f_equal. lia.
    - apply ret_Ok in H1 as [_ <-]. assert (k = n) as -> by lia.
      rewrite take_ge by done. split; [done | apply only_blocks_refl]. }
  assert (cells_of (heap s1) (data_ r) = cells_of (heap s) (data_ r)) as Hr1.
  { unfold cells_of. destruct (buffer_ (data_ r)) as [br|] eqn:Hbr; [|done].
    eapply only_blocks_lookup; [done|]. specialize (Hown bt eq_refl). set_solver. }
  (* the common prefix is assigned *)
  assert (lookup_block (heap s2) bt
            = Some ((Some <$> take k ys) ++ replicate (cap - k) None) ∧
          only_blocks [bt] s1 s2) as [Hb2 Hf2].
  { destruct (represents_storage _ _ _ _ Hrepr)
      as [(Hbr & -> & _)|(br & Hbr & _ & Hblkr)].
    - assert (k = 0) as Hk by (subst k m; simpl; lia). rewrite Hk in *.
      simpl in H2. apply ret_Ok in H2 as [_ <-]. split; [|apply only_blocks_refl].
      by rewrite take_0 in *.
    - rewrite Hbr in *. simpl in H2.
      pose proof (copy_forward_Ok br bt (take k ys) (take k xs) []
                    ((Some <$> drop k ys) ++ replicate (capacity_ (data_ r) - m) None)
                    [] (replicate (cap - k) None) s1 x0 s2) as Hcp.
      rewrite !length_take in Hcp. fold n m in Hcp.
      replace (k `min` n) with k in Hcp by lia.
      replace (k `min` m) with k in Hcp by lia.
      simpl in Hcp. apply Hcp; [| lia | | done | done].
      + intros ->. by eapply Hown.
      + unfold cells_of in Hr1. rewrite Hbr in Hr1. rewrite Hr1, Hblkr. f_equal.
        by rewrite app_assoc, <- fmap_app, take_drop. }
  assert (cells_of (heap s2) (data_ r) = cells_of (heap s) (data_ r)) as Hr2.
  { rewrite <- Hr1. unfold cells_of. destruct (buffer_ (data_ r)) as [br|] eqn:Hbr; [|done].
    eapply only_blocks_lookup; [done|]. specialize (Hown bt eq_refl). set_solver. }
  (* the rest of the source is copy-constructed into raw storage *)
  assert (lookup_block (heap s3) bt
            = Some ((Some <$> ys) ++ replicate (cap - m) None) ∧
          cells_of (heap s3) (data_ r) = cells_of (heap s) (data_ r) ∧
          vecs s3 = vecs s) as (Hb3 & Hr3 & Hv3).
  { destruct (Nat.ltb_spec n m) as [Hlt|Hge].
    - assert (k = n) as Hk by lia. rewrite Hk in *.
      destruct (represents_storage _ _ _ _ Hrepr)
        as [(Hbr & -> & _)|(br & Hbr & _ & Hblkr)]; [simpl in *; lia|].
      rewrite Hbr in *. unfold std.uninitialized_copy_n in H3.
      pose proof (relocate_Ok ByCopy br bt n n (drop n ys) 0 (Some <$> take n ys)
                    (replicate (capacity_ (data_ r) - m) None)
                    (Some <$> take n ys) (replicate (cap - m) None) s2 x1 s3) as Hrl.
      rewrite length_fmap, length_take, length_drop in Hrl. fold m in Hrl.
      destruct Hrl as (Hd3 & Hs3 & (Hfv & _) & _); [| | lia | | lia | done |].
      + intros ->. by eapply Hown.
      + unfold cells_of in Hr2, Hcr. rewrite Hbr in Hr2, Hcr. rewrite Hr2, Hcr. f_equal.
        by rewrite app_assoc, <- fmap_app, take_drop.
      + rewrite Hb2. do 2 f_equal. rewrite <- replicate_add. f_equal. lia.
      + split; [|split].
        * rewrite Hd3. f_equal. by rewrite app_assoc, <- fmap_app, take_drop.
        * unfold cells_of in *. rewrite Hbr in *. rewrite Hs3, Hcr, after_copy. f_equal.
          by rewrite app_assoc, <- fmap_app, take_drop.
        * rewrite Hfv. destruct Hf2 as [-> _]. by destruct Hf1 as [-> _].
    - apply ret_Ok in H3 as [_ <-]. assert (k = m) as Hk by lia. rewrite Hk in *.
      rewrite take_ge in Hb2 by done. split; [done|]. split; [done|].
      destruct Hf2 as [-> _]. by destruct Hf1 as [-> _]. }
  split.
  - split; [done|]. split; [done|]. split; [done|].
    unfold cells_of; simpl. by rewrite Hbuf, Hh4.
  - repeat split; [|done..|].
    + rewrite Hv4, Hv3. by rewrite list_lookup_insert_ne.
    + by rewrite Hh4, Hr3.
Qed.

Lemma copy_assign_Ok this rhs s vec r (xs ys : list T) u s' :
  this ≠ rhs →
  represents s this vec xs →
  represents s rhs r ys →
  (∀ b, buffer_ (data_ vec) = Some b → buffer_ (data_ r) ≠ Some b) →
  Vector.copy_assign this rhs s = Ok u s' →
  ∃ vec', represents s' this vec' ys ∧ represents s' rhs r ys ∧
          (size_ r ≤ capacity_ (data_ vec) → data_ vec' = data_ vec) ∧
          (capacity_ (data_ vec) < size_ r → capacity_ (data_ vec') = size_ r).
Proof.
  intros Hne Hrep Hrepr Hown Hr.
  pose proof Hrep as (Hv & Hsz & Hle & Hc). pose proof Hrepr as (Hvr & Hszr & Hler & Hcr).
  assert (this < length (vecs s)) as Hlt by (by eapply lookup_lt_Some).
  unfold Vector.copy_assign in Hr.
  replace (this =? rhs) with false in Hr by (symmetry; by apply Nat.eqb_neq).
  simpl in Hr.
  apply bind_Ok in Hr as (vec0 & ? & [-> Hv0]%get_vec_Ok & Hr).
  apply bind_Ok in Hr as (r0 & ? & [-> Hvr0]%get_vec_Ok & Hr).
  assert (vec0 = vec) as -> by congruence. assert (r0 = r) as -> by congruence.
  unfold RawMemory.Capacity in Hr.
  destruct (Nat.ltb_spec (capacity_ (data_ vec)) (size_ r)) as [Hbig|Hfit].
  - (* a new copy, swapped in *)
    apply bind_Ok in Hr as (tmp & s1 & Hcopy & Hr).
    apply bind_Ok in Hr as (? & sw & Hswap & Hr).
    apply bind_Ok in Hr as (? & sd & Hdtor & Hend).
    apply (copy_ctor_Ok _ _ _ _ _ _ Hrepr) in Hcopy
      as (data & -> & Hv1 & Hcap & Hfresh & Hrept & Hold & Hlen).
    set (tv := {| data_ := data; size_ := size_ r |}) in *.
    assert (represents s1 this vec xs) as Hrep1.
    { eapply represents_frame; [|  |exact Hrep].
      - by rewrite Hv1, lookup_app_l.
      - intros b Hb. destruct (represents_storage _ _ _ _ Hrep) as [(? & _)|(b' & ? & ? & _)];
          [congruence|]. apply lookup_block_agree, Hold. congruence. }
    assert (represents s1 rhs r ys) as Hrepr1.
    { eapply represents_frame; [|  |exact Hrepr].
      - rewrite Hv1, lookup_app_l; [done | by eapply lookup_lt_Some].
      - intros b Hb. destruct (represents_storage _ _ _ _ Hrepr) as [(? & _)|(b' & ? & ? & _)];
          [congruence|]. apply lookup_block_agree, Hold. congruence. }
    rewrite (Swap_eval this (length (vecs s)) s1 vec tv) in Hswap;
      [|by destruct Hrep1 | by destruct Hrept].
    set (s2 := with_vecs _ s1) in Hswap.
    assert (sw = s2) as -> by congruence.
    assert (vecs s2 = <[this := tv]> (vecs s) ++ [vec]) as Hv2.
    { unfold s2; simpl. rewrite Hv1, insert_app_l by done.
      apply insert_middle. by rewrite length_insert. }
    assert (represents s2 (length (vecs s)) vec xs) as Hrep2.
    { destruct Hrep1 as (_ & ? & ? & ?). repeat split; [|done..].
      rewrite Hv2. apply list_lookup_middle. by rewrite length_insert. }
    destruct (dtor_eval _ _ _ _ Hrep2) as (s3' & Hd & Hv3 & _ & Hh3).
    assert (sd = s3') as -> by congruence.
    apply end_of_scope_Ok in Hend as (Hh4 & Hv4 & _).
    rewrite Hv3, Hv2, removelast_last in Hv4.
    assert (∀ b c, (∀ bt, buffer_ (data_ vec) = Some bt → b ≠ bt) →
                   lookup_block (heap s1) b = Some c →
                   lookup_block (heap s') b = Some c) as Hkeep.
    { intros b c Hb Hbc. rewrite Hh4. destruct (buffer_ (data_ vec)) as [bt|].
      - destruct Hh3 as [-> _]. rewrite lookup_block_insert_ne; [done|].
        intros <-. by eapply Hb.
      - by destruct Hh3 as [-> _]. }
    exists tv. split; [|split; [|split; [intros; lia | intros; simpl; lia]]].
    + destruct Hrept as (_ & ? & ? & Hct). repeat split; [|done..|].
      { rewrite Hv4. by apply list_lookup_insert_eq. }
      unfold cells_of in *. destruct (buffer_ (data_ tv)) as [nb|] eqn:Hnb; [|done].
      apply Hkeep; [|done]. rewrite (Hfresh _ Hnb). intros bt Hbt.
      destruct (represents_storage _ _ _ _ Hrep) as [(? & _)|(b' & ? & ? & _)];
        [congruence|]. assert (b' = bt) as -> by congruence. lia.
    + destruct Hrepr1 as (_ & ? & ? & Hct). repeat split; [|done..|].
      { rewrite Hv4. by rewrite list_lookup_insert_ne. }
      unfold cells_of in *. destruct (buffer_ (data_ r)) as [br|] eqn:Hbr; [|done].
      apply Hkeep; [|done]. intros bt Hbt ->. by eapply Hown.
  - (* element-wise, into the storage the target has *)
    exists {| data_ := data_ vec; size_ := size_ r |}.
    destruct (copy_assign_in_place_Ok _ _ _ _ _ _ _ _ _ Hne Hrep Hrepr Hown Hfit Hr)
      as [? ?].
    split; [done|]. split; [done|]. split; [done | intros; lia].
Qed.

End copy_assignment.

(** ** Calls that cannot leave by an exception, and calls that do *)
Section exceptions.
Context {T : Type} `{Elt : Element T}.
Implicit Types (s : state T).
Local Abbreviation respects := (respects (T:=T)).
Local Abbreviation throws_in := (throws_in (T:=T)).
Local Abbreviation no_throw := (no_throw (T:=T)).

Lemma no_throw_ptr_sub p n : no_throw (ptr_sub p n : M T ptr).
Proof. unfold ptr_sub. destruct (_ <=? _); [apply no_throw_ret | apply no_throw_undefined]. Qed.

Lemma no_throw_new_object vec : no_throw (new_object vec : M T nat).
Proof. by intros s s'. Qed.

Lemma no_throw_end this : no_throw (Vector.end_ this : M T ptr).
Proof. apply no_throw_bind; [apply no_throw_get_vec | intros ?; apply no_throw_ret]. Qed.

Lemma no_throw_cbegin this : no_throw (Vector.cbegin this : M T ptr).
Proof. apply no_throw_bind; [apply no_throw_get_vec | intros ?; apply no_throw_ret]. Qed.

Lemma no_throw_PopBack this : no_throw (Vector.PopBack this : M T unit).
Proof.
  apply no_throw_bind; [apply no_throw_get_vec | intros vec].
  apply no_throw_bind; [apply no_throw_ptr_sub | intros last].
  apply no_throw_bind; [apply no_throw_destroy_n | intros _; apply no_throw_put_vec].
Qed.

Lemma no_throw_Swap this other : no_throw (Vector.Swap this other : M T unit).
Proof.
  apply no_throw_bind; [apply no_throw_get_vec | intros a].
  apply no_throw_bind; [apply no_throw_get_vec | intros b]. simpl.
  apply no_throw_bind; [apply no_throw_put_vec | intros _; apply no_throw_put_vec].
Qed.

Lemma no_throw_move_ctor other : no_throw (Vector.move_ctor other : M T nat).
Proof.
  apply no_throw_bind; [apply no_throw_get_vec | intros o]. simpl.
  apply no_throw_bind; [apply no_throw_put_vec | intros _; apply no_throw_new_object].
Qed.

Lemma no_throw_move_assign this rhs : no_throw (Vector.move_assign this rhs : M T unit).
Proof.
  unfold Vector.move_assign. apply no_throw_if; [|apply no_throw_ret].
  apply no_throw_bind; [apply no_throw_get_vec | intros vec].
  apply no_throw_bind; [apply no_throw_get_vec | intros r].
  apply no_throw_bind.
  { unfold RawMemory.move_assign. apply no_throw_if; [|apply no_throw_ret].
    apply no_throw_bind; [apply no_throw_Deallocate | intros _; apply no_throw_ret]. }
  intros both. apply no_throw_bind; [apply no_throw_put_vec | intros _; apply no_throw_put_vec].
Qed.

Lemma no_throw_dtor this : no_throw (Vector.dtor this : M T unit).
Proof.
  apply no_throw_bind; [apply no_throw_get_vec | intros vec].
  apply no_throw_bind; [apply no_throw_destroy_n | intros _; apply no_throw_Deallocate].
Qed.

Lemma no_throw_move_assign_step (dst src : ptr) :
  is_nothrow_move_assignable = true → no_throw (assign MoveAssign dst src).
Proof.
  intros Hn. apply no_throw_bind; [apply no_throw_load | intros v].
  apply no_throw_bind; [apply no_throw_load | intros _].
  apply no_throw_bind.
  { unfold assign_may_throw. rewrite Hn. apply no_throw_ret. }
  intros _. apply no_throw_bind; [apply no_throw_write_cell | intros _].
  apply no_throw_bind; [apply no_throw_write_cell | intros _; apply no_throw_emit].
Qed.

Lemma no_throw_move_forward n : ∀ first d_first,
  is_nothrow_move_assignable = true →
  no_throw (std.assign_forward MoveAssign first n d_first).
Proof.
  induction n as [|n IH]; intros first d_first Hn; simpl; [apply no_throw_ret|].
  apply no_throw_bind; [by apply no_throw_move_assign_step | intros _; by apply IH].
Qed.

Lemma no_throw_Erase this pos :
  is_nothrow_move_assignable = true → no_throw (Vector.Erase this pos : M T ptr).
Proof.
  intros Hn.
  apply no_throw_bind; [apply no_throw_get_vec | intros vec].
  apply no_throw_bind; [apply no_throw_cbegin | intros cfirst].
  apply no_throw_bind; [apply no_throw_ptr_diff | intros pos_index].
  apply no_throw_bind; [apply no_throw_begin | intros first].
  apply no_throw_bind.
  { apply no_throw_if; [|apply no_throw_ret].
    apply no_throw_bind; [apply no_throw_end | intros e].
    apply no_throw_bind; [apply no_throw_ptr_diff | intros n].
    by apply no_throw_move_forward. }
  intros _. apply no_throw_bind; [apply no_throw_plus | intros past].
  apply no_throw_bind; [apply no_throw_ptr_sub | intros last].
  apply no_throw_bind; [apply no_throw_destroy_at | intros _].
  apply no_throw_bind; [apply no_throw_put_vec | intros _].
  apply no_throw_bind; [apply no_throw_begin | intros ?; apply no_throw_ret].
Qed.

Lemma no_throw_Resize_shrink this n s vec :
  vecs s !! this = Some vec → n ≤ size_ vec → ∀ s', Vector.Resize this n s ≠ Throw s'.
Proof.
  intros Hv Hle s'. unfold Vector.Resize, bind at 1, get_vec. rewrite Hv.
  replace (size_ vec <? n) with false by (symmetry; apply Nat.ltb_ge; lia).
  apply no_throw_bind; [apply no_throw_destroy_n | intros _].
  apply no_throw_bind; [apply no_throw_get_vec | intros ?; apply no_throw_put_vec].
Qed.

(** *** What a failed call leaves behind *)
Lemma may_throw_Throw b s s' :
  may_throw b s = Throw s' → heap s' = heap s ∧ vecs s' = vecs s ∧ trace s' = trace s.
Proof.
  destruct b; [|done]. unfold may_throw, tick.
  destruct (plan s) as [|[] rest]; [done| |done]. by intros [= <-].
Qed.

Lemma construct_at_Throw k p v s s' :
  construct_at k p v s = Throw s' →
  heap s' = heap s ∧ vecs s' = vecs s ∧ trace s' = trace s.
Proof.
  unfold construct_at.
  intros [Hr|(c & s1 & Hc & Hr)]%bind_Throw; [by apply no_throw_read_cell in Hr|].
  assert (s1 = s) as ->.
  { destruct p as [[b|] i]; [by apply read_cell_Ok in Hc as [-> _] | done]. }
  destruct c; [done|].
  apply bind_Throw in Hr as [Hr|(? & ? & _ & Hr)]; [by apply may_throw_Throw in Hr|].
  exfalso. revert Hr.
  apply no_throw_bind; [apply no_throw_write_cell | intros _; apply no_throw_emit].
Qed.

Lemma EmplaceBack_in_place_Throw this v s s' vec :
  vecs s !! this = Some vec →
  size_ vec < capacity_ (data_ vec) →
  Vector.EmplaceBack this v s = Throw s' →
  heap s' = heap s ∧ vecs s' = vecs s ∧ trace s' = trace s.
Proof.
  intros Hv Hroom. unfold Vector.EmplaceBack, bind at 1. rewrite (end_eval _ _ _ Hv).
  unfold Vector.Emplace.
  intros [Hr|(vec0 & ? & [-> Hv0]%get_vec_Ok & Hr)]%bind_Throw;
    [by apply no_throw_get_vec in Hr|].
  assert (vec0 = vec) as -> by congruence.
  apply bind_Throw in Hr as [Hr|(past & ? & (_ & -> & ->)%RawMemory_plus_Ok & Hr)];
    [by apply no_throw_plus in Hr|].
  unfold RawMemory.GetAddress, ptr_add in Hr; simpl in Hr.
  rewrite ptr_eqb_same_base, Nat.eqb_refl in Hr.
  unfold bind at 1 in Hr. simpl in Hr. unfold RawMemory.Capacity in Hr.
  replace (size_ vec =? capacity_ (data_ vec)) with false in Hr
    by (symmetry; apply Nat.eqb_neq; lia).
  apply bind_Throw in Hr as [Hr|(? & ? & _ & Hr)].
  - unfold Vector.EmplaceInCurrentAlloc in Hr.
    apply bind_Throw in Hr as [Hr|(vec0 & ? & [-> Hv1]%get_vec_Ok & Hr)];
      [by apply no_throw_get_vec in Hr|].
    assert (vec0 = vec) as -> by congruence.
    rewrite Nat.ltb_irrefl in Hr.
    apply bind_Throw in Hr as [Hr|(past & ? & (_ & -> & ->)%RawMemory_plus_Ok & Hr)];
      [by apply no_throw_plus in Hr|].
    by apply construct_at_Throw in Hr.
  - exfalso. revert Hr. apply no_throw_bind; [apply no_throw_get_vec | intros ?].
    apply no_throw_bind; [apply no_throw_put_vec | intros ?; apply no_throw_ret].
Qed.

Lemma Reserve_Throw this n s s' :
  is_nothrow_move_constructible = true ∨ is_copy_constructible = true →
  Vector.Reserve this n s = Throw s' →
  vecs s' = vecs s ∧ (heap s' = heap s ∨ heap s' = heap s ++ [None]).
Proof.
  intros Htraits. unfold Vector.Reserve.
  intros [Hr|(vec & ? & [-> Hv]%get_vec_Ok & Hr)]%bind_Throw;
    [by apply no_throw_get_vec in Hr|].
  unfold RawMemory.Capacity in Hr.
  destruct (Nat.leb_spec n (capacity_ (data_ vec))) as [|Hn]; [done|].
  apply bind_Throw in Hr as [(Hh & Hvs)%RawMemory_ctor_Throw|(nd & s1 & Hctor & Hr)];
    [by eauto|].
  apply RawMemory_ctor_Ok in Hctor as (-> & Hh1 & Hv1 & _); [|lia].
  set (nb := length (heap s)) in *.
  apply bind_Throw in Hr as [Hr|(? & ? & _ & Hr)]; [|by apply no_throw_Deallocate in Hr].
  apply on_unwind_Throw in Hr as (s2 & u & Hbody & Hfree).
  rewrite relocation_if in Hbody.
  assert (points_into [nb] (Ptr (Some nb) 0)) as Hnb by (unfold points_into; set_solver).
  assert (only_blocks [nb] s1 s2) as (Hv2 & Hl2 & Hf2).
  { revert Hbody.
    match goal with
    | |- ?m s1 = _ → _ =>
        cut (throws_in (only_blocks [nb]) m); [intros Hin; apply Hin|]
    end.
    match goal with
    | |- throws_in _ (bind _ (λ _, ?tail)) => assert (no_throw tail) as Htail
    end.
    { apply no_throw_bind; [apply no_throw_destroy_n | intros _].
      simpl. apply no_throw_bind; [apply no_throw_put_vec | intros _; apply no_throw_ret]. }
    destruct (is_nothrow_move_constructible) eqn:Hmv.
    - apply throws_in_no_throw.
      assert (relocation_kind = ByMove) as -> by (apply relocation_kind_move; by left).
      apply no_throw_bind; [by apply no_throw_move_n | intros _; apply Htail].
    - destruct Htraits as [?|Hc]; [done|].
      assert (relocation_kind = ByCopy) as -> by (by apply relocation_kind_copy).
      apply throws_in_bind; [apply _ | by apply inside_copy_n | intros _].
      apply throws_in_no_throw, Htail. }
  unfold RawMemory.dtor in Hfree; simpl in Hfree.
  apply Deallocate_Ok in Hfree as (Hh3 & Hv3 & _).
  split; [congruence|]. right.
  apply list_eq. intros i. rewrite Hh3.
  destruct (decide (i = nb)) as [->|Hne].
  - rewrite list_lookup_insert_eq by (rewrite Hl2, Hh1, length_app; simpl; lia).
    by rewrite list_lookup_middle.
  - rewrite list_lookup_insert_ne by done. rewrite Hf2 by set_solver. rewrite Hh1.
    destruct (decide (i < nb)) as [Hlt|Hge].
    + by rewrite !lookup_app_l by done.
    + rewrite !lookup_ge_None_2; [done | rewrite length_app; simpl; lia..].
Qed.

End exceptions.

Section composition.
Context {T : Type} `{Elt : Element T}.
Implicit Types (s : state T).

Lemma represents_of_contents s this vec (xs : list T) :
  contents s this = Some xs → vecs s !! this = Some vec → represents s this vec xs.
Proof.
  intros (vec0 & Hrep)%contents_represents Hv.
  assert (vec0 = vec) as -> by (destruct Hrep as [? _]; congruence). done.
Qed.

Lemma contents_of_represents s this vec (xs : list T) :
  represents s this vec xs → contents s this = Some xs.
Proof. intros. apply contents_represents. eauto. Qed.

(** Objects and blocks that were there before a constructor ran. *)
Lemma represents_older s s' this vec (xs : list T) l :
  vecs s' = vecs s ++ l →
  (∀ b, b < length (heap s) → heap s' !! b = heap s !! b) →
  represents s this vec xs → represents s' this vec xs.
Proof.
  intros Hv Hold Hrep. eapply represents_frame; [| |exact Hrep].
  - rewrite Hv, lookup_app_l; [done|]. destruct Hrep as [? _]. by eapply lookup_lt_Some.
  - intros b Hb. destruct (represents_storage _ _ _ _ Hrep) as [(? & _)|(b' & ? & ? & _)];
      [congruence|]. apply lookup_block_agree, Hold. congruence.
Qed.

Lemma represents_after_failure s s' this vec (xs : list T) :
  vecs s' = vecs s → heap s' = heap s ∨ heap s' = heap s ++ [None] →
  represents s this vec xs → represents s' this vec xs.
Proof.
  intros Hv Hh Hrep. eapply represents_frame; [by rewrite Hv | | exact Hrep].
  intros b Hb. destruct Hh as [->| ->]; [done|].
  destruct (represents_storage _ _ _ _ Hrep) as [(? & _)|(b' & ? & ? & _)]; [congruence|].
  apply lookup_block_agree. rewrite lookup_app_l; [done | congruence].
Qed.

Lemma run_call_Ok this c s vec (xs : list T) u s' :
  represents s this vec xs →
  call_in_range c (length xs) = true →
  run_call this c s = Ok u s' →
  ∃ vec', represents s' this vec' (list_call c xs) ∧
          size_ vec' = size_ vec + 1 ∧
          (size_ vec < capacity_ (data_ vec) → data_ vec' = data_ vec) ∧
          (size_ vec = capacity_ (data_ vec) → capacity_ (data_ vec') = grown (size_ vec)).
Proof.
  intros Hrep Hin Hr. pose proof Hrep as (Hv & _).
  assert (∀ i v, i ≤ length xs →
            (do first <- Vector.begin this; Vector.Emplace this (first +: i) v >> ret tt) s
              = Ok u s' →
            ∃ vec', represents s' this vec' (take i xs ++ v :: drop i xs) ∧
                    size_ vec' = size_ vec + 1 ∧
                    (size_ vec < capacity_ (data_ vec) → data_ vec' = data_ vec) ∧
                    (size_ vec = capacity_ (data_ vec) →
                     capacity_ (data_ vec') = grown (size_ vec))) as Hemplace.
  { intros i v Hi Hrun. unfold bind at 1 in Hrun. rewrite (begin_eval _ _ _ Hv) in Hrun.
    apply bind_Ok in Hrun as (p & s1 & Hrun & [_ <-]%ret_Ok).
    apply (Emplace_Ok _ _ _ _ _ _ _ _ Hrep Hi) in Hrun as (vec' & ? & ? & _ & _ & ? & ?).
    by exists vec'. }
  destruct c as [i v|i v|i v|v|v|v]; simpl in Hin, Hr |- *.
  - apply Hemplace; [by apply Nat.leb_le | done].
  - apply Hemplace; [by apply Nat.leb_le | done].
  - apply Hemplace; [by apply Nat.leb_le | done].
  - by eapply PushBack_Ok.
  - by eapply PushBack_Ok.
  - apply bind_Ok in Hr as (p & s1 & Hr & [_ <-]%ret_Ok).
    apply (EmplaceBack_Ok _ _ _ _ _ _ _ Hrep) in Hr as (vec' & ? & ? & _ & _ & ? & ?).
    by exists vec'.
Qed.

Lemma run_calls_Ok this cs : ∀ s vec (xs ys : list T) u s',
  represents s this vec xs →
  list_calls cs xs = Some ys →
  run_calls this cs s = Ok u s' →
  ∃ vec', represents s' this vec' ys ∧ size_ vec' = size_ vec + length cs.
Proof.
  induction cs as [|c cs IH]; intros s vec xs ys u s' Hrep Hl Hr; simpl in *.
  - injection Hl as <-. apply ret_Ok in Hr as [_ <-]. exists vec. split; [done | lia].
  - destruct (call_in_range c (length xs)) eqn:Hin; [|done].
    apply bind_Ok in Hr as (? & s1 & Hc & Hr).
    apply (run_call_Ok _ _ _ _ _ _ _ Hrep Hin) in Hc as (vec1 & Hrep1 & Hsz1 & _).
    destruct (IH _ _ _ _ _ _ Hrep1 Hl Hr) as (vec' & ? & ?).
    exists vec'. split; [done | lia].
Qed.

Lemma take_drop_inserted (xs : list T) pos v :
  pos ≤ length xs →
  take pos (take pos xs ++ v :: drop pos xs) ++ drop (S pos) (take pos xs ++ v :: drop pos xs)
  = xs.
Proof.
  intros Hpos.
  assert (length (take pos xs) = pos) as Hl by (rewrite length_take; lia).
  rewrite take_app_length' by done.
  assert (drop (S pos) (take pos xs ++ v :: drop pos xs) = drop pos xs) as ->.
  { change (take pos xs ++ v :: drop pos xs) with (take pos xs ++ [v] ++ drop pos xs).
    rewrite app_assoc. apply drop_app_length'. rewrite length_app, Hl. simpl. lia. }
  apply take_drop.
Qed.

Lemma distance_eval this s vec :
  vecs s !! this = Some vec →
  distance this s = Ok (size_ vec) s ∧ cdistance this s = Ok (size_ vec) s.
Proof.
  intros Hv. unfold distance, cdistance.
  change (Vector.cbegin this) with (Vector.begin (T:=T) this).
  change (Vector.cend this) with (Vector.end_ (T:=T) this).
  unfold bind. rewrite (begin_eval _ _ _ Hv), (end_eval _ _ _ Hv).
  unfold ptr_diff, RawMemory.GetAddress, ptr_add; simpl.
  destruct (buffer_ (data_ vec)); rewrite ?Nat.eqb_refl; simpl; by rewrite Nat.sub_0_r.
Qed.

Lemma RawMemory_ctor_dtor n s m s1 :
  RawMemory.ctor n s = Ok m s1 →
  ∃ s2, RawMemory.dtor m s1 = Ok tt s2 ∧
        vecs s2 = vecs s ∧
        heap s2 = heap s ++ (if n =? 0 then [] else [None]) ∧
        trace s2 = trace s ++
          (if n =? 0 then [] else [EvAlloc (length (heap s)) n; EvFree (length (heap s))]).
Proof.
  destruct (Nat.eqb_spec n 0) as [->|Hn].
  - intros [= <- <-]. exists s. by rewrite !app_nil_r.
  - intros (-> & Hh & Hv & Ht)%RawMemory_ctor_Ok; [|done].
    unfold RawMemory.dtor, RawMemory.Deallocate; simpl.
    rewrite Hh, lookup_block_app_new. eexists. split; [done|]. simpl.
    split; [done|]. split.
    + by rewrite insert_middle by done.
    + by rewrite Ht, <- app_assoc.
Qed.

End composition.

(** ** The properties *)
Section further.
Context {T : Type} `{Elt : Element T}.
Implicit Types (s : state T).

(** X1. When [EmplaceBack] returns, the vector holds the old elements
    followed by the new one, its size is one more, and the reference returned
    is to the new last element, at index [size] of the storage the vector has
    afterwards. *)
Theorem EmplaceBack_appends this v s vec (xs : list T) p s' :
  contents s this = Some xs →
  vecs s !! this = Some vec →
  Vector.EmplaceBack this v s = Ok p s' →
  ∃ vec',
    vecs s' !! this = Some vec' ∧
    size_ vec' = size_ vec + 1 ∧
    contents s' this = Some (xs ++ [v]) ∧
    p = RawMemory.GetAddress (data_ vec') +: size_ vec ∧
    load p s' = Ok v s'.
Proof.
  intros Hc Hv Hr. pose proof (represents_of_contents _ _ _ _ Hc Hv) as Hrep.
  apply (EmplaceBack_Ok _ _ _ _ _ _ _ Hrep) in Hr as (vec' & Hrep' & Hsz & -> & Hload & _).
  exists vec'. split; [by destruct Hrep'|]. split; [done|].
  split; [by eapply contents_of_represents|].
  destruct Hrep as (_ & Hs & _). rewrite Hs. by split.
Qed.

(** X2. Growth policy of the insertion family. A call that returns adds one
    element. If the vector had spare capacity it keeps its storage (same
    buffer, same capacity); if it was full, the capacity afterwards is 1 for
    an empty vector and twice the old size otherwise. *)
Theorem insertion_growth_policy this c s vec (xs : list T) u s' :
  contents s this = Some xs →
  vecs s !! this = Some vec →
  call_in_range c (size_ vec) = true →
  run_call this c s = Ok u s' →
  ∃ vec',
    vecs s' !! this = Some vec' ∧
    size_ vec' = size_ vec + 1 ∧
    (size_ vec < capacity_ (data_ vec) → data_ vec' = data_ vec) ∧
    (size_ vec = capacity_ (data_ vec) →
     capacity_ (data_ vec') = if size_ vec =? 0 then 1 else size_ vec * 2).
Proof.
  intros Hc Hv Hin Hr. pose proof (represents_of_contents _ _ _ _ Hc Hv) as Hrep.
  assert (size_ vec = length xs) as Hs by (by destruct Hrep as (_ & ? & _)).
  rewrite Hs in Hin.
  apply (run_call_Ok _ _ _ _ _ _ _ Hrep Hin) in Hr as (vec' & Hrep' & ? & ? & ?).
  exists vec'. split; [by destruct Hrep'|]. by repeat split.
Qed.

(** X3. [PopBack] on a non-empty vector always returns: it removes the last
    element, destroys exactly that one object, keeps the storage, and makes
    no call that could throw. *)
Theorem PopBack_removes_last this s vec (xs : list T) x :
  contents s this = Some (xs ++ [x]) →
  vecs s !! this = Some vec →
  ∃ b s',
    buffer_ (data_ vec) = Some b ∧
    Vector.PopBack this s = Ok tt s' ∧
    vecs s' !! this = Some {| data_ := data_ vec; size_ := size_ vec - 1 |} ∧
    contents s' this = Some xs ∧
    trace s' = trace s ++ [EvDtor (Slot b (length xs))] ∧
    plan s' = plan s.
Proof.
  intros Hc Hv. pose proof (represents_of_contents _ _ _ _ Hc Hv) as Hrep.
  destruct (PopBack_eval _ _ _ _ _ Hrep) as (b & s' & Hb & Hr & Hrep' & Ht & Hp).
  exists b, s'. split; [done|]. split; [done|]. split; [by destruct Hrep'|].
  split; [by eapply contents_of_represents | done].
Qed.

(** X4. Nothing guards [PopBack] against an empty vector: the pointer
    [data_.GetAddress() + size_ - 1] is then formed before the start of the
    storage, which is undefined behaviour, and nothing has been changed when
    that happens. *)
Theorem PopBack_of_empty_is_undefined this s :
  contents s this = Some ([] : list T) →
  Vector.PopBack this s = Undef BadPointerArith s.
Proof.
  intros (vec & Hrep)%contents_represents. by eapply PopBack_empty.
Qed.

(** X5. [PushBack] followed by [PopBack] gives back the elements the vector
    had: once the [PushBack] has returned, the [PopBack] returns too, and the
    contents are the original ones (the capacity may have grown). *)
Theorem PushBack_PopBack_round_trip this v s (xs : list T) u s1 :
  contents s this = Some xs →
  Vector.PushBack this v s = Ok u s1 →
  ∃ s2, Vector.PopBack this s1 = Ok tt s2 ∧ contents s2 this = Some xs.
Proof.
  intros (vec & Hrep)%contents_represents Hr.
  apply (PushBack_Ok _ _ _ _ _ _ _ Hrep) in Hr as (vec' & Hrep' & _).
  destruct (PopBack_eval _ _ _ _ _ Hrep') as (b & s2 & _ & Hr & Hrep2 & _).
  exists s2. split; [done | by eapply contents_of_represents].
Qed.

(** X6. [Erase] at the iterator that [Emplace] returned undoes the
    insertion: the contents are the original ones and the iterator [Erase]
    returns is the one it was given. *)
Theorem Emplace_Erase_round_trip this pos_index v s vec (xs : list T) p s1 q s2 :
  contents s this = Some xs →
  vecs s !! this = Some vec →
  pos_index ≤ length xs →
  Vector.Emplace this (RawMemory.GetAddress (data_ vec) +: pos_index) v s = Ok p s1 →
  Vector.Erase this p s1 = Ok q s2 →
  contents s2 this = Some xs ∧ q = p.
Proof.
  intros Hc Hv Hpos Hr1 Hr2. pose proof (represents_of_contents _ _ _ _ Hc Hv) as Hrep.
  apply (Emplace_Ok _ _ _ _ _ _ _ _ Hrep Hpos) in Hr1 as (vec' & Hrep' & _ & -> & _).
  apply (Erase_Ok _ _ _ _ _ _ _ Hrep') in Hr2 as (b & Hb & Hrep2 & -> & _).
  - rewrite take_drop_inserted in Hrep2 by done.
    split; [by eapply contents_of_represents | by rewrite Hb].
  - rewrite length_app, length_take. simpl. rewrite length_drop. lia.
Qed.

(** X7. [Resize] to a size not above the current one always returns: the
    vector keeps its first [new_size] elements and its storage, the elements
    from index [new_size] on are destroyed in index order, and no call that
    could throw is made. *)
Theorem Resize_shrinks this new_size s vec (xs : list T) :
  contents s this = Some xs →
  vecs s !! this = Some vec →
  new_size ≤ length xs →
  ∃ s',
    Vector.Resize this new_size s = Ok tt s' ∧
    vecs s' !! this = Some {| data_ := data_ vec; size_ := new_size |} ∧
    contents s' this = Some (take new_size xs) ∧
    trace s' = trace s ++
      match buffer_ (data_ vec) with
      | Some b => (λ i, EvDtor (Slot b i)) <$> seq new_size (length xs - new_size)
      | None => []
      end ∧
    plan s' = plan s.
Proof.
  intros Hc Hv Hle. pose proof (represents_of_contents _ _ _ _ Hc Hv) as Hrep.
  destruct (Resize_shrink_eval _ _ _ _ _ Hrep Hle) as (s' & Hr & Hrep' & Ht & Hp).
  exists s'. split; [done|]. split; [by destruct Hrep'|].
  split; [by eapply contents_of_represents | done].
Qed.

(** X8. When [Resize] to a larger size returns, the old elements are
    followed by value-initialized ones up to the new size; the capacity is
    the larger of the old capacity and the new size, and the storage is kept
    when the new size fits into it. *)
Theorem Resize_grows this new_size s vec (xs : list T) u s' :
  contents s this = Some xs →
  vecs s !! this = Some vec →
  length xs < new_size →
  Vector.Resize this new_size s = Ok u s' →
  ∃ vec',
    vecs s' !! this = Some vec' ∧
    size_ vec' = new_size ∧
    contents s' this = Some (xs ++ replicate (new_size - length xs) value_init) ∧
    capacity_ (data_ vec') = capacity_ (data_ vec) `max` new_size ∧
    (new_size ≤ capacity_ (data_ vec) → data_ vec' = data_ vec).
Proof.
  intros Hc Hv Hlt Hr. pose proof (represents_of_contents _ _ _ _ Hc Hv) as Hrep.
  apply (Resize_grow_Ok _ _ _ _ _ _ _ Hrep Hlt) in Hr as (vec' & Hrep' & ? & ? & ?).
  exists vec'. split; [by destruct Hrep'|]. split; [done|].
  split; [by eapply contents_of_represents | done].
Qed.

(** X9. [Resize] up and back down restores the elements: after a successful
    [Resize] to a larger size, [Resize] to the old size returns and the
    contents are the original ones. *)
Theorem Resize_round_trip this new_size s (xs : list T) u s1 :
  contents s this = Some xs →
  length xs < new_size →
  Vector.Resize this new_size s = Ok u s1 →
  ∃ s2, Vector.Resize this (length xs) s1 = Ok tt s2 ∧ contents s2 this = Some xs.
Proof.
  intros (vec & Hrep)%contents_represents Hlt Hr.
  apply (Resize_grow_Ok _ _ _ _ _ _ _ Hrep Hlt) in Hr as (vec' & Hrep' & _).
  destruct (Resize_shrink_eval this (length xs) _ _ _ Hrep') as (s2 & Hr & Hrep2 & _).
  { rewrite length_app. lia. }
  exists s2. split; [done|]. rewrite take_app_length in Hrep2.
  by eapply contents_of_represents.
Qed.

(** X10. When [Vector(size)] returns, the new vector holds [size]
    value-initialized elements in storage of capacity exactly [size], and
    every vector that existed before has the contents it had. *)
Theorem sized_ctor_value_initializes size s id s' :
  Vector.sized_ctor size s = Ok id s' →
  id = length (vecs s) ∧
  (∃ vec', vecs s' = vecs s ++ [vec'] ∧ size_ vec' = size ∧
           capacity_ (data_ vec') = size) ∧
  contents s' id = Some (replicate size value_init) ∧
  ∀ this (ys : list T), contents s this = Some ys → contents s' this = Some ys.
Proof.
  intros (data & -> & Hv & Hcap & Hrep & Hold)%sized_ctor_Ok.
  split; [done|]. split; [by eexists|].
  split; [by eapply contents_of_represents|].
  intros this ys (vec & Hrep0)%contents_represents.
  eapply contents_of_represents, represents_older; done.
Qed.

(** X11. When [Vector(size)] leaves by an exception, no vector was created,
    the storage it had obtained has been released (or was never obtained),
    and every existing vector has the contents it had. *)
Theorem sized_ctor_failure_leaves_nothing size s s' :
  Vector.sized_ctor size s = Throw s' →
  vecs s' = vecs s ∧
  (heap s' = heap s ∨ heap s' = heap s ++ [None]) ∧
  ∀ this (ys : list T), contents s this = Some ys → contents s' this = Some ys.
Proof.
  intros (Hv & Hh)%sized_ctor_Throw. split; [done|]. split; [done|].
  intros this ys (vec & Hrep0)%contents_represents.
  eapply contents_of_represents, represents_after_failure; done.
Qed.

(** X12. When the copy constructor returns, the new vector holds the same
    elements as the source in storage of its own, of capacity exactly the
    size of the source, and every vector that existed before, the source
    among them, has the contents it had. *)
Theorem copy_ctor_copies other s o (xs : list T) id s' :
  contents s other = Some xs →
  vecs s !! other = Some o →
  Vector.copy_ctor other s = Ok id s' →
  id = length (vecs s) ∧
  (∃ vec', vecs s' = vecs s ++ [vec'] ∧ size_ vec' = size_ o ∧
           capacity_ (data_ vec') = size_ o ∧
           ∀ b, buffer_ (data_ vec') = Some b → buffer_ (data_ o) ≠ Some b) ∧
  contents s' id = Some xs ∧
  ∀ this (ys : list T), contents s this = Some ys → contents s' this = Some ys.
Proof.
  intros Hc Hv Hr. pose proof (represents_of_contents _ _ _ _ Hc Hv) as Hrep.
  apply (copy_ctor_Ok _ _ _ _ _ _ Hrep) in Hr
    as (data & -> & Hv' & Hcap & Hfresh & Hrep' & Hold & _).
  split; [done|]. split.
  { eexists. split; [done|]. split; [done|]. simpl.
    split; [by destruct Hrep as (_ & -> & _)|].
    intros b Hb Hob. apply Hfresh in Hb as ->.
    destruct (represents_storage _ _ _ _ Hrep) as [(? & _)|(b' & ? & ? & _)];
      [congruence|]. assert (b' = length (heap s)) by congruence. lia. }
  split; [by eapply contents_of_represents|].
  intros this ys (vec & Hrep0)%contents_represents.
  eapply contents_of_represents, represents_older; done.
Qed.

(** X13. When the copy constructor leaves by an exception, no vector was
    created, the storage it had obtained has been released (or was never
    obtained), and every existing vector, the source among them, has the
    contents it had. *)
Theorem copy_ctor_failure_leaves_nothing other s s' :
  Vector.copy_ctor other s = Throw s' →
  vecs s' = vecs s ∧
  (heap s' = heap s ∨ heap s' = heap s ++ [None]) ∧
  ∀ this (ys : list T), contents s this = Some ys → contents s' this = Some ys.
Proof.
  intros (Hv & Hh)%copy_ctor_Throw. split; [done|]. split; [done|].
  intros this ys (vec & Hrep0)%contents_represents.
  eapply contents_of_represents, represents_after_failure; done.
Qed.

(** X14. The move constructor always returns: the new vector takes over the
    storage and the elements of the source, the source is left empty without
    storage, and neither the heap nor the log of element operations changes:
    no element is constructed, moved or destroyed and nothing is allocated. *)
Theorem move_ctor_transfers other s o (xs : list T) :
  contents s other = Some xs →
  vecs s !! other = Some o →
  ∃ s',
    Vector.move_ctor other s = Ok (length (vecs s)) s' ∧
    vecs s' !! length (vecs s) = Some o ∧
    contents s' (length (vecs s)) = Some xs ∧
    vecs s' !! other = Some {| data_ := RawMemory.default_ctor; size_ := 0 |} ∧
    contents s' other = Some [] ∧
    heap s' = heap s ∧ trace s' = trace s ∧ plan s' = plan s.
Proof.
  intros Hc Hv. pose proof (represents_of_contents _ _ _ _ Hc Hv) as Hrep.
  assert (other < length (vecs s)) as Hlt by (by eapply lookup_lt_Some).
  eexists. split; [by apply move_ctor_eval|]. simpl.
  assert ((<[other := {| data_ := RawMemory.default_ctor; size_ := 0 |}]> (vecs s) ++ [o])
            !! length (vecs s) = Some o) as Hnew.
  { apply list_lookup_middle. by rewrite length_insert. }
  assert ((<[other := {| data_ := RawMemory.default_ctor; size_ := 0 |}]> (vecs s) ++ [o])
            !! other = Some {| data_ := RawMemory.default_ctor; size_ := 0 |}) as Hold.
  { rewrite lookup_app_l by (by rewrite length_insert). by apply list_lookup_insert_eq. }
  split; [done|]. split.
  { eapply contents_of_represents. destruct Hrep as (_ & ? & ? & ?). by repeat split. }
  split; [done|]. split; [|done].
  eapply contents_of_represents. by apply represents_empty.
Qed.

(** X15. Destroying a moved-from vector touches nothing: after the move
    constructor, the destructor of the source returns without destroying an
    element or releasing a block, and the new vector still holds the
    elements. *)
Theorem moved_from_vector_destroys_nothing other s (xs : list T) id s1 :
  contents s other = Some xs →
  Vector.move_ctor other s = Ok id s1 →
  ∃ s2,
    Vector.dtor other s1 = Ok tt s2 ∧
    heap s2 = heap s1 ∧ trace s2 = trace s1 ∧
    contents s2 id = Some xs.
Proof.
  intros (o & Hrep)%contents_represents Hr. pose proof Hrep as (Hv & Hsz & Hle & Hc).
  assert (other < length (vecs s)) as Hlt by (by eapply lookup_lt_Some).
  rewrite (move_ctor_eval _ _ _ Hv) in Hr. injection Hr as <- <-.
  set (s1 := with_vecs _ s).
  assert (represents s1 other {| data_ := RawMemory.default_ctor; size_ := 0 |} ([] : list T))
    as Hempty.
  { apply represents_empty. unfold s1; simpl.
    rewrite lookup_app_l by (by rewrite length_insert). by apply list_lookup_insert_eq. }
  destruct (dtor_eval _ _ _ _ Hempty) as (s2 & Hd & Hv2 & _ & Hh2 & Ht2).
  exists s2. split; [done|]. split; [done|]. split; [done|].
  eapply contents_of_represents. repeat split; [|done..|].
  - rewrite Hv2. unfold s1; simpl. apply list_lookup_middle. by rewrite length_insert.
  - by rewrite Hh2.
Qed.

(** X16. Move assignment between two different vectors that own different
    storage always returns: the target takes over the storage and the
    elements of the source, the source is left empty without storage, and no
    call that could throw is made. *)
Theorem move_assign_transfers this rhs s vec r (xs ys : list T) :
  this ≠ rhs →
  contents s this = Some xs →
  contents s rhs = Some ys →
  vecs s !! this = Some vec →
  vecs s !! rhs = Some r →
  (∀ b, buffer_ (data_ vec) = Some b → buffer_ (data_ r) ≠ Some b) →
  ∃ s',
    Vector.move_assign this rhs s = Ok tt s' ∧
    vecs s' !! this = Some r ∧
    contents s' this = Some ys ∧
    vecs s' !! rhs = Some {| data_ := RawMemory.default_ctor; size_ := 0 |} ∧
    contents s' rhs = Some [] ∧
    plan s' = plan s.
Proof.
  intros Hne Hc Hcr Hv Hvr Hown.
  pose proof (represents_of_contents _ _ _ _ Hc Hv) as Hrep.
  pose proof (represents_of_contents _ _ _ _ Hcr Hvr) as Hrepr.
  assert (this < length (vecs s)) as Hlt by (by eapply lookup_lt_Some).
  assert (rhs < length (vecs s)) as Hltr by (by eapply lookup_lt_Some).
  destruct (move_assign_eval this rhs s vec r Hne Hv Hvr) as (s' & Hr & Hv' & Hp & Hh).
  { destruct Hrep as (_ & _ & _ & ->). by eexists. }
  assert (vecs s' !! this = Some r) as Hthis.
  { rewrite Hv', list_lookup_insert_ne by done. by apply list_lookup_insert_eq. }
  assert (vecs s' !! rhs = Some {| data_ := RawMemory.default_ctor; size_ := 0 |}) as Hrhs.
  { rewrite Hv'. apply list_lookup_insert_eq. by rewrite length_insert. }
  exists s'. split; [done|]. split; [done|]. split.
  { eapply contents_of_represents. destruct Hrepr as (_ & ? & ? & Hcells).
    repeat split; [done..|]. rewrite <- Hcells. unfold cells_of.
    destruct (buffer_ (data_ r)) as [br|] eqn:Hbr; [|done].
    destruct (buffer_ (data_ vec)) as [b|] eqn:Hb.
    - destruct Hh as [-> _]. apply lookup_block_insert_ne. intros ->. by eapply Hown.
    - by destruct Hh as [-> _]. }
  split; [done|]. split; [|done].
  eapply contents_of_represents. by apply represents_empty.
Qed.

(** X17. The destructor always returns: it destroys the elements, each once
    and in index order, then releases the block; a vector without storage is
    destroyed without any effect. *)
Theorem dtor_destroys_then_releases this s vec (xs : list T) :
  contents s this = Some xs →
  vecs s !! this = Some vec →
  ∃ s',
    Vector.dtor this s = Ok tt s' ∧
    vecs s' = vecs s ∧ plan s' = plan s ∧
    match buffer_ (data_ vec) with
    | Some b =>
        heap s' = <[b := None]> (heap s) ∧
        trace s' = trace s ++ ((λ i, EvDtor (Slot b i)) <$> seq 0 (length xs))
                           ++ [EvFree b]
    | None => heap s' = heap s ∧ trace s' = trace s
    end.
Proof.
  intros Hc Hv. eapply dtor_eval, represents_of_contents; done.
Qed.

(** X18. When copy assignment between two different vectors that own
    different storage returns, the target holds the elements of the source
    and the source is unchanged. If the size of the source fits into the
    capacity of the target, the target keeps its storage; otherwise its
    capacity afterwards is exactly the size of the source. *)
Theorem copy_assign_copies this rhs s vec r (xs ys : list T) u s' :
  this ≠ rhs →
  contents s this = Some xs →
  contents s rhs = Some ys →
  vecs s !! this = Some vec →
  vecs s !! rhs = Some r →
  (∀ b, buffer_ (data_ vec) = Some b → buffer_ (data_ r) ≠ Some b) →
  Vector.copy_assign this rhs s = Ok u s' →
  ∃ vec',
    vecs s' !! this = Some vec' ∧
    size_ vec' = size_ r ∧
    contents s' this = Some ys ∧
    vecs s' !! rhs = Some r ∧
    contents s' rhs = Some ys ∧
    (size_ r ≤ capacity_ (data_ vec) → data_ vec' = data_ vec) ∧
    (capacity_ (data_ vec) < size_ r → capacity_ (data_ vec') = size_ r).
Proof.
  intros Hne Hc Hcr Hv Hvr Hown Hr.
  pose proof (represents_of_contents _ _ _ _ Hc Hv) as Hrep.
  pose proof (represents_of_contents _ _ _ _ Hcr Hvr) as Hrepr.
  destruct (copy_assign_Ok _ _ _ _ _ _ _ _ _ Hne Hrep Hrepr Hown Hr)
    as (vec' & Hrep' & Hrepr' & ? & ?).
  exists vec'. split; [by destruct Hrep'|].
  split; [destruct Hrep' as (_ & -> & _); by destruct Hrepr as (_ & -> & _)|].
  split; [by eapply contents_of_represents|]. split; [by destruct Hrepr'|].
  split; [by eapply contents_of_represents | done].
Qed.

(** X19. [operator[]] is checked by an assertion: an index below the size
    gives the address of that element, where its value is read, and changes
    nothing; an index at or above the size fails the assertion. *)
Theorem index_is_checked this s vec (xs : list T) :
  contents s this = Some xs →
  vecs s !! this = Some vec →
  (∀ i x, xs !! i = Some x →
     Vector.index this i s = Ok (RawMemory.GetAddress (data_ vec) +: i) s ∧
     load (RawMemory.GetAddress (data_ vec) +: i) s = Ok x s) ∧
  (∀ i, length xs ≤ i → Vector.index this i s = Undef AssertFailed s).
Proof.
  intros Hc Hv. pose proof (represents_of_contents _ _ _ _ Hc Hv) as Hrep. split.
  - intros i x Hi. destruct (index_eval _ _ _ _ _ _ Hrep Hi) as (b & Hb & ? & ?).
    unfold RawMemory.GetAddress, ptr_add; simpl. by rewrite Hb.
  - intros i Hi. apply index_out_of_range with (vec := vec); [done|].
    destruct Hrep as (_ & -> & _). done.
Qed.

(** X20. The functions declared [noexcept] keep their promise, and so does
    the destructor: [PopBack], the move constructor, move assignment and
    [~Vector] never leave by an exception, whatever the state. *)
Theorem noexcept_functions_never_throw (this other : nat) :
  no_throw (T:=T) (Vector.PopBack this) ∧
  no_throw (T:=T) (Vector.move_ctor other) ∧
  no_throw (T:=T) (Vector.move_assign this other) ∧
  no_throw (T:=T) (Vector.dtor this).
Proof.
  split; [apply no_throw_PopBack|]. split; [apply no_throw_move_ctor|].
  split; [apply no_throw_move_assign | apply no_throw_dtor].
Qed.

(** X21. [Erase] is declared [noexcept(is_nothrow_move_assignable_v<T>)]:
    when move assignment of [T] cannot throw, [Erase] never leaves by an
    exception. *)
Theorem Erase_never_throws_when_declared this pos :
  is_nothrow_move_assignable = true →
  no_throw (T:=T) (Vector.Erase this pos).
Proof. apply no_throw_Erase. Qed.

(** X22. When a growing [Reserve] leaves by an exception and relocation
    cannot be a throwing move, the vector is untouched: same object, same
    elements, and the new block has been released or was never obtained. *)
Theorem Reserve_failure_leaves_vector_unchanged this new_capacity s s' (xs : list T) :
  contents s this = Some xs →
  is_nothrow_move_constructible = true ∨ is_copy_constructible = true →
  Vector.Reserve this new_capacity s = Throw s' →
  vecs s' = vecs s ∧
  contents s' this = Some xs ∧
  (heap s' = heap s ∨ heap s' = heap s ++ [None]).
Proof.
  intros (vec & Hrep)%contents_represents Htraits Hr.
  destruct (Reserve_Throw _ _ _ _ Htraits Hr) as (Hv & Hh).
  split; [done|]. split; [|done].
  eapply contents_of_represents, represents_after_failure; done.
Qed.

(** X23. Once [Reserve(n)] has returned, [Reserve(m)] for any [m <= n]
    returns at once and changes nothing. *)
Theorem Reserve_then_smaller_is_noop this n m s u s' :
  Vector.Reserve this n s = Ok u s' →
  m ≤ n →
  Vector.Reserve this m s' = Ok tt s'.
Proof.
  intros (vec' & Hv & Hcap)%Reserve_capacity Hle.
  apply Reserve_noop with (vec := vec'); [done | lia].
Qed.

(** X24. For every element type: when [PushBack] or [EmplaceBack] on a
    vector with spare capacity leaves by an exception (the constructor of the
    new element threw), the heap, the vector objects and the log of element
    operations are exactly as before the call. *)
Theorem append_in_place_failure_changes_nothing this c v s s' vec :
  vecs s !! this = Some vec →
  size_ vec < capacity_ (data_ vec) →
  c = Call_PushBack v ∨ c = Call_PushBack_rvalue v ∨ c = Call_EmplaceBack v →
  run_call this c s = Throw s' →
  heap s' = heap s ∧ vecs s' = vecs s ∧ trace s' = trace s.
Proof.
  intros Hv Hroom [->|[->| ->]]; simpl; unfold Vector.PushBack, Vector.PushBack_rvalue;
    intros Hr%bind_ret_Throw; by eapply EmplaceBack_in_place_Throw.
Qed.

(** X25. A sequence of insertion calls acts on the elements as the same
    sequence of list insertions: when every position is within range at its
    turn and the calls all return, the vector holds the list obtained by
    inserting each value at its index (or appending it), and its size has
    grown by the number of calls. *)
Theorem insertions_refine_list this cs s vec (xs ys : list T) u s' :
  contents s this = Some xs →
  vecs s !! this = Some vec →
  list_calls cs xs = Some ys →
  run_calls this cs s = Ok u s' →
  ∃ vec',
    vecs s' !! this = Some vec' ∧
    size_ vec' = size_ vec + length cs ∧
    contents s' this = Some ys.
Proof.
  intros Hc Hv Hl Hr. pose proof (represents_of_contents _ _ _ _ Hc Hv) as Hrep.
  destruct (run_calls_Ok _ _ _ _ _ _ _ _ Hrep Hl Hr) as (vec' & Hrep' & ?).
  exists vec'. split; [by destruct Hrep'|]. split; [done|].
  by eapply contents_of_represents.
Qed.

(** X26. The iterator range spans the elements: [end() - begin()] and
    [cend() - cbegin()] are both the size, and taking them changes nothing. *)
Theorem iterator_range_is_size this s vec :
  vecs s !! this = Some vec →
  distance (T:=T) this s = Ok (size_ vec) s ∧
  cdistance (T:=T) this s = Ok (size_ vec) s.
Proof. apply distance_eval. Qed.

(** X27. [RawMemory] releases what it allocated: after [RawMemory(n)], the
    destructor returns, and together they leave one released block behind
    ([n > 0]) or nothing at all ([n = 0], no allocation); the objects are
    untouched. *)
Theorem RawMemory_releases_its_block n s m s1 :
  RawMemory.ctor (T:=T) n s = Ok m s1 →
  ∃ s2,
    RawMemory.dtor m s1 = Ok tt s2 ∧
    vecs s2 = vecs s ∧
    heap s2 = heap s ++ (if n =? 0 then [] else [None]) ∧
    trace s2 = trace s ++
      (if n =? 0 then [] else [EvAlloc (length (heap s)) n; EvFree (length (heap s))]).
Proof. apply RawMemory_ctor_dtor. Qed.

End further.

(** ** Runs of the further properties *)
Lemma EmplaceBack_appends_witness :
  let s := two_of_four [] in
  let s' := final (Vector.EmplaceBack (Elt:=NothrowMovable) 0 9 s) in
  contents s' 0 = Some [1; 2; 9] ∧ load (Ptr (Some 0) 2) s' = Ok 9 s'.
Proof.
  intros s s'.
  destruct (EmplaceBack_appends (Elt:=NothrowMovable) 0 9 s (vector_at 0 4 2) [1; 2]
              (Ptr (Some 0) 2) s')
    as (vec' & _ & _ & Hc & _ & Hl);
    [reflexivity | reflexivity | vm_compute; reflexivity | exact (conj Hc Hl)].
Defined.

Lemma insertion_growth_policy_witness :
  ∃ vec', vecs (final (run_call (Elt:=NothrowMovable) 0 (Call_PushBack 7) (fresh []))) !! 0
            = Some vec' ∧
          capacity_ (data_ vec') = 1.
Proof.
  destruct (insertion_growth_policy (Elt:=NothrowMovable) 0 (Call_PushBack 7) (fresh [])
              empty_vector [] tt
              (final (run_call (Elt:=NothrowMovable) 0 (Call_PushBack 7) (fresh []))))
    as (vec' & Hv & _ & _ & Hcap);
    [reflexivity | reflexivity | reflexivity | vm_compute; reflexivity |].
  exists vec'. split; [exact Hv | apply Hcap; reflexivity].
Defined.

Lemma PopBack_removes_last_witness :
  contents (final (Vector.PopBack 0 (two_of_four []))) 0 = Some [1].
Proof.
  destruct (PopBack_removes_last 0 (two_of_four []) (vector_at 0 4 2) [1] 2)
    as (b & s' & _ & Hr & _ & Hc & _); [reflexivity | reflexivity |].
  rewrite Hr. exact Hc.
Defined.

Lemma PopBack_of_empty_is_undefined_witness :
  Vector.PopBack (T:=nat) 0 (fresh []) = Undef BadPointerArith (fresh []).
Proof. apply PopBack_of_empty_is_undefined. reflexivity. Defined.

Lemma PushBack_PopBack_round_trip_witness :
  let s1 := final (Vector.PushBack (Elt:=NothrowMovable) 0 3 (full_of_two [])) in
  contents (final (Vector.PopBack 0 s1)) 0 = Some [1; 2].
Proof.
  intros s1.
  destruct (PushBack_PopBack_round_trip (Elt:=NothrowMovable) 0 3 (full_of_two []) [1; 2] tt s1)
    as (s2 & Hr & Hc); [reflexivity | vm_compute; reflexivity |].
  rewrite Hr. exact Hc.
Defined.

Lemma Emplace_Erase_round_trip_witness :
  let s := two_of_four [] in
  let p := Ptr (Some 0) 1 in
  let s1 := final (Vector.Emplace (Elt:=NothrowMovable) 0 p 9 s) in
  contents (final (Vector.Erase (Elt:=NothrowMovable) 0 p s1)) 0 = Some [1; 2].
Proof.
  intros s p s1.
  destruct (Emplace_Erase_round_trip (Elt:=NothrowMovable) 0 1 9 s (vector_at 0 4 2) [1; 2]
              p s1 p (final (Vector.Erase (Elt:=NothrowMovable) 0 p s1)))
    as [Hc _];
    [reflexivity | reflexivity | simpl; lia | vm_compute; reflexivity
    | vm_compute; reflexivity | exact Hc].
Defined.

Lemma Resize_shrinks_witness :
  contents (final (Vector.Resize (Elt:=NothrowMovable) 0 1 (two_of_four []))) 0 = Some [1].
Proof.
  destruct (Resize_shrinks (Elt:=NothrowMovable) 0 1 (two_of_four []) (vector_at 0 4 2) [1; 2])
    as (s' & Hr & _ & Hc & _); [reflexivity | reflexivity | simpl; lia |].
  rewrite Hr. exact Hc.
Defined.

Lemma Resize_grows_witness :
  contents (final (Vector.Resize (Elt:=NothrowMovable) 0 5 (two_of_four []))) 0
  = Some [1; 2; 0; 0; 0].
Proof.
  destruct (Resize_grows (Elt:=NothrowMovable) 0 5 (two_of_four []) (vector_at 0 4 2) [1; 2] tt
              (final (Vector.Resize (Elt:=NothrowMovable) 0 5 (two_of_four []))))
    as (vec' & _ & _ & Hc & _);
    [reflexivity | reflexivity | simpl; lia | vm_compute; reflexivity | exact Hc].
Defined.

Lemma Resize_round_trip_witness :
  let s1 := final (Vector.Resize (Elt:=NothrowMovable) 0 5 (two_of_four [])) in
  contents (final (Vector.Resize (Elt:=NothrowMovable) 0 2 s1)) 0 = Some [1; 2].
Proof.
  intros s1.
  destruct (Resize_round_trip (Elt:=NothrowMovable) 0 5 (two_of_four []) [1; 2] tt s1)
    as (s2 & Hr & Hc); [reflexivity | simpl; lia | vm_compute; reflexivity |].
  simpl in Hr. rewrite Hr. exact Hc.
Defined.

Lemma sized_ctor_value_initializes_witness :
  contents (final (Vector.sized_ctor (Elt:=NothrowMovable) 3 (fresh []))) 1 = Some [0; 0; 0].
Proof.
  destruct (sized_ctor_value_initializes (Elt:=NothrowMovable) 3 (fresh []) 1
              (final (Vector.sized_ctor (Elt:=NothrowMovable) 3 (fresh []))))
    as (_ & _ & Hc & _); [vm_compute; reflexivity | exact Hc].
Defined.

Lemma sized_ctor_failure_leaves_nothing_witness :
  let s := fresh [false; false; true] in
  let s' := final (Vector.sized_ctor (Elt:=NothrowMovable) 3 s) in
  vecs s' = vecs s ∧ heap s' = [None].
Proof.
  intros s s'.
  destruct (sized_ctor_failure_leaves_nothing (Elt:=NothrowMovable) 3 s s')
    as (Hv & Hh & _); [vm_compute; reflexivity |].
  split; [exact Hv | reflexivity].
Defined.

Lemma copy_ctor_copies_witness :
  contents (final (Vector.copy_ctor (Elt:=NothrowMovable) 1 two_vectors)) 2 = Some [5; 6].
Proof.
  destruct (copy_ctor_copies (Elt:=NothrowMovable) 1 two_vectors (vector_at 1 3 2) [5; 6] 2
              (final (Vector.copy_ctor (Elt:=NothrowMovable) 1 two_vectors)))
    as (_ & _ & Hc & _); [reflexivity | reflexivity | vm_compute; reflexivity | exact Hc].
Defined.

Lemma copy_ctor_failure_leaves_nothing_witness :
  let s := with_plan [false; false; true] two_vectors in
  let s' := final (Vector.copy_ctor (Elt:=NothrowMovable) 1 s) in
  vecs s' = vecs s ∧ contents s' 1 = Some [5; 6].
Proof.
  intros s s'.
  destruct (copy_ctor_failure_leaves_nothing (Elt:=NothrowMovable) 1 s s')
    as (Hv & _ & Hc); [vm_compute; reflexivity |].
  split; [exact Hv | apply Hc; reflexivity].
Defined.

Lemma move_ctor_transfers_witness :
  let s' := final (Vector.move_ctor 1 two_vectors) in
  contents s' 2 = Some [5; 6] ∧ contents s' 1 = Some [].
Proof.
  intros s'.
  destruct (move_ctor_transfers 1 two_vectors (vector_at 1 3 2) [5; 6])
    as (s1 & Hr & _ & Hc & _ & Hc' & _); [reflexivity | reflexivity |].
  unfold s'. rewrite Hr. exact (conj Hc Hc').
Defined.

Lemma moved_from_vector_destroys_nothing_witness :
  let s1 := final (Vector.move_ctor 1 two_vectors) in
  contents (final (Vector.dtor 1 s1)) 2 = Some [5; 6].
Proof.
  intros s1.
  destruct (moved_from_vector_destroys_nothing 1 two_vectors [5; 6] 2 s1)
    as (s2 & Hr & _ & _ & Hc); [reflexivity | vm_compute; reflexivity |].
  rewrite Hr. exact Hc.
Defined.

Lemma move_assign_transfers_witness :
  let s' := final (Vector.move_assign 0 1 two_vectors) in
  contents s' 0 = Some [5; 6] ∧ contents s' 1 = Some [].
Proof.
  intros s'.
  destruct (move_assign_transfers 0 1 two_vectors (vector_at 0 1 1) (vector_at 1 3 2)
              [1] [5; 6])
    as (s1 & Hr & _ & Hc & _ & Hc' & _);
    [lia | reflexivity | reflexivity | reflexivity | reflexivity
    | simpl; intros b [= <-]; discriminate |].
  unfold s'. rewrite Hr. exact (conj Hc Hc').
Defined.

Lemma dtor_destroys_then_releases_witness :
  trace (final (Vector.dtor 0 (two_of_four [])))
  = [EvDtor (Slot 0 0); EvDtor (Slot 0 1); EvFree 0].
Proof.
  destruct (dtor_destroys_then_releases 0 (two_of_four []) (vector_at 0 4 2) [1; 2])
    as (s' & Hr & _ & _ & _ & Ht); [reflexivity | reflexivity |].
  rewrite Hr. exact Ht.
Defined.

Lemma copy_assign_copies_witness :
  let s' := final (Vector.copy_assign (Elt:=NothrowMovable) 0 1 two_vectors) in
  contents s' 0 = Some [5; 6] ∧ contents s' 1 = Some [5; 6].
Proof.
  intros s'.
  destruct (copy_assign_copies (Elt:=NothrowMovable) 0 1 two_vectors (vector_at 0 1 1)
              (vector_at 1 3 2) [1] [5; 6] tt s')
    as (vec' & _ & _ & Hc & _ & Hc' & _);
    [lia | reflexivity | reflexivity | reflexivity | reflexivity
    | simpl; intros b [= <-]; discriminate | vm_compute; reflexivity
    | exact (conj Hc Hc')].
Defined.

Lemma index_is_checked_witness :
  load (T:=nat) (Ptr (Some 0) 1) (two_of_four []) = Ok 2 (two_of_four []) ∧
  Vector.index (T:=nat) 0 2 (two_of_four []) = Undef AssertFailed (two_of_four []).
Proof.
  destruct (index_is_checked 0 (two_of_four []) (vector_at 0 4 2) [1; 2])
    as [Hin Hout]; [reflexivity | reflexivity |].
  split; [apply (Hin 1 2); reflexivity | apply Hout; simpl; lia].
Defined.

Lemma Erase_never_throws_when_declared_witness :
  let s := two_of_four [true] in
  match Vector.Erase (Elt:=NothrowMovable) 0 (Ptr (Some 0) 0) s with
  | Throw _ => False
  | _ => True
  end.
Proof.
  intros s.
  pose proof (Erase_never_throws_when_declared (Elt:=NothrowMovable) 0 (Ptr (Some 0) 0)
                eq_refl s) as Hnever.
  destruct (Vector.Erase (Elt:=NothrowMovable) 0 (Ptr (Some 0) 0) s) as [p s'|s'|w s'];
    [exact I | exact (Hnever s' eq_refl) | exact I].
Defined.

Lemma Reserve_failure_leaves_vector_unchanged_witness :
  let s := full_of_two [false; true] in
  contents (final (Vector.Reserve (Elt:=ThrowingMove) 0 5 s)) 0 = Some [1; 2].
Proof.
  intros s.
  destruct (Reserve_failure_leaves_vector_unchanged (Elt:=ThrowingMove) 0 5 s
              (final (Vector.Reserve (Elt:=ThrowingMove) 0 5 s)) [1; 2])
    as (_ & Hc & _);
    [reflexivity | right; reflexivity | vm_compute; reflexivity | exact Hc].
Defined.

Lemma Reserve_then_smaller_is_noop_witness :
  let s' := final (Vector.Reserve (Elt:=NothrowMovable) 0 5 (full_of_two [])) in
  Vector.Reserve (Elt:=NothrowMovable) 0 3 s' = Ok tt s'.
Proof.
  intros s'.
  apply (Reserve_then_smaller_is_noop (Elt:=NothrowMovable) 0 5 3 (full_of_two []) tt s');
    [vm_compute; reflexivity | lia].
Defined.

Lemma append_in_place_failure_changes_nothing_witness :
  let s := two_of_four [true] in
  heap (final (run_call (Elt:=NothrowMovable) 0 (Call_PushBack 7) s)) = heap s.
Proof.
  intros s.
  destruct (append_in_place_failure_changes_nothing (Elt:=NothrowMovable) 0 (Call_PushBack 7) 7
              s (final (run_call (Elt:=NothrowMovable) 0 (Call_PushBack 7) s))
              (vector_at 0 4 2))
    as (Hh & _); [reflexivity | simpl; lia | left; reflexivity | vm_compute; reflexivity
                 | exact Hh].
Defined.

Lemma insertions_refine_list_witness :
  let calls := [Call_PushBack 1; Call_Insert 0 2; Call_EmplaceBack 3; Call_Emplace 1 4] in
  contents (final (run_calls (Elt:=ThrowingMove) 0 calls (fresh []))) 0 = Some [2; 4; 1; 3].
Proof.
  intros calls.
  destruct (insertions_refine_list (Elt:=ThrowingMove) 0 calls (fresh []) empty_vector []
              [2; 4; 1; 3] tt (final (run_calls (Elt:=ThrowingMove) 0 calls (fresh []))))
    as (vec' & _ & _ & Hc);
    [reflexivity | reflexivity | reflexivity | vm_compute; reflexivity | exact Hc].
Defined.

Lemma iterator_range_is_size_witness :
  distance (T:=nat) 0 (two_of_four []) = Ok 2 (two_of_four []).
Proof.
  destruct (iterator_range_is_size (T:=nat) 0 (two_of_four []) (vector_at 0 4 2)) as [Hd _];
    [reflexivity | exact Hd].
Defined.

Lemma RawMemory_releases_its_block_witness :
  let s := fresh [] in
  let s1 := final (RawMemory.ctor (T:=nat) 3 s) in
  heap (final (RawMemory.dtor (Build_RawMemory (Some 0) 3) s1)) = [None].
Proof.
  intros s s1.
  destruct (RawMemory_releases_its_block (T:=nat) 3 s (Build_RawMemory (Some 0) 3) s1)
    as (s2 & Hr & _ & Hh & _); [vm_compute; reflexivity |].
  rewrite Hr. exact Hh.
Defined.
